(** * ELV audio-sequence extraction and sequence rendering

    A shallow embedding of the sequence-preserving ELV tools:

    - [sequence_preserving_elv_extractor.py] and
      [elv_sequence_report_generator.py]: the pattern scan over a level
      file, the offset sort, the first-occurrence filter, the classifier,
      the inventory and the availability check, the level parser and the
      statistics loop of a report;
    - [sequence_preserving_music_generator.py]: the level lookup, the
      decoder of a sample file, the clip loader loop, the cyclic buffer
      fill, the peak normalisation and the 16-bit conversion.

    Conventions of the model.

    - A [bytes] value is a [list byte]; a [str] value is a [string].  Every
      [str] the programs build comes out of
      [bytes.decode('ascii', errors='ignore')] or out of an upper-casing of
      such a text, so its characters are code points below 128; the
      character predicates below ([isdigit], [isprintable], [isspace],
      [ascii_upper]) are Python's restricted to that range.  The
      availability check can be called with any [str]: it is also given
      over sequences of code points, with [str.isdigit] and [str.upper]
      on all of Unicode (modules [Unicode] and [Inventory]), and the two
      agree on the names of the scan.
    - Python integers that index or count are [nat]; the header version
      is an [N].
    - Audio samples are rationals ([Q]): the values of finite [float32]
      numbers.  The decoder only ever produces dyadic values (an 8- or
      16-bit integer, or the mean of two, over a power of two), which
      [float32] holds exactly, and the fill loop only copies them.  The two
      arithmetic steps on samples whose result need not be a [float32]
      value, the division by the peak and the product with 32767, are
      rounded as IEEE 754 binary32 rounds them: the exact result is taken
      to the nearest binary32 value, ties to the even one ([round32]).
      Comparisons and absolute values are exact in binary32.  The
      normalisation step is written over the arithmetic it uses, so that
      it can also be run on the Standard Library's specification of IEEE
      floats.
    - A call that can fail to return is run with fuel and ends in an
      [outcome]: it returns, it raises, or the fuel is used up. *)

From Stdlib Require Import List String Ascii ZArith NArith QArith Qabs Qround Qpower.
From Stdlib Require Import Lia Lqa.
From Stdlib Require Import Permutation Sorted Bool.
From Stdlib.Strings Require Import Byte.
From Stdlib.Floats Require Import SpecFloat.
From stdpp Require Import gmap strings.
Import ListNotations.
Close Scope Q_scope.
Open Scope string_scope.
Open Scope list_scope.

(** ** Text and bytes *)

Module Text.

Definition code (c : ascii) : N := N_of_ascii c.

Definition in_range (lo hi c : ascii) : bool :=
  (code lo <=? code c)%N && (code c <=? code hi)%N.

(** [str.isdigit], [str.isprintable] and [str.isspace] on one ASCII
    character. *)
Definition isdigit (c : ascii) : bool := in_range "0" "9" c.
Definition isprintable (c : ascii) : bool := in_range " " "~" c.
Definition isspace (c : ascii) : bool :=
  in_range "009" "013" c || in_range "028" "032" c.

Definition ascii_lower (c : ascii) : ascii :=
  if in_range "A" "Z" c then ascii_of_N (code c + 32) else c.
Definition ascii_upper (c : ascii) : ascii :=
  if in_range "a" "z" c then ascii_of_N (code c - 32) else c.

Fixpoint str_map (f : ascii -> ascii) (s : string) : string :=
  match s with
  | EmptyString => EmptyString
  | String c s' => String (f c) (str_map f s')
  end.

Fixpoint str_filter (f : ascii -> bool) (s : string) : string :=
  match s with
  | EmptyString => EmptyString
  | String c s' => if f c then String c (str_filter f s') else str_filter f s'
  end.

Fixpoint str_forallb (f : ascii -> bool) (s : string) : bool :=
  match s with
  | EmptyString => true
  | String c s' => f c && str_forallb f s'
  end.

(** [s.upper()] *)
Definition upper (s : string) : string := str_map ascii_upper s.

(** [s[n:]] and [s[:n]] *)
Fixpoint str_drop (n : nat) (s : string) : string :=
  match n, s with
  | O, _ => s
  | S _, EmptyString => EmptyString
  | S k, String _ s' => str_drop k s'
  end.

Fixpoint str_take (n : nat) (s : string) : string :=
  match n, s with
  | O, _ => EmptyString
  | S _, EmptyString => EmptyString
  | S k, String c s' => String c (str_take k s')
  end.

(** [s.endswith(suffix)] *)
Definition endswith (s suffix : string) : bool :=
  String.eqb (str_drop (String.length s - String.length suffix) s) suffix
  && (String.length suffix <=? String.length s)%nat.

(** [s.startswith(prefix)] *)
Definition startswith (s pre : string) : bool := String.prefix pre s.

(** [s.lstrip()], [s.rstrip()], [s.strip()] *)
Fixpoint lstrip (s : string) : string :=
  match s with
  | EmptyString => EmptyString
  | String c s' => if isspace c then lstrip s' else s
  end.

Fixpoint rstrip (s : string) : string :=
  match s with
  | EmptyString => EmptyString
  | String c s' =>
      match rstrip s' with
      | EmptyString => if isspace c then EmptyString else String c EmptyString
      | r => String c r
      end
  end.

Definition strip (s : string) : string := rstrip (lstrip s).

(** [s.split(sep)] for a one-character separator: never an empty list,
    the empty text splits into one empty fragment. *)
Fixpoint split (sep : ascii) (s : string) : list string :=
  match s with
  | EmptyString => [EmptyString]
  | String c s' =>
      if Ascii.eqb c sep then EmptyString :: split sep s'
      else match split sep s' with
           | h :: t => String c h :: t
           | [] => [String c EmptyString]
           end
  end.

(** [data.decode('ascii', errors='ignore')]: a byte of 128 or more is an
    error for the ASCII codec and the [ignore] handler drops it; every
    other byte becomes the character of the same code. *)
Definition is_ascii_byte (b : byte) : bool := (Byte.to_N b <? 128)%N.

Definition decode_ascii_ignore (data : list byte) : string :=
  string_of_list_byte (List.filter is_ascii_byte data).

End Text.

(** ** The fragment of [re] the programs use *)

Module Re.
Import Text.

(** One character position of a pattern: a literal, [\d], or a class
    [[lo-hi]]. *)
Inductive atom : Type :=
| Lit (c : ascii)
| Digit
| Range (lo hi : ascii).

(** A pattern is a sequence of pieces: an atom, an atom under [+]
    (greedy, one or more), or the anchor [$]. *)
Inductive piece : Type :=
| One (a : atom)
| Plus (a : atom)
| EndAnchor.

Definition regex : Type := list piece.

(** A literal run such as [rhyth\.wav]. *)
Fixpoint lits (s : string) : regex :=
  match s with
  | EmptyString => []
  | String c s' => One (Lit c) :: lits s'
  end.

(** Whether character [c] matches atom [a].  Under [re.IGNORECASE]
    ([ic = true]) a literal matches either case of the same letter and a
    class matches when either case of the character lies in it. *)
Definition atom_match (ic : bool) (a : atom) (c : ascii) : bool :=
  match a with
  | Lit x =>
      if ic then Ascii.eqb (ascii_lower c) (ascii_lower x) else Ascii.eqb c x
  | Digit => isdigit c
  | Range lo hi =>
      if ic then in_range lo hi (ascii_lower c) || in_range lo hi (ascii_upper c)
      else in_range lo hi c
  end.

(** [$] without [re.MULTILINE]: at the end of the text, or just before a
    newline that ends the text. *)
Definition at_end (s : string) : bool :=
  match s with
  | EmptyString => true
  | String c EmptyString => Ascii.eqb c "010"
  | _ => false
  end.

(** The backtracking matcher anchored at the head of [s]: the length of
    the match the engine finds first, if any.  [Plus a] first tries to
    take one more character and gives it back when the rest fails. *)
Fixpoint match_here (ic : bool) (re : regex) : string -> option nat :=
  match re with
  | [] => fun _ => Some O
  | p :: rest =>
      let k := match_here ic rest in
      match p with
      | One a => fun s =>
          match s with
          | String c s' => if atom_match ic a c then option_map S (k s') else None
          | EmptyString => None
          end
      | Plus a =>
          fix plus (s : string) : option nat :=
            match s with
            | String c s' =>
                if atom_match ic a c then
                  match plus s' with
                  | Some n => Some (S n)
                  | None => option_map S (k s')
                  end
                else None
            | EmptyString => None
            end
      | EndAnchor => fun s => if at_end s then k s else None
      end
  end.

(** [re.finditer]: scan left to right; at a position where the pattern
    matches, record [(match.start(), match.group())] and resume after the
    match.  [skip] counts the characters still covered by the last match.
    (No pattern of the catalog matches the empty text, so the engine's
    special handling of empty matches is never reached.) *)
Fixpoint finditer_from (ic : bool) (re : regex) (s : string) (pos skip : nat)
  : list (nat * string) :=
  match s with
  | EmptyString => []
  | String _ s' =>
      match skip with
      | S k => finditer_from ic re s' (S pos) k
      | O =>
          match match_here ic re s with
          | Some n => (pos, str_take n s) :: finditer_from ic re s' (S pos) (pred n)
          | None => finditer_from ic re s' (S pos) O
          end
      end
  end.

Definition finditer (ic : bool) (re : regex) (s : string) : list (nat * string) :=
  finditer_from ic re s O O.

(** [re.match(pattern, s)]: anchored at the start. *)
Definition re_match (ic : bool) (re : regex) (s : string) : bool :=
  match match_here ic re s with Some _ => true | None => false end.

(** How long a match can be.  Every pattern of the catalog ends in the
    literal [v] and, its first piece apart, can match no other [v]: a
    match that starts at a given character ends at the first [v] or [V]
    after that character.  [index_v] counts the characters before that
    [v]; [ends_in_v] and [catalog_shape] check the shape of a pattern. *)
Definition is_v (c : ascii) : bool := Ascii.eqb (ascii_lower c) "v".

Fixpoint index_v (s : string) : nat :=
  match s with
  | EmptyString => O
  | String c s' => if is_v c then O else S (index_v s')
  end.

Definition v_free (a : atom) : bool :=
  match a with
  | Lit x => negb (is_v x)
  | Digit => true
  | Range _ _ => false
  end.

Fixpoint ends_in_v (re : regex) : bool :=
  match re with
  | [] => false
  | p :: rest =>
      match rest with
      | [] => match p with One (Lit x) => is_v x | _ => false end
      | _ :: _ =>
          match p with
          | One a | Plus a => v_free a
          | EndAnchor => false
          end && ends_in_v rest
      end
  end.

Definition catalog_shape (re : regex) : bool :=
  match re with
  | One _ :: rest => ends_in_v rest
  | Plus a :: rest => v_free a && ends_in_v rest
  | _ => false
  end.

(** Two pieces that accept the same characters under [re.IGNORECASE]. *)
Definition same_piece (p p' : piece) : Prop :=
  match p, p' with
  | One a, One a' | Plus a, Plus a' =>
      forall c, atom_match true a c = atom_match true a' c
  | EndAnchor, EndAnchor => True
  | _, _ => False
  end.

(** The number of pieces of a pattern that take at least one character. *)
Fixpoint consuming (re : regex) : nat :=
  match re with
  | [] => O
  | One _ :: rest | Plus _ :: rest => S (consuming rest)
  | EndAnchor :: rest => consuming rest
  end.

End Re.

(** ** Outcomes of calls that may raise or fail to return *)

Inductive outcome (A : Type) : Type :=
| Diverges
| Raises (exn : string)
| Returns (a : A).
Arguments Diverges {A}.
Arguments Raises {A} exn.
Arguments Returns {A} a.

(** ** The extractor and the report generator *)

Module Extractor.
Import Text Re.

(** [audio_patterns], in the order of the source: five shapes in
    lower-case spelling, then the same five in upper-case spelling. *)
Definition audio_patterns : list regex :=
  [ Plus Digit :: lits "rhyth.wav";
    One (Range "a" "z") :: lits "rhyth.wav";
    One (Lit "!") :: Plus Digit :: lits "rhyt.wav";
    One (Lit "x") :: Plus Digit :: lits "rhyt.wav";
    lits "nosound.wav";
    Plus Digit :: lits "RHYTH.WAV";
    One (Range "A" "Z") :: lits "RHYTH.WAV";
    One (Lit "!") :: Plus Digit :: lits "RHYT.WAV";
    One (Lit "X") :: Plus Digit :: lits "RHYT.WAV";
    lits "NOSOUND.WAV" ].

(** The two nested loops that build [all_matches]: for every pattern,
    for every match, [(match.group(1).upper(), match.start())]. *)
Definition matches_of (text_data : string) (pattern : regex) : list (string * nat) :=
  map (fun m => (upper (snd m), fst m)) (finditer true pattern text_data).

Definition all_matches (text_data : string) : list (string * nat) :=
  flat_map (matches_of text_data) audio_patterns.

(** [all_matches.sort(key=lambda x: x[1])].  Python's sort is stable, and
    the stable ordering of a list by a key is unique; it is computed here
    by insertion from the right, an element going in front of the
    elements whose key is not smaller. *)
Fixpoint insert_by_offset (x : string * nat) (l : list (string * nat))
  : list (string * nat) :=
  match l with
  | [] => [x]
  | y :: l' => if (snd x <=? snd y)%nat then x :: l else y :: insert_by_offset x l'
  end.

Fixpoint sort_by_offset (l : list (string * nat)) : list (string * nat) :=
  match l with
  | [] => []
  | x :: l' => insert_by_offset x (sort_by_offset l')
  end.

(** Order of two matches by their offsets (used to state what sorting
    gives). *)
Definition offset_le (a b : string * nat) : Prop := snd a <= snd b.

(** The loop over the sorted matches with its [seen] set. *)
Fixpoint keep_first (seen : gset string) (ms : list (string * nat))
  : list (string * nat) :=
  match ms with
  | [] => []
  | (filename, position) :: rest =>
      if negb (bool_decide (filename ∈ seen)) && (4 <? String.length filename)%nat
      then (filename, position) :: keep_first ({[filename]} ∪ seen) rest
      else keep_first seen rest
  end.

(** [_extract_audio_sequence_from_data].  Nothing inside the [try] can
    raise in this model, so the handler is never entered. *)
Definition _extract_audio_sequence_from_data (data : list byte) : list (string * nat) :=
  let text_data := decode_ascii_ignore data in
  keep_first ∅ (sort_by_offset (all_matches text_data)).

(** [_classify_audio_file] *)
Definition _classify_audio_file (filename : string) : string :=
  let filename_upper := upper filename in
  if String.eqb filename_upper "NOSOUND.WAV" then "silence"
  else if startswith filename_upper "!" then "system"
  else if startswith filename_upper "X" then "special"
  else if re_match false (One (Range "A" "Z") :: lits "RHYTH.WAV" ++ [EndAnchor])
                   filename_upper then "letter_rhythm"
  else if re_match false (Plus Digit :: lits "RHYTH.WAV" ++ [EndAnchor])
                   filename_upper then "numbered_rhythm"
  else "unknown".

(** Inventory metadata of the report generator:
    [{'duration': ..., 'size_kb': ...}]. *)
Record metadata : Type := { duration : Q; size_kb : N }.

Definition zero_metadata : metadata := {| duration := 0%Q; size_kb := 0%N |}.

(** The guard of the fallback, [len(filename) > 4 and
    filename[0].isdigit()], and the two availability checks, on the names
    the scan produces: ASCII texts, on which [str.isdigit] is the ASCII
    digit test and [str.upper] the ASCII one.  Module [Inventory] below
    has the checks on every [str]; on ASCII names, and so on every name
    of the scan, they give the same answers ([check_set_on_ascii_names],
    [scan_names_resolve_alike]). *)
Definition fallback_applies (filename : string) : bool :=
  (4 <? String.length filename)%nat
  && match filename with
     | String c _ => isdigit c
     | EmptyString => false
     end.

(** [_check_audio_file_exists] of the report generator, over the
    dictionary [audio_file_info]. *)
Definition _check_audio_file_exists (audio_file_info : gmap string metadata)
    (filename : string) : bool * option string * metadata :=
  let filename_upper := upper filename in
  match audio_file_info !! filename_upper with
  | Some md => (true, Some filename_upper, md)
  | None =>
      if fallback_applies filename then
        let alt_filename := upper (str_drop 1 filename) in
        match audio_file_info !! alt_filename with
        | Some md => (true, Some alt_filename, md)
        | None => (false, None, zero_metadata)
        end
      else (false, None, zero_metadata)
  end.

(** [_check_audio_file_exists] of the extractor, over the set
    [available_audio_files]. *)
Definition _check_audio_file_exists_set (available_audio_files : gset string)
    (filename : string) : bool * option string :=
  let filename_upper := upper filename in
  if bool_decide (filename_upper ∈ available_audio_files) then (true, Some filename_upper)
  else if fallback_applies filename then
    let alt_filename := upper (str_drop 1 filename) in
    if bool_decide (alt_filename ∈ available_audio_files) then (true, Some alt_filename)
    else (false, None)
  else (false, None).

(** [ELVAudioInfo] and [ELVFileInfo] *)
Record ELVAudioInfo : Type := {
  filename : string;
  file_type : string;
  exists_in_rloops : bool;
  sequence_position : nat;
  binary_offset : nat;
  alternative_found : option string
}.

Record ELVFileInfo : Type := {
  file_name : string;
  filepath : string;
  file_size : nat;
  elvd_version : N;
  level_title : option string;
  audio_files : list ELVAudioInfo;
  audio_count : nat;
  parse_success : bool;
  error_message : option string;
  analysis_timestamp : string
}.

(** The title loop: the first line whose cleaned text is long enough and
    is not an [.lbm] name; [break] on the first hit. *)
Definition clean_line (line : string) : string := strip (str_filter isprintable line).

Definition title_candidate (clean : string) : bool :=
  (10 <? String.length clean)%nat && negb (endswith clean ".lbm").

Fixpoint first_title (lines : list string) : option string :=
  match lines with
  | [] => None
  | line :: rest =>
      if title_candidate (clean_line line) then Some (str_take 50 (clean_line line))
      else first_title rest
  end.

Definition title_lines (file_data : list byte) : list string :=
  split "000" (decode_ascii_ignore (skipn 8 file_data)).

Definition extract_level_title (file_data : list byte) : option string :=
  first_title (title_lines file_data).

(** The title as the specification words it: the first fragment that
    consists of printable characters only, is longer than 10 characters
    and does not end with the image suffix, cut to 50 characters. *)
Definition title_as_specified (file_data : list byte) : option string :=
  option_map (str_take 50)
    (List.find (fun fragment =>
                  str_forallb isprintable fragment
                  && (10 <? String.length fragment)%nat
                  && negb (endswith fragment ".lbm"))
               (title_lines file_data)).

(** [struct.unpack('<H', file_data[4:8][:2])[0]] *)
Definition unpack_version (file_data : list byte) : N :=
  (Byte.to_N (nth 4 file_data x00) + 256 * Byte.to_N (nth 5 file_data x00))%N.

(** The loop over [enumerate(audio_sequence)]. *)
Fixpoint build_audio_files (available_audio_files : gset string) (sequence_pos : nat)
    (audio_sequence : list (string * nat)) : list ELVAudioInfo :=
  match audio_sequence with
  | [] => []
  | (audio_filename, offset) :: rest =>
      let '(found, alternative) :=
        _check_audio_file_exists_set available_audio_files audio_filename in
      {| filename := audio_filename;
         file_type := _classify_audio_file audio_filename;
         exists_in_rloops := found;
         sequence_position := sequence_pos;
         binary_offset := offset;
         alternative_found :=
           if bool_decide (alternative = Some (upper audio_filename)) then None
           else alternative |}
      :: build_audio_files available_audio_files (S sequence_pos) rest
  end.

(** What the file system answers for one path: [os.path.exists] is
    false; or the file exists and [os.path.getsize], [open] or [read]
    raises ([size] is what [getsize] returned, if it returned); or the
    whole content is read. *)
Inductive file_read : Type :=
| NotFound
| Unreadable (size : option nat) (msg : string)
| Contents (file_data : list byte).

(** [os.path.basename] for [/]-separated paths. *)
Definition basename (path : string) : string := List.last (split "/" path) EmptyString.

Definition ELVD : list byte := [x45; x4c; x56; x44].

(** Equality of two [bytes] values. *)
Fixpoint bytes_eqb (a b : list byte) : bool :=
  match a, b with
  | [], [] => true
  | x :: a', y :: b' => Byte.eqb x y && bytes_eqb a' b'
  | _, _ => false
  end.

(** [len(file_data) < 8 or file_data[:4] != b'ELVD'] *)
Definition bad_header (file_data : list byte) : bool :=
  (length file_data <? 8)%nat || negb (bytes_eqb (firstn 4 file_data) ELVD).

(** Assignments to the fields of the [file_info] object. *)
Definition set_file_size (v : nat) (r : ELVFileInfo) : ELVFileInfo :=
  {| file_name := file_name r; filepath := filepath r; file_size := v;
     elvd_version := elvd_version r; level_title := level_title r;
     audio_files := audio_files r; audio_count := audio_count r;
     parse_success := parse_success r; error_message := error_message r;
     analysis_timestamp := analysis_timestamp r |}.

Definition set_elvd_version (v : N) (r : ELVFileInfo) : ELVFileInfo :=
  {| file_name := file_name r; filepath := filepath r; file_size := file_size r;
     elvd_version := v; level_title := level_title r;
     audio_files := audio_files r; audio_count := audio_count r;
     parse_success := parse_success r; error_message := error_message r;
     analysis_timestamp := analysis_timestamp r |}.

Definition set_level_title (v : option string) (r : ELVFileInfo) : ELVFileInfo :=
  {| file_name := file_name r; filepath := filepath r; file_size := file_size r;
     elvd_version := elvd_version r; level_title := v;
     audio_files := audio_files r; audio_count := audio_count r;
     parse_success := parse_success r; error_message := error_message r;
     analysis_timestamp := analysis_timestamp r |}.

Definition set_audio_files (v : list ELVAudioInfo) (r : ELVFileInfo) : ELVFileInfo :=
  {| file_name := file_name r; filepath := filepath r; file_size := file_size r;
     elvd_version := elvd_version r; level_title := level_title r;
     audio_files := v; audio_count := audio_count r;
     parse_success := parse_success r; error_message := error_message r;
     analysis_timestamp := analysis_timestamp r |}.

Definition set_audio_count (v : nat) (r : ELVFileInfo) : ELVFileInfo :=
  {| file_name := file_name r; filepath := filepath r; file_size := file_size r;
     elvd_version := elvd_version r; level_title := level_title r;
     audio_files := audio_files r; audio_count := v;
     parse_success := parse_success r; error_message := error_message r;
     analysis_timestamp := analysis_timestamp r |}.

Definition set_parse_success (v : bool) (r : ELVFileInfo) : ELVFileInfo :=
  {| file_name := file_name r; filepath := filepath r; file_size := file_size r;
     elvd_version := elvd_version r; level_title := level_title r;
     audio_files := audio_files r; audio_count := audio_count r;
     parse_success := v; error_message := error_message r;
     analysis_timestamp := analysis_timestamp r |}.

Definition set_error_message (v : option string) (r : ELVFileInfo) : ELVFileInfo :=
  {| file_name := file_name r; filepath := filepath r; file_size := file_size r;
     elvd_version := elvd_version r; level_title := level_title r;
     audio_files := audio_files r; audio_count := audio_count r;
     parse_success := parse_success r; error_message := v;
     analysis_timestamp := analysis_timestamp r |}.

(** The body of the [try] block once the file is read; none of its
    steps can raise. *)
Definition parse_contents (available_audio_files : gset string)
    (file_data : list byte) (file_info : ELVFileInfo) : ELVFileInfo :=
  if bad_header file_data then
    set_error_message (Some "Invalid ELVD header") file_info
  else
    let file_info := set_elvd_version (unpack_version file_data) file_info in
    let file_info :=
      match extract_level_title file_data with
      | Some title => set_level_title (Some title) file_info
      | None => file_info
      end in
    let audio_sequence := _extract_audio_sequence_from_data file_data in
    let file_info :=
      set_audio_files (audio_files file_info
                       ++ build_audio_files available_audio_files O audio_sequence)
                      file_info in
    let file_info := set_audio_count (length (audio_files file_info)) file_info in
    set_parse_success true file_info.

(** [parse_elv_file].  [now] is [datetime.now().isoformat()]; [fs] is
    what the file system answers for [path].  An exception inside the
    [try] reaches the handler with the fields assigned so far. *)
Definition parse_elv_file (available_audio_files : gset string) (now : string)
    (path : string) (fs : file_read) : ELVFileInfo :=
  let file_info :=
    {| file_name := basename path; filepath := path; file_size := O;
       elvd_version := 0%N; level_title := None; audio_files := [];
       audio_count := O; parse_success := false; error_message := None;
       analysis_timestamp := now |} in
  match fs with
  | NotFound =>
      set_error_message (Some ("File not found: " +:+ path)) file_info
  | Unreadable size msg =>
      let file_info :=
        match size with
        | Some n => set_file_size n file_info
        | None => file_info
        end in
      set_error_message (Some ("Parse error: " +:+ msg)) file_info
  | Contents file_data =>
      let file_info := set_file_size (length file_data) file_info in
      parse_contents available_audio_files file_data file_info
  end.

(** The scan and the extraction over a given catalog of patterns; the
    source runs them over [audio_patterns]. *)
Definition all_matches_of (patterns : list regex) (text_data : string)
  : list (string * nat) :=
  flat_map (matches_of text_data) patterns.

Definition extract_with (patterns : list regex) (data : list byte)
  : list (string * nat) :=
  keep_first ∅ (sort_by_offset (all_matches_of patterns (decode_ascii_ignore data))).

(** [_cache_available_audio_files] of the extractor.  [listing] is
    [os.listdir(rloops_dir)], [None] when the directory does not exist. *)
Definition _cache_available_audio_files (listing : option (list string))
  : gset string :=
  match listing with
  | None => ∅
  | Some names =>
      fold_left (fun available filename =>
                   if endswith (upper filename) ".WAV"
                   then {[upper filename]} ∪ available
                   else available)
                names ∅
  end.

End Extractor.

(** ** Python [str] over all of Unicode *)

Module Unicode.

(** A [str] value as the sequence of its code points. *)
Definition str : Type := list N.

(** The tables of CPython 3.11 (Unicode 14.0): the ranges of the code
    points that [str.isdigit] accepts (Numeric_Type Digit or Decimal); the
    runs [(first, last, step, image of first)] of code points that
    [str.upper] maps to one code point at a constant distance; and the
    code points that it maps to several. *)
Definition digit_ranges : list (N * N) :=
  [
    (48, 57); (178, 179); (185, 185); (1632, 1641); (1776, 1785);
    (1984, 1993); (2406, 2415); (2534, 2543); (2662, 2671); (2790, 2799);
    (2918, 2927); (3046, 3055); (3174, 3183); (3302, 3311); (3430, 3439);
    (3558, 3567); (3664, 3673); (3792, 3801); (3872, 3881); (4160, 4169);
    (4240, 4249); (4969, 4977); (6112, 6121); (6160, 6169); (6470, 6479);
    (6608, 6618); (6784, 6793); (6800, 6809); (6992, 7001); (7088, 7097);
    (7232, 7241); (7248, 7257); (8304, 8304); (8308, 8313); (8320, 8329);
    (9312, 9320); (9332, 9340); (9352, 9360); (9450, 9450); (9461, 9469);
    (9471, 9471); (10102, 10110); (10112, 10120); (10122, 10130); (42528, 42537);
    (43216, 43225); (43264, 43273); (43472, 43481); (43504, 43513); (43600, 43609);
    (44016, 44025); (65296, 65305); (66720, 66729); (68160, 68163); (68912, 68921);
    (69216, 69224); (69714, 69722); (69734, 69743); (69872, 69881); (69942, 69951);
    (70096, 70105); (70384, 70393); (70736, 70745); (70864, 70873); (71248, 71257);
    (71360, 71369); (71472, 71481); (71904, 71913); (72016, 72025); (72784, 72793);
    (73040, 73049); (73120, 73129); (92768, 92777); (92864, 92873); (93008, 93017);
    (120782, 120831); (123200, 123209); (123632, 123641); (125264, 125273); (127232, 127242);
    (130032, 130041) ]%N.

Definition upper_runs : list (N * N * N * N) :=
  [
    (97, 122, 1, 65); (181, 181, 1, 924); (224, 246, 1, 192);
    (248, 254, 1, 216); (255, 255, 1, 376); (257, 303, 2, 256);
    (305, 305, 1, 73); (307, 311, 2, 306); (314, 328, 2, 313);
    (331, 375, 2, 330); (378, 382, 2, 377); (383, 383, 1, 83);
    (384, 384, 1, 579); (387, 389, 2, 386); (392, 392, 1, 391);
    (396, 396, 1, 395); (402, 402, 1, 401); (405, 405, 1, 502);
    (409, 409, 1, 408); (410, 410, 1, 573); (414, 414, 1, 544);
    (417, 421, 2, 416); (424, 424, 1, 423); (429, 429, 1, 428);
    (432, 432, 1, 431); (436, 438, 2, 435); (441, 441, 1, 440);
    (445, 445, 1, 444); (447, 447, 1, 503); (453, 453, 1, 452);
    (454, 454, 1, 452); (456, 456, 1, 455); (457, 457, 1, 455);
    (459, 459, 1, 458); (460, 460, 1, 458); (462, 476, 2, 461);
    (477, 477, 1, 398); (479, 495, 2, 478); (498, 498, 1, 497);
    (499, 499, 1, 497); (501, 501, 1, 500); (505, 543, 2, 504);
    (547, 563, 2, 546); (572, 572, 1, 571); (575, 576, 1, 11390);
    (578, 578, 1, 577); (583, 591, 2, 582); (592, 592, 1, 11375);
    (593, 593, 1, 11373); (594, 594, 1, 11376); (595, 595, 1, 385);
    (596, 596, 1, 390); (598, 599, 1, 393); (601, 601, 1, 399);
    (603, 603, 1, 400); (604, 604, 1, 42923); (608, 608, 1, 403);
    (609, 609, 1, 42924); (611, 611, 1, 404); (613, 613, 1, 42893);
    (614, 614, 1, 42922); (616, 616, 1, 407); (617, 617, 1, 406);
    (618, 618, 1, 42926); (619, 619, 1, 11362); (620, 620, 1, 42925);
    (623, 623, 1, 412); (625, 625, 1, 11374); (626, 626, 1, 413);
    (629, 629, 1, 415); (637, 637, 1, 11364); (640, 640, 1, 422);
    (642, 642, 1, 42949); (643, 643, 1, 425); (647, 647, 1, 42929);
    (648, 648, 1, 430); (649, 649, 1, 580); (650, 651, 1, 433);
    (652, 652, 1, 581); (658, 658, 1, 439); (669, 669, 1, 42930);
    (670, 670, 1, 42928); (837, 837, 1, 921); (881, 883, 2, 880);
    (887, 887, 1, 886); (891, 893, 1, 1021); (940, 940, 1, 902);
    (941, 943, 1, 904); (945, 961, 1, 913); (962, 962, 1, 931);
    (963, 971, 1, 931); (972, 972, 1, 908); (973, 974, 1, 910);
    (976, 976, 1, 914); (977, 977, 1, 920); (981, 981, 1, 934);
    (982, 982, 1, 928); (983, 983, 1, 975); (985, 1007, 2, 984);
    (1008, 1008, 1, 922); (1009, 1009, 1, 929); (1010, 1010, 1, 1017);
    (1011, 1011, 1, 895); (1013, 1013, 1, 917); (1016, 1016, 1, 1015);
    (1019, 1019, 1, 1018); (1072, 1103, 1, 1040); (1104, 1119, 1, 1024);
    (1121, 1153, 2, 1120); (1163, 1215, 2, 1162); (1218, 1230, 2, 1217);
    (1231, 1231, 1, 1216); (1233, 1327, 2, 1232); (1377, 1414, 1, 1329);
    (4304, 4346, 1, 7312); (4349, 4351, 1, 7357); (5112, 5117, 1, 5104);
    (7296, 7296, 1, 1042); (7297, 7297, 1, 1044); (7298, 7298, 1, 1054);
    (7299, 7300, 1, 1057); (7301, 7301, 1, 1058); (7302, 7302, 1, 1066);
    (7303, 7303, 1, 1122); (7304, 7304, 1, 42570); (7545, 7545, 1, 42877);
    (7549, 7549, 1, 11363); (7566, 7566, 1, 42950); (7681, 7829, 2, 7680);
    (7835, 7835, 1, 7776); (7841, 7935, 2, 7840); (7936, 7943, 1, 7944);
    (7952, 7957, 1, 7960); (7968, 7975, 1, 7976); (7984, 7991, 1, 7992);
    (8000, 8005, 1, 8008); (8017, 8023, 2, 8025); (8032, 8039, 1, 8040);
    (8048, 8049, 1, 8122); (8050, 8053, 1, 8136); (8054, 8055, 1, 8154);
    (8056, 8057, 1, 8184); (8058, 8059, 1, 8170); (8060, 8061, 1, 8186);
    (8112, 8113, 1, 8120); (8126, 8126, 1, 921); (8144, 8145, 1, 8152);
    (8160, 8161, 1, 8168); (8165, 8165, 1, 8172); (8526, 8526, 1, 8498);
    (8560, 8575, 1, 8544); (8580, 8580, 1, 8579); (9424, 9449, 1, 9398);
    (11312, 11359, 1, 11264); (11361, 11361, 1, 11360); (11365, 11365, 1, 570);
    (11366, 11366, 1, 574); (11368, 11372, 2, 11367); (11379, 11379, 1, 11378);
    (11382, 11382, 1, 11381); (11393, 11491, 2, 11392); (11500, 11502, 2, 11499);
    (11507, 11507, 1, 11506); (11520, 11557, 1, 4256); (11559, 11559, 1, 4295);
    (11565, 11565, 1, 4301); (42561, 42605, 2, 42560); (42625, 42651, 2, 42624);
    (42787, 42799, 2, 42786); (42803, 42863, 2, 42802); (42874, 42876, 2, 42873);
    (42879, 42887, 2, 42878); (42892, 42892, 1, 42891); (42897, 42899, 2, 42896);
    (42900, 42900, 1, 42948); (42903, 42921, 2, 42902); (42933, 42947, 2, 42932);
    (42952, 42954, 2, 42951); (42961, 42961, 1, 42960); (42967, 42969, 2, 42966);
    (42998, 42998, 1, 42997); (43859, 43859, 1, 42931); (43888, 43967, 1, 5024);
    (65345, 65370, 1, 65313); (66600, 66639, 1, 66560); (66776, 66811, 1, 66736);
    (66967, 66977, 1, 66928); (66979, 66993, 1, 66940); (66995, 67001, 1, 66956);
    (67003, 67004, 1, 66964); (68800, 68850, 1, 68736); (71872, 71903, 1, 71840);
    (93792, 93823, 1, 93760); (125218, 125251, 1, 125184) ]%N.

Definition upper_special : list (N * list N) :=
  [
    (223, [83; 83]); (329, [700; 78]); (496, [74; 780]);
    (912, [921; 776; 769]); (944, [933; 776; 769]); (1415, [1333; 1362]);
    (7830, [72; 817]); (7831, [84; 776]); (7832, [87; 778]);
    (7833, [89; 778]); (7834, [65; 702]); (8016, [933; 787]);
    (8018, [933; 787; 768]); (8020, [933; 787; 769]); (8022, [933; 787; 834]);
    (8064, [7944; 921]); (8065, [7945; 921]); (8066, [7946; 921]);
    (8067, [7947; 921]); (8068, [7948; 921]); (8069, [7949; 921]);
    (8070, [7950; 921]); (8071, [7951; 921]); (8072, [7944; 921]);
    (8073, [7945; 921]); (8074, [7946; 921]); (8075, [7947; 921]);
    (8076, [7948; 921]); (8077, [7949; 921]); (8078, [7950; 921]);
    (8079, [7951; 921]); (8080, [7976; 921]); (8081, [7977; 921]);
    (8082, [7978; 921]); (8083, [7979; 921]); (8084, [7980; 921]);
    (8085, [7981; 921]); (8086, [7982; 921]); (8087, [7983; 921]);
    (8088, [7976; 921]); (8089, [7977; 921]); (8090, [7978; 921]);
    (8091, [7979; 921]); (8092, [7980; 921]); (8093, [7981; 921]);
    (8094, [7982; 921]); (8095, [7983; 921]); (8096, [8040; 921]);
    (8097, [8041; 921]); (8098, [8042; 921]); (8099, [8043; 921]);
    (8100, [8044; 921]); (8101, [8045; 921]); (8102, [8046; 921]);
    (8103, [8047; 921]); (8104, [8040; 921]); (8105, [8041; 921]);
    (8106, [8042; 921]); (8107, [8043; 921]); (8108, [8044; 921]);
    (8109, [8045; 921]); (8110, [8046; 921]); (8111, [8047; 921]);
    (8114, [8122; 921]); (8115, [913; 921]); (8116, [902; 921]);
    (8118, [913; 834]); (8119, [913; 834; 921]); (8124, [913; 921]);
    (8130, [8138; 921]); (8131, [919; 921]); (8132, [905; 921]);
    (8134, [919; 834]); (8135, [919; 834; 921]); (8140, [919; 921]);
    (8146, [921; 776; 768]); (8147, [921; 776; 769]); (8150, [921; 834]);
    (8151, [921; 776; 834]); (8162, [933; 776; 768]); (8163, [933; 776; 769]);
    (8164, [929; 787]); (8166, [933; 834]); (8167, [933; 776; 834]);
    (8178, [8186; 921]); (8179, [937; 921]); (8180, [911; 921]);
    (8182, [937; 834]); (8183, [937; 834; 921]); (8188, [937; 921]);
    (64256, [70; 70]); (64257, [70; 73]); (64258, [70; 76]);
    (64259, [70; 70; 73]); (64260, [70; 70; 76]); (64261, [83; 84]);
    (64262, [83; 84]); (64275, [1348; 1350]); (64276, [1348; 1333]);
    (64277, [1348; 1339]); (64278, [1358; 1350]); (64279, [1348; 1341]) ]%N.

(** [c.isdigit()] for one character. *)
Definition isdigit (c : N) : bool :=
  existsb (fun r => (fst r <=? c)%N && (c <=? snd r)%N) digit_ranges.

Definition in_run (c : N) (r : N * N * N * N) : bool :=
  let '(lo, hi, step, _) := r in
  (lo <=? c)%N && (c <=? hi)%N && ((c - lo) mod step =? 0)%N.

(** [c.upper()] for one character: one code point or several. *)
Definition upper_char (c : N) : list N :=
  match List.find (fun e => (fst e =? c)%N) upper_special with
  | Some e => snd e
  | None =>
      match List.find (in_run c) upper_runs with
      | Some (lo, _, _, image) => [(image + (c - lo))%N]
      | None => [c]
      end
  end.

(** [s.upper()]: character by character, whatever stands around. *)
Definition upper (s : str) : str := flat_map upper_char s.

(** The [str] whose code points are the codes of an 8-bit text. *)
Definition of_string (s : string) : str := map N_of_ascii (list_ascii_of_string s).

(** An 8-bit text made of ASCII characters only. *)
Definition is_ascii (s : string) : bool :=
  Text.str_forallb (fun c => (N_of_ascii c <? 128)%N) s.

End Unicode.

(** ** The availability check on every [str] *)

Module Inventory.
Import Extractor.

(** The guard of the fallback: [len(filename) > 4 and filename[0].isdigit()]. *)
Definition fallback_applies (filename : Unicode.str) : bool :=
  (4 <? length filename)%nat
  && match filename with
     | c :: _ => Unicode.isdigit c
     | [] => false
     end.

(** [_check_audio_file_exists] of the report generator, over the
    dictionary [audio_file_info]. *)
Definition _check_audio_file_exists (audio_file_info : gmap Unicode.str metadata)
    (filename : Unicode.str) : bool * option Unicode.str * metadata :=
  let filename_upper := Unicode.upper filename in
  match audio_file_info !! filename_upper with
  | Some md => (true, Some filename_upper, md)
  | None =>
      if fallback_applies filename then
        let alt_filename := Unicode.upper (skipn 1 filename) in
        match audio_file_info !! alt_filename with
        | Some md => (true, Some alt_filename, md)
        | None => (false, None, zero_metadata)
        end
      else (false, None, zero_metadata)
  end.

(** [_check_audio_file_exists] of the extractor, over the set
    [available_audio_files]. *)
Definition _check_audio_file_exists_set (available_audio_files : gset Unicode.str)
    (filename : Unicode.str) : bool * option Unicode.str :=
  let filename_upper := Unicode.upper filename in
  if bool_decide (filename_upper ∈ available_audio_files) then (true, Some filename_upper)
  else if fallback_applies filename then
    let alt_filename := Unicode.upper (skipn 1 filename) in
    if bool_decide (alt_filename ∈ available_audio_files) then (true, Some alt_filename)
    else (false, None)
  else (false, None).

End Inventory.

(** ** The sequence statistics of the report generator *)

Module Report.
Import Text Extractor.

(** [AudioSequenceInfo] *)
Record AudioSequenceInfo : Type := {
  sequence_position : nat;
  filename : string;
  file_type : string;
  exists_in_rloops : bool;
  binary_offset : nat;
  duration_seconds : Q;
  file_size_kb : N;
  alternative_found : option string
}.

(** What the loop of [generate_elv_report] over the raw sequence keeps
    up to date: [total_duration], [available_count], [type_counts] and
    [report.audio_sequence]. *)
Record statistics : Type := {
  total_duration : Q;
  available_count : nat;
  type_counts : gmap string nat;
  audio_sequence : list AudioSequenceInfo
}.

Section Loop.

(** The sum of two durations, a [float] addition in the source. *)
Variable float_add : Q -> Q -> Q.

Variable audio_file_info : gmap string metadata.

(** One turn of the loop. *)
Definition report_step (seq_pos : nat) (item : string * nat) (st : statistics)
  : statistics :=
  let '(audio_filename, offset) := item in
  let '(found, alternative, md) :=
    _check_audio_file_exists audio_file_info audio_filename in
  {| total_duration :=
       if found then float_add (total_duration st) (duration md)
       else total_duration st;
     available_count :=
       if found then S (available_count st) else available_count st;
     type_counts :=
       <[ _classify_audio_file audio_filename :=
            (default O (type_counts st !! _classify_audio_file audio_filename)
             + 1)%nat ]>
         (type_counts st);
     audio_sequence :=
       audio_sequence st
       ++ [ {| sequence_position := seq_pos;
               filename := audio_filename;
               file_type := _classify_audio_file audio_filename;
               exists_in_rloops := found;
               binary_offset := offset;
               duration_seconds := duration md;
               file_size_kb := size_kb md;
               alternative_found :=
                 if bool_decide (alternative = Some (upper audio_filename))
                 then None else alternative |} ] |}.

(** The loop over [enumerate(audio_sequence_raw)]. *)
Fixpoint report_loop (seq_pos : nat) (audio_sequence_raw : list (string * nat))
    (st : statistics) : statistics :=
  match audio_sequence_raw with
  | [] => st
  | item :: rest => report_loop (S seq_pos) rest (report_step seq_pos item st)
  end.

(** The statistics of a level file with a valid header. *)
Definition sequence_statistics (file_data : list byte) : statistics :=
  report_loop O (_extract_audio_sequence_from_data file_data)
              {| total_duration := 0%Q; available_count := O;
                 type_counts := ∅; audio_sequence := [] |}.

(** [report.total_audio_files] and [report.missing_audio_files] *)
Definition total_audio_files (file_data : list byte) : nat :=
  length (_extract_audio_sequence_from_data file_data).

Definition missing_audio_files (file_data : list byte) : Z :=
  (Z.of_nat (total_audio_files file_data)
   - Z.of_nat (available_count (sequence_statistics file_data)))%Z.

End Loop.

(** How many entries of a sequence have a given category, and what it
    means for the counters to agree with the list built beside them (used
    to state what the loop maintains). *)
Definition count_of (t : string) (l : list AudioSequenceInfo) : nat :=
  length (List.filter (fun a => String.eqb (file_type a) t) l).

Definition counters_agree (st : statistics) : Prop :=
  available_count st = length (List.filter exists_in_rloops (audio_sequence st))
  /\ (forall t, default O (type_counts st !! t) = count_of t (audio_sequence st))
  /\ (forall t, type_counts st !! t <> Some O).

End Report.

(** ** Rounding to binary32 *)

Module Binary32.

(** The exponent of the leading bit of a positive rational [q]: the
    [e] with [2^e <= q < 2^(e+1)]. *)
Definition ilog2 (q : Q) : Z :=
  let k := (Z.log2 (Qnum q) - Z.log2 (Zpos (Qden q)))%Z in
  if Qle_bool (2 ^ k)%Q q then k else (k - 1)%Z.

(** The nearest integer, a tie going to the even one. *)
Definition round_half_even (q : Q) : Z :=
  let f := Qfloor q in
  match (q - inject_Z f ?= 1 # 2)%Q with
  | Lt => f
  | Gt => (f + 1)%Z
  | Eq => if Z.even f then f else (f + 1)%Z
  end.

(** The exponent of the spacing of binary32 around [q]: 24 significant
    bits, and never finer than [2^-149], the spacing of the subnormal
    numbers. *)
Definition ulp_exponent (q : Q) : Z := Z.max (ilog2 (Qabs q) - 23) (-149).

(** The binary32 value nearest to [q], ties to even: what a [float32]
    operation returns when its exact result is [q].  Binary32 overflows
    to an infinity from [2^128 - 2^103] on; no rational stands for that,
    and the function is only applied to quotients [x / m] with
    [|x| <= m] and to products [x * 32767]. *)
Definition round32 (q : Q) : Q :=
  let e := ulp_exponent q in
  Qred (inject_Z (round_half_even (q * 2 ^ (- e))%Q) * 2 ^ e)%Q.

(** The rational that a finite binary32 number of the Standard Library's
    specification stands for. *)
Definition b32_value (x : spec_float) : Q :=
  match x with
  | S754_finite s m e =>
      ((if s then inject_Z (Zneg m) else inject_Z (Zpos m)) * 2 ^ e)%Q
  | _ => 0%Q
  end.

(** Whether [round32] gives, for the quotient and for the product of
    two binary32 numbers, what the Standard Library's specification of
    the IEEE operations gives at [prec = 24], [emax = 128]; and a family
    of 24-bit mantissas to try it on. *)
Definition agrees (x y : spec_float) : bool :=
  Qeq_bool (b32_value (SFdiv 24 128 x y)) (round32 (b32_value x / b32_value y))
  && Qeq_bool (b32_value (SFmul 24 128 x y))
              (round32 (b32_value x * b32_value y)).

Definition mantissa (k : nat) : positive :=
  Z.to_pos (8388608 + (Z.of_nat k * 7919 + 13) mod 8388608).

End Binary32.

(** ** The music generator *)

Module Generator.
Import Text Binary32.

Definition target_sample_rate : nat := Z.to_nat 44100.

(** One entry of [audio_files] in the extraction data.  The two fields
    read with [.get] may be missing. *)
Record audio_entry : Type := {
  filename : string;
  sequence_position : option nat;
  file_type : option string
}.

(** One entry of [extraction_data['files']]. *)
Record level_record : Type := {
  level_name : string;
  audio_count : nat;
  level_title : option string;
  audio_files : list audio_entry
}.

(** [get_level_info]; [None] for the data stands for a dictionary
    without the key [files]. *)
Definition get_level_info (extraction_data : option (list level_record))
    (level_filename : string) : option level_record :=
  match extraction_data with
  | None => None
  | Some files =>
      List.find (fun file_info =>
                   String.eqb (upper (level_name file_info)) (upper level_filename))
                files
  end.

(** [x.get('sequence_position', 0)] *)
Definition sort_key (x : audio_entry) : nat := default O (sequence_position x).

(** Order of two entries by their keys (used to state what sorting gives). *)
Definition key_le (a b : audio_entry) : Prop := sort_key a <= sort_key b.
Definition key_lt (a b : audio_entry) : Prop := (sort_key a < sort_key b)%nat.

(** [sorted(..., key=...)]: the stable ordering by the key. *)
Fixpoint insert_by_key (x : audio_entry) (l : list audio_entry) : list audio_entry :=
  match l with
  | [] => [x]
  | y :: l' => if (sort_key x <=? sort_key y)%nat then x :: l else y :: insert_by_key x l'
  end.

Fixpoint sorted_by_key (l : list audio_entry) : list audio_entry :=
  match l with
  | [] => []
  | x :: l' => insert_by_key x (sorted_by_key l')
  end.

(** An element of [audio_clips]:
    [(filename, audio_data, clip_duration, seq_pos)]. *)
Record clip : Type := {
  clip_filename : string;
  audio_data : list Q;
  clip_duration : Q;
  seq_pos : option nat
}.

Definition make_clip (name : string) (data : list Q) (pos : option nat) : clip :=
  {| clip_filename := name;
     audio_data := data;
     clip_duration := (inject_Z (Z.of_nat (length data))
                       / inject_Z (Z.of_nat target_sample_rate))%Q;
     seq_pos := pos |}.

(** [np.max(np.abs(buffer))] and the normalisation step, over the
    arithmetic of the samples: [abs], the test [x < y], the division and
    the constant 1.  An empty array has no maximum and the call raises. *)
Section SampleArithmetic.
Context {T : Type}.
Variables (abs : T -> T) (ltb : T -> T -> bool) (div : T -> T -> T) (one : T).

Definition np_max_by (l : list T) : option T :=
  match l with
  | [] => None
  | x :: rest => Some (fold_left (fun m y => if ltb m y then y else m) rest x)
  end.

Definition max_abs_by (music_buffer : list T) : option T :=
  np_max_by (map abs music_buffer).

Definition normalize_by (music_buffer : list T) (max_amplitude : T) : list T :=
  if ltb one max_amplitude then map (fun x => div x max_amplitude) music_buffer
  else music_buffer.

End SampleArithmetic.

(** The step on samples. *)
Definition Qltb (x y : Q) : bool := negb (Qle_bool y x).

Definition np_max (l : list Q) : option Q := np_max_by Qltb l.

Definition max_abs (music_buffer : list Q) : option Q :=
  max_abs_by Qabs Qltb music_buffer.

(** [x / y] and [x * y] on [float32] values. *)
Definition float32_div (x y : Q) : Q := round32 (x / y)%Q.

Definition float32_mul (x y : Q) : Q := round32 (x * y)%Q.

Definition normalize (music_buffer : list Q) (max_amplitude : Q) : list Q :=
  normalize_by Qltb float32_div 1%Q music_buffer max_amplitude.

(** The same step on IEEE binary32 samples ([np.float32]), with the
    correctly rounded division. *)
Definition b32_div (x y : spec_float) : spec_float := SFdiv 24 128 x y.

Definition b32_one : spec_float := S754_finite false 8388608 (-23).

Definition max_abs_b32 (music_buffer : list spec_float) : option spec_float :=
  max_abs_by SFabs SFltb music_buffer.

Definition normalize_b32 (music_buffer : list spec_float)
    (max_amplitude : spec_float) : list spec_float :=
  normalize_by SFltb b32_div b32_one music_buffer max_amplitude.

(** [buffer[start:stop] = src] for a slice inside the buffer and a source
    of the same length. *)
Definition slice_assign (music_buffer : list Q) (start stop : nat) (src : list Q)
  : list Q :=
  firstn start music_buffer ++ src ++ skipn stop music_buffer.

(** One pass of the [for] loop over the clips, with its two [break]s. *)
Fixpoint fill_pass (clips : list clip) (target_samples : nat)
    (music_buffer : list Q) (current_pos : nat) : list Q * nat :=
  match clips with
  | [] => (music_buffer, current_pos)
  | c :: rest =>
      if (target_samples <=? current_pos)%nat then (music_buffer, current_pos)
      else
        let remaining_samples := target_samples - current_pos in
        let samples_to_copy := Nat.min (length (audio_data c)) remaining_samples in
        let music_buffer :=
          slice_assign music_buffer current_pos (current_pos + samples_to_copy)
                       (firstn samples_to_copy (audio_data c)) in
        let current_pos := current_pos + samples_to_copy in
        if (samples_to_copy <? length (audio_data c))%nat
        then (music_buffer, current_pos)
        else fill_pass rest target_samples music_buffer current_pos
  end.

(** The [while current_pos < target_samples] loop; one unit of fuel per
    pass; [None] when the fuel is used up with the condition still true. *)
Fixpoint fill_while (fuel : nat) (clips : list clip) (target_samples : nat)
    (music_buffer : list Q) (current_pos : nat) : option (list Q * nat) :=
  if (target_samples <=? current_pos)%nat then Some (music_buffer, current_pos)
  else
    match fuel with
    | O => None
    | S fuel' =>
        let '(music_buffer, current_pos) :=
          fill_pass clips target_samples music_buffer current_pos in
        fill_while fuel' clips target_samples music_buffer current_pos
    end.

(** The samples of one pass through the clip list, and of [k] passes
    in a row (used to state what the fill loop writes). *)
Definition one_pass (clips : list clip) : list Q := concat (map audio_data clips).

Definition passes (k : nat) (clips : list clip) : list Q :=
  concat (repeat (one_pass clips) k).

(** [generate_level_music] from [if not audio_clips] on: buffer, fill,
    normalise.  [target_samples] is [int(duration_seconds * 44100)]. *)
Definition render (fuel : nat) (audio_clips : list clip) (target_samples : Z)
  : outcome (option (list Q)) :=
  match audio_clips with
  | [] => Returns None
  | _ :: _ =>
      if (target_samples <? 0)%Z then Raises "ValueError: negative dimensions are not allowed"
      else
        let target := Z.to_nat target_samples in
        match fill_while fuel audio_clips target (repeat 0%Q target) O with
        | None => Diverges
        | Some (music_buffer, _) =>
            match max_abs music_buffer with
            | None => Raises "ValueError: zero-size array to reduction operation maximum"
            | Some max_amplitude => Returns (Some (normalize music_buffer max_amplitude))
            end
        end
  end.

Section WithSampleFiles.

(** [load_audio_file]: what decoding the sample file of that name
    gives, [None] when the file is missing or cannot be decoded. *)
Variable load_audio_file : string -> option (list Q).

(** The loader loop over the sorted entries. *)
Fixpoint load_clips (audio_files_sorted : list audio_entry) : list clip :=
  match audio_files_sorted with
  | [] => []
  | audio_info :: rest =>
      if bool_decide (file_type audio_info = Some "silence") then load_clips rest
      else
        match load_audio_file (filename audio_info) with
        | Some data =>
            make_clip (filename audio_info) data (sequence_position audio_info)
            :: load_clips rest
        | None => load_clips rest
        end
  end.

(** [generate_level_music] once the level record is found. *)
Definition generate_for_level (fuel : nat) (level_info : level_record)
    (target_samples : Z) : outcome (option (list Q)) :=
  if (audio_count level_info =? 0)%nat then Returns None
  else
    let audio_files_sorted := sorted_by_key (audio_files level_info) in
    render fuel (load_clips audio_files_sorted) target_samples.

Definition generate_level_music (fuel : nat)
    (extraction_data : option (list level_record)) (level_filename : string)
    (target_samples : Z) : outcome (option (list Q)) :=
  match get_level_info extraction_data level_filename with
  | None => Returns None
  | Some level_info => generate_for_level fuel level_info target_samples
  end.

End WithSampleFiles.

(** *** The decoder *)

(** A sample file as [wave.open] presents it: [getnchannels],
    [getsampwidth], [getframerate] and the bytes of [readframes]. *)
Record wav_file : Type := {
  channels : nat;
  sampwidth : nat;
  framerate : nat;
  frames : list byte
}.

(** What the sample directory holds under a name: nothing, a file that
    [wave.open] refuses, or a wave file. *)
Inductive sample_file : Type :=
| NoSuchFile
| NotAWave
| Wave (w : wav_file).

(** [np.frombuffer(frames, dtype=np.uint8)] *)
Definition uint8_of_bytes (data : list byte) : list Z :=
  map (fun b => Z.of_N (Byte.to_N b)) data.

(** [np.frombuffer(frames, dtype=np.int16)]: two bytes per value, low
    byte first, two's complement; a buffer of odd size raises. *)
Definition signed16 (lo hi : byte) : Z :=
  let u := (Z.of_N (Byte.to_N lo) + 256 * Z.of_N (Byte.to_N hi))%Z in
  if (u <? 32768)%Z then u else (u - 65536)%Z.

Fixpoint int16_of_bytes (data : list byte) : option (list Z) :=
  match data with
  | [] => Some []
  | [_] => None
  | lo :: hi :: rest => option_map (cons (signed16 lo hi)) (int16_of_bytes rest)
  end.

(** [np.mean(a.reshape(-1, 2), axis=1)]: the mean of each pair of
    values; an odd number of values cannot be reshaped and raises. *)
Fixpoint mean_pairs (values : list Z) : option (list Q) :=
  match values with
  | [] => Some []
  | [_] => None
  | a :: b :: rest =>
      option_map (cons ((inject_Z a + inject_Z b) / 2)%Q) (mean_pairs rest)
  end.

(** The four supported formats, in the order the source tests them;
    [None] stands for the unsupported format and for an exception. *)
Definition decode_frames (w : wav_file) : option (list Q) :=
  if ((sampwidth w =? 1) && (channels w =? 2))%nat then
    option_map (map (fun m => ((m - 128) / 128)%Q))
               (mean_pairs (uint8_of_bytes (frames w)))
  else if ((sampwidth w =? 2) && (channels w =? 2))%nat then
    match int16_of_bytes (frames w) with
    | Some audio_data =>
        option_map (map (fun m => (m / 32768)%Q)) (mean_pairs audio_data)
    | None => None
    end
  else if ((sampwidth w =? 2) && (channels w =? 1))%nat then
    option_map (map (fun x => (inject_Z x / 32768)%Q)) (int16_of_bytes (frames w))
  else if ((sampwidth w =? 1) && (channels w =? 1))%nat then
    Some (map (fun x => ((inject_Z x - 128) / 128)%Q) (uint8_of_bytes (frames w)))
  else None.

(** [np.repeat(a, k)] and [a[::k]] *)
Definition np_repeat (k : nat) (a : list Q) : list Q :=
  flat_map (fun x => repeat x k) a.

Fixpoint every_kth (k skip : nat) (a : list Q) : list Q :=
  match a with
  | [] => []
  | x :: rest =>
      match skip with
      | O => x :: every_kth k (k - 1) rest
      | S j => every_kth k j rest
      end
  end.

Definition stride (k : nat) (a : list Q) : list Q := every_kth k 0 a.

(** The resampling step; a frame rate of zero makes the integer division
    raise. *)
Definition resample (rate : nat) (audio_float : list Q) : option (list Q) :=
  if (rate =? target_sample_rate)%nat then Some audio_float
  else if (rate <? target_sample_rate)%nat then
    if (rate =? 0)%nat then None
    else Some (np_repeat (target_sample_rate / rate) audio_float)
  else Some (stride (rate / target_sample_rate) audio_float).

(** [load_audio_file] over a sample directory. *)
Definition load_audio_file_from (rloops : string -> sample_file) (name : string)
  : option (list Q) :=
  match rloops name with
  | NoSuchFile => None
  | NotAWave => None
  | Wave w =>
      match decode_frames w with
      | Some audio_float => resample (framerate w) audio_float
      | None => None
      end
  end.

(** [save_music]: [(audio_data * 32767).astype(np.int16)].  The
    product is a [float32] product; the cast drops the fraction and keeps
    the low 16 bits. *)
Definition Qtrunc (x : Q) : Z := (Qnum x ÷ Z.pos (Qden x))%Z.

Definition wrap_int16 (z : Z) : Z := ((z + 32768) mod 65536 - 32768)%Z.

Definition to_int16 (audio : list Q) : list Z :=
  map (fun x => wrap_int16 (Qtrunc (float32_mul x 32767))) audio.

End Generator.

(** * Properties *)

(** ** Availability check *)

Section Resolver.
Import Extractor Unicode Inventory.

Lemma fallback_applies_spec (name : str) :
  fallback_applies name = true <->
  (4 < length name)%nat /\ exists d rest, name = d :: rest /\ isdigit d = true.
Proof.
  unfold fallback_applies. rewrite andb_true_iff, Nat.ltb_lt.
  split.
  - intros [Hlen Hd]. split; [exact Hlen|].
    destruct name as [|d rest]; [discriminate|]. eauto.
  - intros [Hlen (d & rest & -> & Hd)]. split; assumption.
Qed.

(** Below 128 the digits of [str.isdigit] are the ten ASCII digits. *)
Lemma isdigit_ascii (c : N) :
  (c < 128)%N -> isdigit c = true <-> (48 <= c <= 57)%N.
Proof.
  intros Hc.
  assert (Hall : forallb (fun n => Bool.eqb (isdigit (N.of_nat n))
                                            ((48 <=? N.of_nat n)%N
                                             && (N.of_nat n <=? 57)%N))
                         (seq 0 128) = true)
    by (vm_compute; reflexivity).
  rewrite forallb_forall in Hall.
  specialize (Hall (N.to_nat c)). rewrite N2Nat.id in Hall.
  assert (Hin : In (N.to_nat c) (seq 0 128)) by (apply in_seq; lia).
  apply Hall, Bool.eqb_prop in Hin. rewrite Hin.
  rewrite andb_true_iff, !N.leb_le. reflexivity.
Qed.

(** C6.  The availability check, for every name and inventory: an exact
    match on the upper-cased name is found under that name; failing that,
    a name longer than four characters whose first character is a digit
    for [str.isdigit] is retried once with that one character removed, and
    a hit is reported under the shortened name; in every other case the
    answer is not found, with the zero metadata.  Among the characters
    below 128 the digits are the ten ASCII digits.  So [6970RHYTH.WAV]
    resolves to [970RHYTH.WAV] when only the latter is in the inventory,
    and to nothing when neither is.  The extractor's variant over a set
    of names gives the same flag and alias. *)
Theorem check_audio_file_exists_cases
    (inv : gmap str metadata) (name : str) :
  (forall md, inv !! upper name = Some md ->
     _check_audio_file_exists inv name = (true, Some (upper name), md))
  /\ (forall d rest md,
        name = d :: rest -> (4 < length name)%nat -> isdigit d = true ->
        inv !! upper name = None -> inv !! upper rest = Some md ->
        _check_audio_file_exists inv name = (true, Some (upper rest), md))
  /\ (inv !! upper name = None ->
      ~ ((4 < length name)%nat /\
         exists d rest, name = d :: rest /\ isdigit d = true)
      \/ inv !! upper (skipn 1 name) = None ->
      _check_audio_file_exists inv name = (false, None, zero_metadata))
  /\ (forall c, (c < 128)%N -> isdigit c = true <-> (48 <= c <= 57)%N)
  /\ (forall md,
        inv !! of_string "970RHYTH.WAV" = Some md ->
        inv !! of_string "6970RHYTH.WAV" = None ->
        _check_audio_file_exists inv (of_string "6970RHYTH.WAV")
        = (true, Some (of_string "970RHYTH.WAV"), md))
  /\ (inv !! of_string "970RHYTH.WAV" = None ->
      inv !! of_string "6970RHYTH.WAV" = None ->
      _check_audio_file_exists inv (of_string "6970RHYTH.WAV")
      = (false, None, zero_metadata))
  /\ _check_audio_file_exists_set (dom inv) name
     = fst (_check_audio_file_exists inv name).
Proof.
  split; [|split; [|split; [|split; [exact isdigit_ascii|split; [|split]]]]].
  - intros md H. unfold _check_audio_file_exists. rewrite H. reflexivity.
  - intros d rest md -> Hlen Hd Hn Hr. unfold _check_audio_file_exists.
    rewrite Hn.
    assert (Hf : fallback_applies (d :: rest) = true)
      by (apply fallback_applies_spec; eauto).
    rewrite Hf. change (skipn 1 (d :: rest)) with rest. cbv zeta.
    rewrite Hr. reflexivity.
  - intros Hn Hor. unfold _check_audio_file_exists. rewrite Hn.
    destruct (fallback_applies name) eqn:Hf; [|reflexivity].
    destruct Hor as [Hno | Hr].
    + exfalso. apply Hno. apply fallback_applies_spec. exact Hf.
    + rewrite Hr. reflexivity.
  - intros md Hr Hn. unfold _check_audio_file_exists.
    replace (upper (of_string "6970RHYTH.WAV")) with (of_string "6970RHYTH.WAV")
      by (vm_compute; reflexivity).
    rewrite Hn.
    replace (fallback_applies (of_string "6970RHYTH.WAV")) with true
      by (vm_compute; reflexivity).
    replace (upper (skipn 1 (of_string "6970RHYTH.WAV")))
      with (of_string "970RHYTH.WAV") by (vm_compute; reflexivity).
    rewrite Hr. reflexivity.
  - intros Hr Hn. unfold _check_audio_file_exists.
    replace (upper (of_string "6970RHYTH.WAV")) with (of_string "6970RHYTH.WAV")
      by (vm_compute; reflexivity).
    rewrite Hn.
    replace (fallback_applies (of_string "6970RHYTH.WAV")) with true
      by (vm_compute; reflexivity).
    replace (upper (skipn 1 (of_string "6970RHYTH.WAV")))
      with (of_string "970RHYTH.WAV") by (vm_compute; reflexivity).
    rewrite Hr. reflexivity.
  - unfold _check_audio_file_exists_set, _check_audio_file_exists.
    destruct (inv !! upper name) as [md|] eqn:Hn.
    + rewrite bool_decide_eq_true_2; [reflexivity|].
      apply elem_of_dom. eauto.
    + rewrite bool_decide_eq_false_2
        by (rewrite elem_of_dom, Hn; intros [? ?]; discriminate).
      destruct (fallback_applies name); [|reflexivity].
      cbv zeta.
      destruct (inv !! upper (skipn 1 name)) as [md|] eqn:Hr.
      * rewrite bool_decide_eq_true_2; [reflexivity|].
        apply elem_of_dom. eauto.
      * rewrite bool_decide_eq_false_2; [reflexivity|].
        rewrite elem_of_dom, Hr. intros [? ?]; discriminate.
Qed.

Lemma check_audio_file_exists_cases_witness :
  _check_audio_file_exists
    {[ of_string "970RHYTH.WAV" := {| duration := (3 # 2)%Q; size_kb := 129%N |} ]}
    (of_string "6970rhyth.wav")
  = (true, Some (upper (of_string "970rhyth.wav")),
     {| duration := (3 # 2)%Q; size_kb := 129%N |}).
Proof.
  apply (proj1 (proj2 (check_audio_file_exists_cases
                         {[ of_string "970RHYTH.WAV" :=
                              {| duration := (3 # 2)%Q; size_kb := 129%N |} ]}
                         (of_string "6970rhyth.wav")))
           54%N (of_string "970rhyth.wav")).
  - reflexivity.
  - simpl; lia.
  - vm_compute. reflexivity.
  - vm_compute. reflexivity.
  - vm_compute. reflexivity.
Defined.

(** The check as the specification words it does not hold: a name that
    starts with the superscript two (U+00B2), which is a digit for
    [str.isdigit] and no ASCII digit, and whose upper-cased text is not in
    the inventory, is found all the same, under the name without that
    character. *)
Lemma superscript_digit_is_stripped :
  ({[ of_string "970RHYTH.WAV" :=
        {| duration := (3 # 2)%Q; size_kb := 129%N |} ]} : gmap str metadata)
    !! upper (178%N :: of_string "970RHYTH.WAV") = None
  /\ ((48 <=? 178)%N && (178 <=? 57)%N = false)
  /\ (4 < length (178%N :: of_string "970RHYTH.WAV"))%nat
  /\ _check_audio_file_exists
       {[ of_string "970RHYTH.WAV" :=
            {| duration := (3 # 2)%Q; size_kb := 129%N |} ]}
       (178%N :: of_string "970RHYTH.WAV")
     = (true, Some (of_string "970RHYTH.WAV"),
        {| duration := (3 # 2)%Q; size_kb := 129%N |})
  /\ _check_audio_file_exists
       {[ of_string "970RHYTH.WAV" :=
            {| duration := (3 # 2)%Q; size_kb := 129%N |} ]}
       (178%N :: of_string "970RHYTH.WAV")
     <> (false, None, zero_metadata).
Proof.
  assert (E : _check_audio_file_exists
                {[ of_string "970RHYTH.WAV" :=
                     {| duration := (3 # 2)%Q; size_kb := 129%N |} ]}
                (178%N :: of_string "970RHYTH.WAV")
              = (true, Some (of_string "970RHYTH.WAV"),
                 {| duration := (3 # 2)%Q; size_kb := 129%N |}))
    by (vm_compute; reflexivity).
  split; [vm_compute; reflexivity|]. split; [reflexivity|].
  split; [simpl; lia|]. split; [exact E|].
  rewrite E. discriminate.
Qed.

(** What [str.upper] does at characters that are not ASCII: one code
    point or several. *)
Example upper_examples :
  upper (of_string "6970rhyth.wav") = of_string "6970RHYTH.WAV"
  /\ upper [223; 255; 181; 233; 329; 64259; 178]%N
     = [83; 83; 376; 924; 201; 700; 78; 70; 70; 73; 178]%N
  /\ map isdigit [48; 57; 58; 178; 179; 185; 188; 1632; 8320; 65296]%N
     = [true; true; false; true; true; true; false; true; true; true].
Proof. vm_compute. repeat split. Qed.

End Resolver.

(** ** Level parser *)

Section Parser.
Import Text Extractor.

Lemma bytes_eqb_eq (a b : list byte) : bytes_eqb a b = true <-> a = b.
Proof.
  revert b. induction a as [|x a IH]; intros [|y b]; simpl; try easy.
  rewrite andb_true_iff, IH. split.
  - intros [Hxy ->]. apply Byte.byte_dec_bl in Hxy. congruence.
  - intros [= -> ->]. split; [apply Byte.byte_dec_lb|]; reflexivity.
Qed.

Lemma bad_header_spec (file_data : list byte) :
  bad_header file_data = true <->
  (length file_data < 8)%nat \/ firstn 4 file_data <> ELVD.
Proof.
  unfold bad_header. rewrite orb_true_iff, Nat.ltb_lt, negb_true_iff.
  rewrite <- bytes_eqb_eq.
  destruct (bytes_eqb (firstn 4 file_data) ELVD); intuition congruence.
Qed.

(** C7.  The parser is a total function of what the file system
    answers, and each failure ends in a record that carries a message:
    a missing file, a content shorter than 8 bytes or without the magic
    tag, and an exception raised while the file is read all give
    [parse_success = false], an error message and no audio entry; and
    in every case the record fails exactly when it carries a message. *)
Theorem parse_elv_file_captures_failures
    (available : gset string) (now path : string) (fs : file_read) :
  let r := parse_elv_file available now path fs in
  (fs = NotFound ->
     error_message r = Some ("File not found: " +:+ path)
     /\ audio_files r = [] /\ parse_success r = false)
  /\ (forall file_data,
        fs = Contents file_data ->
        (length file_data < 8)%nat \/ firstn 4 file_data <> ELVD ->
        error_message r = Some "Invalid ELVD header"
        /\ audio_files r = [] /\ parse_success r = false)
  /\ (forall size msg,
        fs = Unreadable size msg ->
        error_message r = Some ("Parse error: " +:+ msg)
        /\ audio_files r = [] /\ parse_success r = false)
  /\ (parse_success r = false <-> error_message r <> None).
Proof.
  cbv zeta. repeat split.
  - subst fs. reflexivity.
  - subst fs. reflexivity.
  - subst fs. reflexivity.
  - subst fs. cbn. unfold parse_contents.
    rewrite (proj2 (bad_header_spec file_data)) by assumption. reflexivity.
  - subst fs. cbn. unfold parse_contents.
    rewrite (proj2 (bad_header_spec file_data)) by assumption. reflexivity.
  - subst fs. cbn. unfold parse_contents.
    rewrite (proj2 (bad_header_spec file_data)) by assumption. reflexivity.
  - subst fs. destruct size; reflexivity.
  - subst fs. destruct size; reflexivity.
  - subst fs. destruct size; reflexivity.
  - destruct fs as [|size msg|file_data]; try (destruct size); cbn; try discriminate.
    unfold parse_contents.
    destruct (bad_header file_data); cbn; [discriminate|].
    destruct (extract_level_title file_data); cbn; discriminate.
  - destruct fs as [|size msg|file_data]; try (destruct size); cbn; try reflexivity.
    unfold parse_contents.
    destruct (bad_header file_data); cbn; [reflexivity|].
    destruct (extract_level_title file_data); cbn; intros H; exfalso; apply H; reflexivity.
Qed.

Lemma parse_elv_file_captures_failures_witness :
  let r := parse_elv_file ∅ "2024-01-01T00:00:00" "ELVRL/SHORT.ELV"
                          (Contents [x45; x4c; x56; x44; x01]) in
  error_message r = Some "Invalid ELVD header"
  /\ audio_files r = [] /\ parse_success r = false.
Proof.
  apply (proj1 (proj2 (parse_elv_file_captures_failures
                         ∅ "2024-01-01T00:00:00" "ELVRL/SHORT.ELV"
                         (Contents [x45; x4c; x56; x44; x01])))
           [x45; x4c; x56; x44; x01]).
  - reflexivity.
  - left. simpl. lia.
Defined.

Lemma str_forallb_filter (f : ascii -> bool) (s : string) :
  str_forallb f (str_filter f s) = true.
Proof.
  induction s as [|c s IH]; simpl; [reflexivity|].
  destruct (f c) eqn:Hc; simpl; [rewrite Hc|]; exact IH.
Qed.

Lemma str_forallb_lstrip (f : ascii -> bool) (s : string) :
  str_forallb f s = true -> str_forallb f (lstrip s) = true.
Proof.
  induction s as [|c s IH]; simpl; [easy|].
  intros H. destruct (isspace c); [|exact H].
  apply andb_true_iff in H. apply IH, H.
Qed.

Lemma str_forallb_rstrip (f : ascii -> bool) (s : string) :
  str_forallb f s = true -> str_forallb f (rstrip s) = true.
Proof.
  induction s as [|c s IH]; simpl; [easy|].
  intros H. apply andb_true_iff in H. destruct H as [Hc Hs].
  specialize (IH Hs).
  destruct (rstrip s) as [|c' r].
  - destruct (isspace c); simpl; [reflexivity|]. rewrite Hc. reflexivity.
  - change (f c && str_forallb f (String c' r) = true). rewrite Hc. exact IH.
Qed.

Lemma str_forallb_take (f : ascii -> bool) (n : nat) (s : string) :
  str_forallb f s = true -> str_forallb f (str_take n s) = true.
Proof.
  revert s. induction n as [|n IH]; intros [|c s]; simpl; try easy.
  intros H. apply andb_true_iff in H. destruct H as [-> Hs]. apply IH, Hs.
Qed.

Lemma length_str_take (n : nat) (s : string) :
  String.length (str_take n s) = Nat.min n (String.length s).
Proof.
  revert s. induction n as [|n IH]; intros [|c s]; simpl; try reflexivity.
  rewrite IH. reflexivity.
Qed.

Lemma clean_line_printable (line : string) :
  str_forallb isprintable (clean_line line) = true.
Proof.
  unfold clean_line, strip.
  apply str_forallb_rstrip, str_forallb_lstrip, str_forallb_filter.
Qed.

Lemma title_candidate_spec (clean : string) :
  title_candidate clean = true <->
  (10 < String.length clean)%nat /\ endswith clean ".lbm" = false.
Proof.
  unfold title_candidate.
  rewrite andb_true_iff, Nat.ltb_lt, negb_true_iff. reflexivity.
Qed.

Lemma first_title_Some (lines : list string) (t : string) :
  first_title lines = Some t <->
  exists before line after,
    lines = before ++ line :: after
    /\ Forall (fun l => title_candidate (clean_line l) = false) before
    /\ title_candidate (clean_line line) = true
    /\ t = str_take 50 (clean_line line).
Proof.
  induction lines as [|l lines IH]; simpl.
  - split; [discriminate|].
    intros (before & line & after & H & _). destruct before; discriminate.
  - destruct (title_candidate (clean_line l)) eqn:Hl.
    + split.
      * intros [= <-]. exists [], l, lines. repeat split; auto.
      * intros (before & line & after & H & Hb & Hc & ->).
        destruct before as [|b before]; simpl in H; injection H as -> ->.
        -- reflexivity.
        -- inversion Hb; subst. congruence.
    + rewrite IH. split.
      * intros (before & line & after & -> & Hb & Hc & ->).
        exists (l :: before), line, after. repeat split; auto.
      * intros (before & line & after & H & Hb & Hc & ->).
        destruct before as [|b before]; simpl in H; injection H as -> ->.
        -- congruence.
        -- inversion Hb; subst. exists before, line, after. repeat split; auto.
Qed.

Lemma first_title_None (lines : list string) :
  first_title lines = None <->
  Forall (fun l => title_candidate (clean_line l) = false) lines.
Proof.
  induction lines as [|l lines IH]; simpl.
  - split; auto.
  - destruct (title_candidate (clean_line l)) eqn:Hl.
    + split; [discriminate|]. intros H. inversion H; subst. congruence.
    + rewrite IH. split; intros H.
      * constructor; assumption.
      * inversion H; assumption.
Qed.

(** C5 (as the code has it).  The title comes from the first
    null-delimited line of the decoded bytes after the 8-byte header
    whose cleaned text (the line without its non-printable characters,
    then without surrounding white space) is longer than 10 characters
    and does not end with [.lbm]; the title is that cleaned text cut to
    50 characters, so it is printable and 11 to 50 characters long; when
    no line has such a cleaned text there is no title. *)
Theorem extract_level_title_first_clean_line (file_data : list byte) :
  (forall t,
     extract_level_title file_data = Some t <->
     exists before line after,
       title_lines file_data = before ++ line :: after
       /\ Forall (fun l => title_candidate (clean_line l) = false) before
       /\ ((10 < String.length (clean_line line))%nat
           /\ endswith (clean_line line) ".lbm" = false)
       /\ t = str_take 50 (clean_line line))
  /\ (extract_level_title file_data = None <->
      Forall (fun l => title_candidate (clean_line l) = false)
             (title_lines file_data))
  /\ (forall t,
        extract_level_title file_data = Some t ->
        str_forallb isprintable t = true
        /\ (10 < String.length t <= 50)%nat).
Proof.
  unfold extract_level_title. split; [|split].
  - intros t. rewrite first_title_Some.
    split; intros (before & line & after & H1 & H2 & H3 & H4);
      exists before, line, after; repeat split; auto;
      try (apply title_candidate_spec in H3; apply H3);
      try (apply title_candidate_spec; exact H3).
  - apply first_title_None.
  - intros t Ht. apply first_title_Some in Ht.
    destruct Ht as (before & line & after & _ & _ & Hc & ->).
    apply title_candidate_spec in Hc. destruct Hc as [Hlen _].
    split.
    + apply str_forallb_take, clean_line_printable.
    + rewrite length_str_take. lia.
Qed.

Lemma extract_level_title_first_clean_line_witness :
  str_forallb isprintable "Hello World!" = true
  /\ (10 < String.length "Hello World!" <= 50)%nat.
Proof.
  apply (proj2 (proj2 (extract_level_title_first_clean_line
                         (list_byte_of_string "ELVD" ++ [x03; x00; x00; x00; x01]
                          ++ list_byte_of_string "  Hello World!  ")))).
  vm_compute. reflexivity.
Defined.

(** C5 as the specification words it fails: a line with a control
    character in front of the text is not made of printable characters
    only, so no fragment qualifies, and yet the parser takes its title
    from it; and a line padded with blanks qualifies as it stands, but
    the parser drops the blanks. *)
Lemma title_as_specified_differs :
  (extract_level_title
     (list_byte_of_string "ELVD" ++ [x03; x00; x00; x00; x01]
      ++ list_byte_of_string "Hello World!")
   = Some "Hello World!"
   /\ title_as_specified
        (list_byte_of_string "ELVD" ++ [x03; x00; x00; x00; x01]
         ++ list_byte_of_string "Hello World!")
      = None)
  /\ (extract_level_title
        (list_byte_of_string "ELVD" ++ [x03; x00; x00; x00]
         ++ list_byte_of_string "  Hello World!  ")
      = Some "Hello World!"
      /\ title_as_specified
           (list_byte_of_string "ELVD" ++ [x03; x00; x00; x00]
            ++ list_byte_of_string "  Hello World!  ")
         = Some "  Hello World!  ").
Proof. vm_compute. repeat split. Qed.

(** C1 (the code at the failing input).  A byte of 128 or more in
    front of a token is dropped by the decoder, and the recorded
    position is the index in the decoded text: the token that starts at
    byte 1 of the blob is recorded at offset 0, where the blob holds the
    byte [0xff]; and a token with such a byte in its middle is recorded
    as if the byte were not there. *)
Theorem scan_offset_shifted_by_dropped_byte :
  all_matches (decode_ascii_ignore (xff :: list_byte_of_string "1RHYTH.WAV"))
  = [("1RHYTH.WAV", 0%nat); ("1RHYTH.WAV", 0%nat)]
  /\ _extract_audio_sequence_from_data (xff :: list_byte_of_string "1RHYTH.WAV")
     = [("1RHYTH.WAV", 0%nat)]
  /\ nth 0 (xff :: list_byte_of_string "1RHYTH.WAV") x00 = xff
  /\ string_of_list_byte
       (firstn 10 (skipn 1 (xff :: list_byte_of_string "1RHYTH.WAV")))
     = "1RHYTH.WAV"
  /\ _extract_audio_sequence_from_data
       (list_byte_of_string "1RHY" ++ [x80] ++ list_byte_of_string "TH.WAV")
     = [("1RHYTH.WAV", 0%nat)].
Proof. vm_compute. repeat split. Qed.

(** On a blob without a byte of 128 or more the decoded text is the blob
    itself, character for byte, and a recorded position is then a byte
    offset. *)
Lemma decode_ascii_ignore_of_ascii (data : list byte) :
  forallb is_ascii_byte data = true ->
  decode_ascii_ignore data = string_of_list_byte data.
Proof.
  intros H. unfold decode_ascii_ignore. f_equal.
  induction data as [|b data IH]; [reflexivity|].
  cbn [forallb] in H. apply andb_true_iff in H. destruct H as [Hb Hrest].
  cbn [List.filter]. rewrite Hb, IH by exact Hrest. reflexivity.
Qed.

End Parser.

(** ** The fill loop *)

Section Fill.
Import Generator.

Lemma take_take_app (n : nat) (X Y : list Q) :
  firstn n (firstn n X ++ Y) = firstn n (X ++ Y).
Proof.
  destruct (Nat.le_gt_cases n (length X)) as [Hle | Hgt].
  - rewrite !take_app_le by (rewrite ?length_take; lia).
    rewrite take_take. f_equal. lia.
  - rewrite (take_ge X) by lia. reflexivity.
Qed.

(** One pass over the clips, started with [W] written and [R] still to
    write: the written part grows by the clips' samples, cut at the
    buffer's end. *)
Lemma fill_pass_spec (clips : list clip) (target : nat) :
  forall W R : list Q,
    length W + length R = target ->
    fill_pass clips target (W ++ R) (length W)
    = (firstn target (W ++ one_pass clips)
         ++ skipn (length (firstn target (W ++ one_pass clips)) - length W) R,
       length (firstn target (W ++ one_pass clips))).
Proof.
  induction clips as [|c rest IH]; intros W R Hlen.
  - cbn [fill_pass one_pass map concat]. rewrite app_nil_r.
    rewrite take_ge by lia. rewrite Nat.sub_diag. reflexivity.
  - cbn [fill_pass].
    destruct (Nat.leb_spec target (length W)) as [Hfull | Hroom].
    + assert (HR : R = []) by (apply length_zero_iff_nil; lia). subst R.
      rewrite (take_app_le W) by lia. rewrite (take_ge W) by lia.
      rewrite Nat.sub_diag. reflexivity.
    + cbv zeta. unfold slice_assign.
      rewrite take_app_length.
      rewrite drop_app_ge by lia.
      replace (length W + Nat.min (length (audio_data c)) (target - length W)
               - length W)
        with (Nat.min (length (audio_data c)) (target - length W)) by lia.
      unfold one_pass. cbn [map concat]. fold (one_pass rest).
      destruct (Nat.ltb_spec (Nat.min (length (audio_data c)) (target - length W))
                             (length (audio_data c))) as [Hcut | Hwhole].
      * assert (Hn : Nat.min (length (audio_data c)) (target - length W)
                     = target - length W) by lia.
        rewrite Hn.
        rewrite (take_app_ge W) by lia.
        rewrite (take_app_le (audio_data c)) by lia.
        rewrite !length_app, length_take.
        rewrite (drop_ge R) by lia.
        rewrite (drop_ge R) by lia.
        rewrite !app_nil_r. f_equal. lia.
      * assert (Hn : Nat.min (length (audio_data c)) (target - length W)
                     = length (audio_data c)) by lia.
        rewrite Hn. rewrite (take_ge (audio_data c)) by lia.
        specialize (IH (W ++ audio_data c) (skipn (length (audio_data c)) R)).
        rewrite length_app, length_drop in IH.
        rewrite <- !app_assoc in IH.
        rewrite IH by lia.
        rewrite drop_drop.
        assert (Hge : length W + length (audio_data c)
                      <= length (firstn target
                                   (W ++ audio_data c ++ one_pass rest))).
        { rewrite length_take, !length_app. lia. }
        f_equal. f_equal. f_equal. lia.
Qed.

(** The whole loop: when one pass has at least one sample and the fuel
    covers the space still to fill, the loop ends with the buffer
    holding the cyclic repetition of the clips, cut at its end. *)
Lemma fill_while_spec (clips : list clip) (target : nat) :
  (0 < length (one_pass clips))%nat ->
  forall (fuel : nat) (W R : list Q),
    length W + length R = target ->
    target <= length W + fuel * length (one_pass clips) ->
    fill_while fuel clips target (W ++ R) (length W)
    = Some (firstn target (W ++ passes fuel clips), target).
Proof.
  intros Hpos fuel. induction fuel as [|fuel IH]; intros W R Hlen Hfuel.
  - cbn [fill_while].
    destruct (Nat.leb_spec target (length W)) as [Hfull | Hroom]; [|lia].
    assert (HR : R = []) by (apply length_zero_iff_nil; lia). subst R.
    unfold passes. cbn [repeat concat]. rewrite !app_nil_r.
    rewrite take_ge by lia. do 2 f_equal. lia.
  - cbn [fill_while].
    destruct (Nat.leb_spec target (length W)) as [Hfull | Hroom].
    + assert (HR : R = []) by (apply length_zero_iff_nil; lia). subst R.
      rewrite take_app_le by lia. rewrite take_ge by lia.
      rewrite app_nil_r. do 2 f_equal. lia.
    + rewrite fill_pass_spec by exact Hlen.
      assert (HW' : length (firstn target (W ++ one_pass clips))
                    = Nat.min target (length W + length (one_pass clips))).
      { rewrite length_take, length_app. reflexivity. }
      rewrite IH.
      * f_equal. f_equal.
        rewrite take_take_app. rewrite <- app_assoc. reflexivity.
      * rewrite length_drop. lia.
      * rewrite HW'. cbn [Nat.mul] in Hfuel. lia.
Qed.

(** When no clip has a sample, a pass changes nothing. *)
Lemma fill_while_no_sample (clips : list clip) (target : nat) :
  one_pass clips = [] ->
  forall (fuel : nat) (W R : list Q),
    length W + length R = target ->
    (length W < target)%nat ->
    fill_while fuel clips target (W ++ R) (length W) = None.
Proof.
  intros Hempty fuel. induction fuel as [|fuel IH]; intros W R Hlen Hroom.
  - cbn [fill_while].
    destruct (Nat.leb_spec target (length W)); [lia | reflexivity].
  - cbn [fill_while].
    destruct (Nat.leb_spec target (length W)); [lia|].
    rewrite fill_pass_spec by exact Hlen.
    rewrite Hempty, app_nil_r.
    rewrite take_ge by lia. rewrite Nat.sub_diag.
    change (skipn 0 R) with R.
    apply IH; assumption.
Qed.

End Fill.

(** ** Rounding to binary32 *)

Section Rounding.
Import Binary32.
Open Scope Q_scope.

Lemma round_half_even_between (q : Q) :
  (Qfloor q <= round_half_even q <= Qfloor q + 1)%Z.
Proof.
  unfold round_half_even.
  destruct (q - inject_Z (Qfloor q) ?= 1 # 2); [destruct (Z.even _)| |]; lia.
Qed.

Lemma round_half_even_le (q : Q) (k : Z) :
  q <= inject_Z k -> (round_half_even q <= k)%Z.
Proof.
  intros H. pose proof (Qfloor_resp_le _ _ H) as Hf. rewrite Qfloor_Z in Hf.
  destruct (Z.eq_dec (Qfloor q) k) as [E | E].
  - assert (Hlt : q - inject_Z (Qfloor q) < 1 # 2).
    { rewrite E. lra. }
    unfold round_half_even.
    destruct (Qcompare_spec (q - inject_Z (Qfloor q)) (1 # 2)) as [H1 | H1 | H1];
      [exfalso; lra | lia | exfalso; lra].
  - pose proof (round_half_even_between q). lia.
Qed.

Lemma round_half_even_ge (q : Q) (k : Z) :
  inject_Z k <= q -> (k <= round_half_even q)%Z.
Proof.
  intros H. pose proof (Qfloor_resp_le _ _ H) as Hf. rewrite Qfloor_Z in Hf.
  pose proof (round_half_even_between q). lia.
Qed.

Lemma two_power_pos (e : Z) : 0 < 2 ^ e.
Proof. apply Qpower_0_lt. reflexivity. Qed.

Lemma two_power_inverse (e : Z) : 2 ^ (- e) * 2 ^ e == 1.
Proof.
  rewrite <- Qpower_plus by discriminate.
  replace (- e + e)%Z with 0%Z by lia. reflexivity.
Qed.

Lemma ilog2_small (q : Q) (n : Z) :
  (0 <= n)%Z -> 0 <= q -> q < 2 ^ n -> (ilog2 q < n)%Z.
Proof.
  intros Hn Hq Hlt. unfold ilog2.
  set (k := (Z.log2 (Qnum q) - Z.log2 (Z.pos (Qden q)))%Z).
  destruct (Qle_bool (2 ^ k) q) eqn:Hle.
  - apply Qle_bool_iff in Hle.
    assert (H : 2 ^ k < 2 ^ n) by (eapply Qle_lt_trans; eassumption).
    apply Qpower_lt_compat_l_inv in H; [exact H | reflexivity].
  - assert (Hk : (k <= n)%Z); [|lia].
    change (2 ^ n) with (inject_Z 2 ^ n) in Hlt.
    rewrite <- Zpower_Qpower in Hlt by exact Hn.
    destruct q as [a d]. cbn [Qnum Qden] in *. subst k.
    unfold Qlt, Qle in *. cbn [Qnum Qden inject_Z] in *.
    rewrite Z.mul_1_r in *.
    destruct (Z.eq_dec a 0%Z) as [-> | Ha].
    + change (Z.log2 0) with 0%Z. pose proof (Z.log2_nonneg (Z.pos d)). lia.
    + assert (Hapos : (0 < a)%Z) by lia.
      pose proof (Z.log2_spec (Z.pos d) ltac:(lia)) as [_ Hd].
      assert (Hb : (a < 2 ^ (n + Z.succ (Z.log2 (Z.pos d))))%Z).
      { rewrite Z.pow_add_r by (pose proof (Z.log2_nonneg (Z.pos d)); lia).
        nia. }
      apply Z.log2_lt_pow2 in Hb; [|exact Hapos]. lia.
Qed.

Lemma ulp_exponent_small (q : Q) (b : Z) :
  (0 <= b < 2 ^ 24)%Z -> Qabs q <= inject_Z b -> (ulp_exponent q <= 0)%Z.
Proof.
  intros Hb Hq. unfold ulp_exponent.
  assert (H : (ilog2 (Qabs q) < 24)%Z); [|lia].
  apply ilog2_small; [lia | apply Qabs_nonneg|].
  eapply Qle_lt_trans; [exact Hq|].
  change (2 ^ 24) with (inject_Z 2 ^ 24).
  rewrite <- Zpower_Qpower by lia. rewrite <- Zlt_Qlt. lia.
Qed.

(** Rounding does not cross an integer while the spacing is at most 1:
    such an integer is a binary32 value. *)
Lemma round32_le_integer (q : Q) (b : Z) :
  (ulp_exponent q <= 0)%Z -> q <= inject_Z b -> round32 q <= inject_Z b.
Proof.
  intros He Hq. unfold round32. set (e := ulp_exponent q) in *.
  rewrite Qred_correct.
  pose proof (two_power_pos e) as Hp. pose proof (two_power_pos (- e)) as Hn.
  set (K := (b * 2 ^ (- e))%Z).
  assert (HK : inject_Z K == inject_Z b * 2 ^ (- e)).
  { unfold K. rewrite inject_Z_mult, Zpower_Qpower by lia. reflexivity. }
  assert (Hup : (round_half_even (q * 2 ^ (- e)) <= K)%Z).
  { apply round_half_even_le. rewrite HK.
    apply Qmult_le_compat_r; [exact Hq | apply Qlt_le_weak, Hn]. }
  assert (Hb' : inject_Z b == inject_Z K * 2 ^ e).
  { rewrite HK. rewrite <- Qmult_assoc, two_power_inverse. ring. }
  rewrite Hb'.
  apply Qmult_le_compat_r; [rewrite <- Zle_Qle; exact Hup | apply Qlt_le_weak, Hp].
Qed.

Lemma round32_ge_integer (q : Q) (b : Z) :
  (ulp_exponent q <= 0)%Z -> inject_Z b <= q -> inject_Z b <= round32 q.
Proof.
  intros He Hq. unfold round32. set (e := ulp_exponent q) in *.
  rewrite Qred_correct.
  pose proof (two_power_pos e) as Hp. pose proof (two_power_pos (- e)) as Hn.
  set (K := (b * 2 ^ (- e))%Z).
  assert (HK : inject_Z K == inject_Z b * 2 ^ (- e)).
  { unfold K. rewrite inject_Z_mult, Zpower_Qpower by lia. reflexivity. }
  assert (Hdn : (K <= round_half_even (q * 2 ^ (- e)))%Z).
  { apply round_half_even_ge. rewrite HK.
    apply Qmult_le_compat_r; [exact Hq | apply Qlt_le_weak, Hn]. }
  assert (Hb' : inject_Z b == inject_Z K * 2 ^ e).
  { rewrite HK. rewrite <- Qmult_assoc, two_power_inverse. ring. }
  rewrite Hb'.
  apply Qmult_le_compat_r; [rewrite <- Zle_Qle; exact Hdn | apply Qlt_le_weak, Hp].
Qed.

(** A value of magnitude at most an integer below [2^24] is rounded to
    a value of magnitude at most that integer. *)
Lemma round32_bounded (q : Q) (b : Z) :
  (0 <= b < 2 ^ 24)%Z -> Qabs q <= inject_Z b -> Qabs (round32 q) <= inject_Z b.
Proof.
  intros Hb Hq. pose proof (ulp_exponent_small q b Hb Hq) as He.
  apply Qabs_Qle_condition in Hq. destruct Hq as [Hlo Hhi].
  apply Qabs_Qle_condition. split.
  - rewrite <- inject_Z_opp. apply round32_ge_integer; [exact He|].
    rewrite inject_Z_opp. exact Hlo.
  - apply round32_le_integer; assumption.
Qed.

(** An integer of magnitude below [2^24] is rounded to itself. *)
Lemma round32_integer (q : Q) (b : Z) :
  (Z.abs b < 2 ^ 24)%Z -> q == inject_Z b -> round32 q == inject_Z b.
Proof.
  intros Hb Hq.
  assert (He : (ulp_exponent q <= 0)%Z).
  { apply (ulp_exponent_small q (Z.abs b)); [lia|].
    rewrite Hq. apply Qle_refl. }
  apply Qle_antisym.
  - apply round32_le_integer; [exact He | rewrite Hq; apply Qle_refl].
  - apply round32_ge_integer; [exact He | rewrite Hq; apply Qle_refl].
Qed.

Lemma two_power_succ (e : Z) : 2 ^ (e + 1) == 2 * 2 ^ e.
Proof. rewrite Qpower_plus by discriminate. ring. Qed.

Lemma log2_bounds (a : Z) :
  (0 < a)%Z -> inject_Z 2 ^ Z.log2 a <= inject_Z a < inject_Z 2 ^ (Z.log2 a + 1).
Proof.
  intros Ha. pose proof (Z.log2_spec a Ha) as [H1 H2].
  pose proof (Z.log2_nonneg a).
  rewrite <- !Zpower_Qpower by lia.
  rewrite <- Zle_Qle, <- Zlt_Qlt. change (Z.succ (Z.log2 a)) with (Z.log2 a + 1)%Z in H2.
  split; assumption.
Qed.

(** [ilog2] is the exponent of the leading bit. *)
Lemma ilog2_spec (q : Q) :
  0 < q -> 2 ^ ilog2 q <= q < 2 ^ (ilog2 q + 1).
Proof.
  intros Hq. unfold ilog2.
  set (k := (Z.log2 (Qnum q) - Z.log2 (Z.pos (Qden q)))%Z).
  assert (Ha : (0 < Qnum q)%Z).
  { unfold Qlt in Hq. cbn in Hq. lia. }
  pose proof (log2_bounds (Qnum q) Ha) as [Ha1 Ha2].
  pose proof (log2_bounds (Z.pos (Qden q)) ltac:(lia)) as [Hd1 Hd2].
  change (inject_Z 2) with 2 in *.
  assert (Hd : 0 < inject_Z (Z.pos (Qden q))) by reflexivity.
  assert (Eq : q * inject_Z (Z.pos (Qden q)) == inject_Z (Qnum q)).
  { destruct q as [a d]. unfold Qeq. cbn [Qnum Qden Qmult inject_Z].
    rewrite Pos.mul_1_r. ring. }
  pose proof (two_power_pos k) as Hk.
  pose proof (two_power_pos (Z.log2 (Z.pos (Qden q)))) as Hpd.
  assert (Hup : q < 2 ^ (k + 1)).
  { (* a < 2^(la+1) = 2^(k+1) * 2^ld <= 2^(k+1) * d *)
    apply (Qmult_lt_r _ _ (inject_Z (Z.pos (Qden q))) Hd). rewrite Eq.
    eapply Qlt_le_trans; [exact Ha2|].
    replace (Z.log2 (Qnum q) + 1)%Z with (k + 1 + Z.log2 (Z.pos (Qden q)))%Z
      by (unfold k; lia).
    rewrite Qpower_plus by discriminate.
    apply Qmult_le_l; [apply two_power_pos | exact Hd1]. }
  assert (Hlo : 2 ^ (k - 1) <= q).
  { (* 2^(k-1) * d < 2^(k-1) * 2^(ld+1) = 2^la <= a *)
    apply (Qmult_le_r _ _ (inject_Z (Z.pos (Qden q))) Hd). rewrite Eq.
    eapply Qle_trans; [|exact Ha1].
    replace (Z.log2 (Qnum q)) with (k - 1 + (Z.log2 (Z.pos (Qden q)) + 1))%Z
      by (unfold k; lia).
    rewrite Qpower_plus by discriminate.
    apply Qmult_le_l; [apply two_power_pos | apply Qlt_le_weak, Hd2]. }
  destruct (Qle_bool (2 ^ k) q) eqn:Hle.
  - apply Qle_bool_iff in Hle. split; assumption.
  - replace (k - 1 + 1)%Z with k by lia. split; [exact Hlo|].
    apply Qnot_le_lt. intros H. apply Qle_bool_iff in H. congruence.
Qed.

Lemma round_half_even_near (t : Q) :
  Qabs (inject_Z (round_half_even t) - t) <= 1 # 2.
Proof.
  pose proof (Qfloor_le t) as H1. pose proof (Qlt_floor t) as H2.
  rewrite inject_Z_plus in H2. change (inject_Z 1) with 1 in H2.
  unfold round_half_even.
  apply Qabs_Qle_condition.
  destruct (Qcompare_spec (t - inject_Z (Qfloor t)) (1 # 2)) as [E | E | E].
  - destruct (Z.even (Qfloor t)); rewrite ?inject_Z_plus;
      change (inject_Z 1) with 1; split; lra.
  - split; lra.
  - rewrite inject_Z_plus. change (inject_Z 1) with 1. split; lra.
Qed.

(** What [round32] returns: a multiple of the spacing around [q], with
    at most 24 significant bits, at a distance of at most half the
    spacing from [q]. *)
Lemma round32_nearest (q : Q) :
  exists m : Z,
    round32 q == inject_Z m * 2 ^ ulp_exponent q
    /\ (Z.abs m <= 2 ^ 24)%Z
    /\ Qabs (round32 q - q) <= (1 # 2) * 2 ^ ulp_exponent q.
Proof.
  unfold round32. set (e := ulp_exponent q).
  exists (round_half_even (q * 2 ^ (- e))).
  pose proof (two_power_pos e) as Hp. pose proof (two_power_pos (- e)) as Hn.
  pose proof (two_power_inverse e) as Hinv.
  rewrite Qred_correct. split; [reflexivity|]. split.
  - (* the scaled value is below 2^24 in magnitude *)
    assert (Hs : Qabs (q * 2 ^ (- e)) <= inject_Z (2 ^ 24)).
    { rewrite Qabs_Qmult, (Qabs_pos (2 ^ (- e))) by (apply Qlt_le_weak, Hn).
      destruct (Qeq_dec (Qabs q) 0) as [E0 | Hne].
      - rewrite E0, Qmult_0_l. discriminate.
      - assert (Hq : 0 < Qabs q).
        { pose proof (Qabs_nonneg q). apply Qle_lteq in H. destruct H; [assumption|].
          exfalso. apply Hne. symmetry. assumption. }
        pose proof (ilog2_spec (Qabs q) Hq) as [_ Hup].
        assert (He : (ilog2 (Qabs q) + 1 <= e + 24)%Z) by (unfold e, ulp_exponent; lia).
        assert (Hb : Qabs q <= 2 ^ (e + 24)).
        { apply Qlt_le_weak. eapply Qlt_le_trans; [exact Hup|].
          apply Qpower_le_compat_l; [exact He | discriminate]. }
        rewrite Zpower_Qpower by lia. change (inject_Z 2) with 2.
        setoid_replace (2 ^ 24) with (2 ^ (e + 24) * 2 ^ (- e)) using relation Qeq.
        + apply Qmult_le_compat_r; [exact Hb | apply Qlt_le_weak, Hn].
        + rewrite <- Qpower_plus by discriminate.
          replace (e + 24 + - e)%Z with 24%Z by lia. reflexivity. }
    apply Qabs_Qle_condition in Hs. destruct Hs as [Hlo Hhi].
    rewrite <- inject_Z_opp in Hlo.
    apply round_half_even_ge in Hlo. apply round_half_even_le in Hhi. lia.
  - pose proof (round_half_even_near (q * 2 ^ (- e))) as Hnear.
    set (r := inject_Z (round_half_even (q * 2 ^ (- e)))) in *. clearbody r.
    assert (Hq : q * 2 ^ (- e) * 2 ^ e == q)
      by (rewrite <- Qmult_assoc, Hinv; ring).
    assert (E : r * 2 ^ e - q == (r - q * 2 ^ (- e)) * 2 ^ e).
    { transitivity (r * 2 ^ e - q * 2 ^ (- e) * 2 ^ e);
        [rewrite Hq; reflexivity | ring]. }
    rewrite E.
    rewrite Qabs_Qmult, (Qabs_pos (2 ^ e)) by (apply Qlt_le_weak, Hp).
    apply Qmult_le_compat_r; [exact Hnear | apply Qlt_le_weak, Hp].
Qed.

(** The rounding agrees with the Standard Library's specification of
    the IEEE operations on quotients and products of binary32 numbers:
    halves and thirds, a product that rounds up to 1, a tie, subnormal
    results; and on a family of 900 pairs of normal and subnormal
    numbers. *)
Example round32_agrees_with_binary32 :
  forallb (fun xy : spec_float * spec_float => agrees (fst xy) (snd xy))
          [ (S754_finite false 8388608 (-24), S754_finite false 12582912 (-23));
            (S754_finite true 12582912 (-23), S754_finite false 12582912 (-23));
            (S754_finite false 12582912 (-24), S754_finite false 12582912 (-23));
            (S754_finite false 8388608 (-23), S754_finite false 12582912 (-22));
            (S754_finite true 8388608 (-23), S754_finite false 10485760 (-20));
            (S754_finite false 8388864 (-38), S754_finite false 16776704 (-9));
            (S754_finite false 16777215 (-24), S754_finite false 16777215 (-24));
            (S754_finite false 11184811 (-25), S754_finite false 11184811 (-25));
            (S754_finite false 3 (-149), S754_finite false 8388608 (-22));
            (S754_finite false 1 (-149), S754_finite false 12582912 (-22));
            (S754_finite true 8388609 (-149), S754_finite false 13421773 (-27)) ]
  = true
  /\ forallb
       (fun k =>
          agrees (S754_finite (Nat.even k) (mantissa k) (Z.of_nat (k mod 40) - 30))
                 (S754_finite false (mantissa (3 * k + 1))
                              (Z.of_nat (k mod 7) - 23))
          && agrees (S754_finite false (Pos.of_nat (1 + k)) (-149))
                    (S754_finite (Nat.odd k) (mantissa (5 * k + 2))
                                 (Z.of_nat (k mod 5) - 24))
          && agrees (S754_finite false (mantissa k) (-149 + Z.of_nat (k mod 3)))
                    (S754_finite false (mantissa (k + 7))
                                 (-23 - Z.of_nat (k mod 9))))
       (seq 0 300)
     = true.
Proof. vm_compute. split; reflexivity. Qed.

End Rounding.

(** ** Peak and normalisation *)

Section Peak.
Import Generator.
Open Scope Q_scope.

Lemma Qltb_true (x y : Q) : Qltb x y = true <-> x < y.
Proof.
  unfold Qltb. rewrite negb_true_iff. split.
  - intros H. apply Qnot_le_lt. intros Hle.
    apply Qle_bool_iff in Hle. congruence.
  - intros H. destruct (Qle_bool y x) eqn:E; [|reflexivity].
    apply Qle_bool_iff in E. exfalso. exact (Qlt_not_le _ _ H E).
Qed.

Lemma Qltb_false (x y : Q) : Qltb x y = false <-> y <= x.
Proof.
  unfold Qltb. rewrite negb_false_iff. apply Qle_bool_iff.
Qed.

Lemma fold_max_spec (rest : list Q) :
  forall x : Q,
    let m := fold_left (fun m y => if Qltb m y then y else m) rest x in
    (m = x \/ In m rest) /\ x <= m /\ Forall (fun y => y <= m) rest.
Proof.
  induction rest as [|y rest IH]; intros x; cbn [fold_left].
  - split; [left; reflexivity|]. split; [apply Qle_refl | constructor].
  - destruct (Qltb x y) eqn:E.
    + apply Qltb_true in E.
      destruct (IH y) as (Hin & Hle & Hall).
      split; [|split].
      * right. destruct Hin as [-> | Hin]; [left; reflexivity | right; exact Hin].
      * eapply Qle_trans; [apply Qlt_le_weak, E | exact Hle].
      * constructor; assumption.
    + apply Qltb_false in E.
      destruct (IH x) as (Hin & Hle & Hall).
      split; [|split].
      * destruct Hin as [-> | Hin]; [left; reflexivity | right; right; exact Hin].
      * exact Hle.
      * constructor; [eapply Qle_trans; eassumption | assumption].
Qed.

Lemma np_max_spec (l : list Q) (m : Q) :
  np_max l = Some m -> In m l /\ Forall (fun y => y <= m) l.
Proof.
  destruct l as [|x rest]; [discriminate|].
  unfold np_max, np_max_by. intros [= <-].
  destruct (fold_max_spec rest x) as (Hin & Hle & Hall).
  split.
  - destruct Hin as [-> | Hin]; [left; reflexivity | right; exact Hin].
  - constructor; assumption.
Qed.

(** The peak is the absolute value of one of the samples and bounds
    them all. *)
Lemma max_abs_spec (buf : list Q) (m : Q) :
  max_abs buf = Some m ->
  (exists x, In x buf /\ m = Qabs x) /\ Forall (fun x => Qabs x <= m) buf.
Proof.
  unfold max_abs, max_abs_by. intros H.
  change (np_max (map Qabs buf) = Some m) in H.
  apply np_max_spec in H. destruct H as [Hin Hall].
  split.
  - apply in_map_iff in Hin. destruct Hin as (x & <- & Hx). eauto.
  - rewrite List.Forall_forall in *. intros x Hx. apply Hall.
    apply in_map. exact Hx.
Qed.

Lemma max_abs_is_Some (buf : list Q) :
  buf <> [] -> exists m, max_abs buf = Some m.
Proof.
  destruct buf as [|x rest]; [congruence|]. intros _.
  unfold max_abs, max_abs_by, np_max_by. cbn [map]. eauto.
Qed.

Lemma Qabs_div_le_1 (x m : Q) : 0 < m -> Qabs x <= m -> Qabs (x / m) <= 1.
Proof.
  intros Hm Hx. unfold Qdiv.
  rewrite Qabs_Qmult, Qabs_Qinv.
  rewrite (Qabs_pos m) by (apply Qlt_le_weak, Hm).
  apply Qle_shift_div_r; [exact Hm|]. rewrite Qmult_1_l. exact Hx.
Qed.

Lemma Qabs_div_self (x m : Q) : 0 < m -> m = Qabs x -> Qabs (x / m) == 1.
Proof.
  intros Hm Hx. unfold Qdiv.
  rewrite Qabs_Qmult, Qabs_Qinv. rewrite <- Hx.
  rewrite (Qabs_pos m) by (apply Qlt_le_weak, Hm).
  apply Qmult_inv_r. intros H0. rewrite H0 in Hm.
  exact (Qlt_irrefl _ Hm).
Qed.

(** The rounded quotient of a sample by the peak stays within
    [[-1, 1]]: 1 and -1 are binary32 values. *)
Lemma float32_div_le_1 (x m : Q) :
  0 < m -> Qabs x <= m -> Qabs (float32_div x m) <= 1.
Proof.
  intros Hm Hx. unfold float32_div.
  apply (round32_bounded (x / m) 1); [lia|].
  apply Qabs_div_le_1; assumption.
Qed.

(** The rounded quotient of a sample of peak magnitude by the peak is 1
    or -1 exactly. *)
Lemma float32_div_self (x m : Q) :
  0 < m -> m = Qabs x -> Qabs (float32_div x m) == 1.
Proof.
  intros Hm Hx. pose proof (Qabs_div_self x m Hm Hx) as H1.
  unfold float32_div.
  destruct (Qlt_le_dec (x / m) 0) as [Hneg | Hpos].
  - rewrite Qabs_neg in H1 by (apply Qlt_le_weak, Hneg).
    assert (E : x / m == inject_Z (-1)) by (change (inject_Z (-1)) with (-1)%Q; lra).
    rewrite (round32_integer _ (-1) ltac:(lia) E). reflexivity.
  - rewrite Qabs_pos in H1 by exact Hpos.
    rewrite (round32_integer _ 1 ltac:(lia) H1). reflexivity.
Qed.

(** Whatever the peak, the buffer that leaves the normalisation step lies
    in [[-1, 1]]. *)
Lemma normalize_bounded (buf : list Q) (m : Q) :
  max_abs buf = Some m -> Forall (fun x => Qabs x <= 1) (normalize buf m).
Proof.
  intros H. apply max_abs_spec in H. destruct H as [_ Hall].
  unfold normalize, normalize_by. destruct (Qltb 1 m) eqn:E.
  - apply Qltb_true in E.
    assert (Hm : 0 < m) by (apply (Qlt_trans 0 1 m); [reflexivity | exact E]).
    rewrite List.Forall_forall in *. intros y Hy.
    apply in_map_iff in Hy. destruct Hy as (x & <- & Hx).
    apply float32_div_le_1; auto.
  - apply Qltb_false in E.
    rewrite List.Forall_forall in *. intros x Hx.
    eapply Qle_trans; [apply Hall, Hx | exact E].
Qed.

Lemma normalize_quiet (buf : list Q) (m : Q) : m <= 1 -> normalize buf m = buf.
Proof.
  intros H. unfold normalize, normalize_by. apply Qltb_false in H.
  rewrite H. reflexivity.
Qed.

Lemma normalize_loud (buf : list Q) (m : Q) :
  1 < m -> normalize buf m = map (fun x => float32_div x m) buf.
Proof.
  intros H. unfold normalize, normalize_by. apply Qltb_true in H.
  rewrite H. reflexivity.
Qed.

Lemma normalize_loud_peak (buf : list Q) (m : Q) :
  max_abs buf = Some m -> 1 < m ->
  exists m', max_abs (normalize buf m) = Some m' /\ m' == 1.
Proof.
  intros Hmax Hm.
  assert (Hm0 : 0 < m) by (apply (Qlt_trans 0 1 m); [reflexivity | exact Hm]).
  pose proof (normalize_bounded buf m Hmax) as Hb.
  pose proof (max_abs_spec buf m Hmax) as [(x & Hx & Hmx) _].
  rewrite normalize_loud in * by exact Hm.
  destruct (max_abs_is_Some (map (fun x => float32_div x m) buf)) as [m' Hm'].
  { destruct buf; [destruct Hx | discriminate]. }
  exists m'. split; [exact Hm'|].
  apply max_abs_spec in Hm'. destruct Hm' as [(y & Hy & ->) Hall].
  apply Qle_antisym.
  - rewrite List.Forall_forall in Hb. apply Hb, Hy.
  - rewrite List.Forall_forall in Hall.
    rewrite <- (float32_div_self x m Hm0 Hmx).
    apply Hall. apply in_map_iff. eauto.
Qed.

(** A buffer of samples within [[-1, 1]] has a peak of at most 1. *)
Lemma max_abs_le_1 (buf : list Q) (m : Q) :
  Forall (fun x => Qabs x <= 1) buf -> max_abs buf = Some m -> m <= 1.
Proof.
  intros Hall H. apply max_abs_spec in H. destruct H as [(x & Hx & ->) _].
  rewrite List.Forall_forall in Hall. apply Hall, Hx.
Qed.

(** The step on binary32 samples, at the two examples of the
    specification: the buffer 0.5, -1.5, 0.75 has peak 1.5 and is scaled
    to a buffer of peak exactly 1.0; the buffer 0.6, -0.2 has peak 0.6 and
    stays as it is. *)
Example normalize_binary32_examples :
  max_abs_b32 [ S754_finite false 8388608 (-24); S754_finite true 12582912 (-23);
                S754_finite false 12582912 (-24) ]
  = Some (S754_finite false 12582912 (-23))
  /\ normalize_b32
       [ S754_finite false 8388608 (-24); S754_finite true 12582912 (-23);
         S754_finite false 12582912 (-24) ]
       (S754_finite false 12582912 (-23))
     = [ S754_finite false 11184811 (-25); S754_finite true 8388608 (-23);
         S754_finite false 8388608 (-24) ]
  /\ max_abs_b32
       [ S754_finite false 11184811 (-25); S754_finite true 8388608 (-23);
         S754_finite false 8388608 (-24) ]
     = Some b32_one
  /\ max_abs_b32 [ S754_finite false 10066330 (-24); S754_finite true 13421773 (-26) ]
     = Some (S754_finite false 10066330 (-24))
  /\ normalize_b32
       [ S754_finite false 10066330 (-24); S754_finite true 13421773 (-26) ]
       (S754_finite false 10066330 (-24))
     = [ S754_finite false 10066330 (-24); S754_finite true 13421773 (-26) ].
Proof. vm_compute. repeat split. Qed.

End Peak.

(** ** Rendering *)

Section Render.
Import Generator.

Lemma render_filled (fuel : nat) (clips : list clip) (target : nat) :
  clips <> [] ->
  (0 < length (one_pass clips))%nat ->
  target <= fuel * length (one_pass clips) ->
  render fuel clips (Z.of_nat target)
  = match max_abs (firstn target (passes fuel clips)) with
    | None => Raises "ValueError: zero-size array to reduction operation maximum"
    | Some m => Returns (Some (normalize (firstn target (passes fuel clips)) m))
    end.
Proof.
  intros Hne Hpos Hfuel. unfold render.
  destruct clips as [|c clips]; [congruence|].
  destruct (Z.ltb_spec (Z.of_nat target) 0) as [Hneg | _]; [lia|].
  rewrite Nat2Z.id.
  pose proof (fill_while_spec (c :: clips) target Hpos fuel [] (repeat 0%Q target))
    as H.
  cbn [app length Nat.add] in H.
  rewrite H by (rewrite ?repeat_length; lia).
  reflexivity.
Qed.

Lemma render_no_sample (fuel : nat) (clips : list clip) (target : Z) :
  clips <> [] -> one_pass clips = [] -> (0 < target)%Z ->
  render fuel clips target = Diverges.
Proof.
  intros Hne Hempty Htarget. unfold render.
  destruct clips as [|c clips]; [congruence|].
  destruct (Z.ltb_spec target 0) as [Hneg | _]; [lia|].
  pose proof (fill_while_no_sample (c :: clips) (Z.to_nat target) Hempty fuel
                [] (repeat 0%Q (Z.to_nat target))) as H.
  cbn [app length Nat.add] in H.
  rewrite H by (rewrite ?repeat_length; lia).
  reflexivity.
Qed.

Lemma render_returns_normalized (fuel : nat) (clips : list clip) (target : Z)
    (buf : list Q) :
  render fuel clips target = Returns (Some buf) ->
  exists (filled : list Q) (pos : nat) (m : Q),
    fill_while fuel clips (Z.to_nat target) (repeat 0%Q (Z.to_nat target)) 0
    = Some (filled, pos)
    /\ max_abs filled = Some m /\ buf = normalize filled m.
Proof.
  unfold render. destruct clips as [|c clips]; [discriminate|].
  destruct (target <? 0)%Z; [discriminate|].
  destruct (fill_while _ _ _ _ _) as [[filled pos]|] eqn:Hfill; [|discriminate].
  destruct (max_abs filled) as [m|] eqn:Hm; [|discriminate].
  intros [= <-]. exists filled, pos, m. repeat split; auto.
Qed.

Lemma rate_positive : (0 < target_sample_rate)%nat.
Proof. apply Nat.ltb_lt. vm_compute. reflexivity. Qed.

(** Two clips of [2r] and [r] samples in a buffer of [5r] samples. *)
Lemma fill_two_clips_5 (cA cB : clip) (r fuel : nat) :
  length (audio_data cA) = 2 * r -> length (audio_data cB) = r ->
  (0 < r)%nat -> 2 <= fuel ->
  firstn (5 * r) (passes fuel [cA; cB])
  = audio_data cA ++ audio_data cB ++ audio_data cA.
Proof.
  intros HA HB Hr Hfuel.
  destruct fuel as [|[|fuel]]; [lia | lia |].
  unfold passes, one_pass. cbn [repeat concat map]. rewrite !app_nil_r.
  rewrite <- !app_assoc.
  rewrite (app_assoc (audio_data cA) (audio_data cB)).
  rewrite (app_assoc (audio_data cA ++ audio_data cB) (audio_data cA)).
  rewrite take_app_length' by (rewrite !length_app; lia).
  rewrite <- app_assoc. reflexivity.
Qed.

(** The same two clips in a buffer of [7r] samples. *)
Lemma fill_two_clips_7 (cA cB : clip) (r fuel : nat) :
  length (audio_data cA) = 2 * r -> length (audio_data cB) = r ->
  (0 < r)%nat -> 3 <= fuel ->
  firstn (7 * r) (passes fuel [cA; cB])
  = audio_data cA ++ audio_data cB ++ audio_data cA ++ audio_data cB
    ++ firstn r (audio_data cA).
Proof.
  intros HA HB Hr Hfuel.
  destruct fuel as [|[|[|fuel]]]; [lia | lia | lia |].
  unfold passes, one_pass. cbn [repeat concat map]. rewrite !app_nil_r.
  set (A := audio_data cA) in *. set (B := audio_data cB) in *.
  set (rest := concat _).
  replace ((A ++ B) ++ (A ++ B) ++ (A ++ B) ++ rest)
    with ((A ++ B ++ A ++ B) ++ A ++ B ++ rest)
    by (rewrite <- !app_assoc; reflexivity).
  rewrite take_app_ge by (rewrite !length_app; lia).
  replace (7 * r - length (A ++ B ++ A ++ B)) with r
    by (rewrite !length_app; lia).
  rewrite take_app_le by lia.
  rewrite <- !app_assoc. reflexivity.
Qed.

Lemma one_pass_two (cA cB : clip) :
  one_pass [cA; cB] = audio_data cA ++ audio_data cB.
Proof. unfold one_pass. cbn [map concat]. rewrite app_nil_r. reflexivity. Qed.

Lemma fill_while_two_clips (cA cB : clip) (r k fuel : nat) :
  length (audio_data cA) = 2 * r -> length (audio_data cB) = r ->
  (0 < r)%nat -> k * r <= fuel * (3 * r) ->
  fill_while fuel [cA; cB] (k * r) (repeat 0%Q (k * r)) 0
  = Some (firstn (k * r) (passes fuel [cA; cB]), k * r).
Proof.
  intros HA HB Hr Hfuel.
  assert (HL : length (one_pass [cA; cB]) = 3 * r)
    by (rewrite one_pass_two, length_app; lia).
  pose proof (fill_while_spec [cA; cB] (k * r)) as H.
  rewrite HL in H.
  specialize (H ltac:(lia) fuel [] (repeat 0%Q (k * r))).
  cbn [app length Nat.add] in H.
  apply H; rewrite ?repeat_length; lia.
Qed.

Lemma render_two_clips_5 (cA cB : clip) (r fuel : nat) :
  length (audio_data cA) = 2 * r -> length (audio_data cB) = r ->
  (0 < r)%nat -> 2 <= fuel ->
  Forall (fun x => (Qabs x <= 1)%Q) (audio_data cA ++ audio_data cB) ->
  render fuel [cA; cB] (Z.of_nat (5 * r))
  = Returns (Some (audio_data cA ++ audio_data cB ++ audio_data cA)).
Proof.
  intros HA HB Hr Hfuel Hquiet.
  assert (HL : length (one_pass [cA; cB]) = 3 * r)
    by (rewrite one_pass_two, length_app; lia).
  rewrite render_filled by (try discriminate; rewrite HL; nia).
  rewrite fill_two_clips_5 by assumption.
  set (buf := audio_data cA ++ audio_data cB ++ audio_data cA).
  assert (Hbuf : Forall (fun x => (Qabs x <= 1)%Q) buf).
  { unfold buf. apply Forall_app in Hquiet. destruct Hquiet as [H1 H2].
    repeat (apply Forall_app; split); assumption. }
  destruct (max_abs_is_Some buf) as [m Hm].
  { unfold buf. destruct (audio_data cA); [simpl in HA; lia | discriminate]. }
  rewrite Hm. rewrite normalize_quiet; [reflexivity|].
  eapply max_abs_le_1; eassumption.
Qed.

End Render.

(** ** Composition of a track *)

Section Composition.
Import Generator.

(** C2 (as the code has it).  With a clip [A] of two seconds and a clip
    [B] of one second, a track of five seconds is [A], [B], [A]: the
    second copy of [A] ends exactly at the buffer's end, nothing is cut,
    and with samples within [[-1, 1]] the returned buffer is that very
    sequence.  The cut shows with seven seconds: [A], [B], [A], [B], then
    the first second of [A]. *)
Theorem render_two_clips_cycle (cA cB : clip) (fuel : nat) :
  length (audio_data cA) = 2 * target_sample_rate ->
  length (audio_data cB) = target_sample_rate ->
  3 <= fuel ->
  fill_while fuel [cA; cB] (5 * target_sample_rate)
             (repeat 0%Q (5 * target_sample_rate)) 0
  = Some (audio_data cA ++ audio_data cB ++ audio_data cA, 5 * target_sample_rate)
  /\ length (audio_data cA ++ audio_data cB ++ audio_data cA)
     = 5 * target_sample_rate
  /\ (Forall (fun x => (Qabs x <= 1)%Q) (audio_data cA ++ audio_data cB) ->
      render fuel [cA; cB] (Z.of_nat (5 * target_sample_rate))
      = Returns (Some (audio_data cA ++ audio_data cB ++ audio_data cA)))
  /\ fill_while fuel [cA; cB] (7 * target_sample_rate)
                (repeat 0%Q (7 * target_sample_rate)) 0
     = Some (audio_data cA ++ audio_data cB ++ audio_data cA ++ audio_data cB
             ++ firstn target_sample_rate (audio_data cA),
             7 * target_sample_rate).
Proof.
  pose proof rate_positive as Hr.
  generalize dependent target_sample_rate. intros r HA HB Hfuel Hr.
  split; [|split; [|split]].
  - rewrite (fill_while_two_clips cA cB r 5 fuel) by (auto; nia).
    rewrite fill_two_clips_5 by (auto; lia). reflexivity.
  - rewrite !length_app. lia.
  - intros Hquiet. apply render_two_clips_5; auto. lia.
  - rewrite (fill_while_two_clips cA cB r 7 fuel) by (auto; nia).
    rewrite fill_two_clips_7 by auto. reflexivity.
Qed.

Lemma render_two_clips_cycle_witness :
  render 3
    [ make_clip "1RHYTH.WAV" (repeat (1 # 2)%Q (2 * target_sample_rate)) (Some 0%nat);
      make_clip "2RHYTH.WAV" (repeat (-1 # 4)%Q target_sample_rate) (Some 1%nat) ]
    (Z.of_nat (5 * target_sample_rate))
  = Returns
      (Some (repeat (1 # 2)%Q (2 * target_sample_rate)
             ++ repeat (-1 # 4)%Q target_sample_rate
             ++ repeat (1 # 2)%Q (2 * target_sample_rate))).
Proof.
  apply (proj1 (proj2 (proj2 (render_two_clips_cycle
           (make_clip "1RHYTH.WAV" (repeat (1 # 2)%Q (2 * target_sample_rate))
                      (Some 0%nat))
           (make_clip "2RHYTH.WAV" (repeat (-1 # 4)%Q target_sample_rate)
                      (Some 1%nat))
           3
           (repeat_length _ _) (repeat_length _ _) (le_n 3))))).
  unfold make_clip. cbn [audio_data].
  apply Forall_app. split; apply List.Forall_forall; intros x Hx;
    apply repeat_spec in Hx; subst x; vm_compute; discriminate.
Defined.

(** C2 as the specification words it fails: five seconds at the target
    rate hold [A], [B], [A] and the render returns exactly that, while the
    sequence [A], [B], [A], [B], first second of [A] is seven seconds
    long. *)
Lemma five_seconds_is_not_seven :
  render 3
    [ make_clip "1RHYTH.WAV" (repeat (1 # 2)%Q (2 * target_sample_rate)) (Some 0%nat);
      make_clip "2RHYTH.WAV" (repeat (-1 # 4)%Q target_sample_rate) (Some 1%nat) ]
    (Z.of_nat (5 * target_sample_rate))
  = Returns
      (Some (repeat (1 # 2)%Q (2 * target_sample_rate)
             ++ repeat (-1 # 4)%Q target_sample_rate
             ++ repeat (1 # 2)%Q (2 * target_sample_rate)))
  /\ length (repeat (1 # 2)%Q (2 * target_sample_rate)
             ++ repeat (-1 # 4)%Q target_sample_rate
             ++ repeat (1 # 2)%Q (2 * target_sample_rate)
             ++ repeat (-1 # 4)%Q target_sample_rate
             ++ firstn target_sample_rate
                  (repeat (1 # 2)%Q (2 * target_sample_rate)))
     = 7 * target_sample_rate
  /\ 7 * target_sample_rate <> 5 * target_sample_rate
  /\ repeat (1 # 2)%Q (2 * target_sample_rate)
     ++ repeat (-1 # 4)%Q target_sample_rate
     ++ repeat (1 # 2)%Q (2 * target_sample_rate)
     <> repeat (1 # 2)%Q (2 * target_sample_rate)
        ++ repeat (-1 # 4)%Q target_sample_rate
        ++ repeat (1 # 2)%Q (2 * target_sample_rate)
        ++ repeat (-1 # 4)%Q target_sample_rate
        ++ firstn target_sample_rate (repeat (1 # 2)%Q (2 * target_sample_rate)).
Proof.
  pose proof rate_positive as Hr.
  split; [|split; [|split]].
  - apply (render_two_clips_5
             (make_clip "1RHYTH.WAV" (repeat (1 # 2)%Q (2 * target_sample_rate))
                        (Some 0%nat))
             (make_clip "2RHYTH.WAV" (repeat (-1 # 4)%Q target_sample_rate)
                        (Some 1%nat))
             target_sample_rate 3
             (repeat_length _ _) (repeat_length _ _) Hr).
    + lia.
    + unfold make_clip. cbn [audio_data].
      apply Forall_app. split; apply List.Forall_forall; intros x Hx;
        apply repeat_spec in Hx; subst x; vm_compute; discriminate.
  - rewrite !length_app, length_take, !repeat_length. lia.
  - lia.
  - intros H. apply (f_equal (@length Q)) in H.
    rewrite !length_app, length_take, !repeat_length in H. lia.
Qed.

(** C4 (the code at the failing input).  A level whose only usable
    sample decodes to an empty clip: the fill loop makes no progress, and
    the 30-second render never returns, whatever the fuel. *)
Theorem render_of_empty_clip_diverges (fuel : nat) :
  render fuel [make_clip "EMPTY.WAV" [] (Some 0%nat)] 1323000 = Diverges.
Proof.
  apply render_no_sample.
  - discriminate.
  - reflexivity.
  - reflexivity.
Qed.

(** The loop does end when some clip has a sample: with fuel for one pass
    per sample of the target, the buffer is full. *)
Lemma fill_while_terminates (clips : list clip) (target : nat) :
  (0 < length (one_pass clips))%nat ->
  fill_while target clips target (repeat 0%Q target) 0
  = Some (firstn target (passes target clips), target)
  /\ length (firstn target (passes target clips)) = target.
Proof.
  intros Hpos.
  pose proof (fill_while_spec clips target Hpos target [] (repeat 0%Q target)) as H.
  cbn [app length Nat.add] in H.
  assert (Hfuel : target <= target * length (one_pass clips)) by nia.
  split.
  - apply H; rewrite ?repeat_length; lia.
  - rewrite length_take. unfold passes.
    assert (Hlen : length (concat (repeat (one_pass clips) target))
                   = target * length (one_pass clips)).
    { clear H Hfuel. induction target as [|n IH]; cbn [repeat concat].
      - reflexivity.
      - rewrite length_app, IH. lia. }
    rewrite Hlen. lia.
Qed.

(** C8.  The normalisation step on a filled buffer with peak [m]: when
    [m] exceeds 1 every sample is divided by [m], a [float32] division
    whose result is rounded to binary32, and the peak of the result is
    exactly 1; when [m] is at most 1 the buffer is returned as it is.  The
    render returns the filled buffer after this step. *)
Theorem normalize_peak (buf : list Q) (m : Q) :
  max_abs buf = Some m ->
  ((1 < m)%Q ->
     normalize buf m = map (fun x => float32_div x m) buf
     /\ exists m', max_abs (normalize buf m) = Some m' /\ (m' == 1)%Q)
  /\ ((m <= 1)%Q -> normalize buf m = buf)
  /\ (forall fuel clips target pos,
        clips <> [] -> (0 <= target)%Z ->
        fill_while fuel clips (Z.to_nat target) (repeat 0%Q (Z.to_nat target)) 0
        = Some (buf, pos) ->
        render fuel clips target = Returns (Some (normalize buf m))).
Proof.
  intros Hmax. split; [|split].
  - intros Hm. split.
    + apply normalize_loud, Hm.
    + apply normalize_loud_peak; assumption.
  - apply normalize_quiet.
  - intros fuel clips target pos Hne Htarget Hfill. unfold render.
    destruct clips as [|c clips]; [congruence|].
    destruct (Z.ltb_spec target 0) as [Hneg | _]; [lia|].
    rewrite Hfill, Hmax. reflexivity.
Qed.

Lemma normalize_peak_witness :
  (normalize [(1 # 2); (-3 # 2); (3 # 4)]%Q (3 # 2)%Q
   = map (fun x => float32_div x (3 # 2)%Q) [(1 # 2); (-3 # 2); (3 # 4)]%Q
   /\ exists m',
        max_abs (normalize [(1 # 2); (-3 # 2); (3 # 4)]%Q (3 # 2)%Q) = Some m'
        /\ (m' == 1)%Q)
  /\ normalize [(3 # 5); (-1 # 5)]%Q (3 # 5)%Q = [(3 # 5); (-1 # 5)]%Q.
Proof.
  split.
  - apply (proj1 (normalize_peak [(1 # 2); (-3 # 2); (3 # 4)]%Q (3 # 2)%Q
                    eq_refl)).
    reflexivity.
  - apply (proj1 (proj2 (normalize_peak [(3 # 5); (-1 # 5)]%Q (3 # 5)%Q
                           eq_refl))).
    vm_compute. discriminate.
Defined.

(** The two steps at rounded values: a third is the binary32 number
    0.3333333432674408, and a product just below 1 rounds up to 1 before
    the cast. *)
Example float32_steps_round :
  normalize [(1 # 2); (-3 # 2); (3 # 4)]%Q (3 # 2)%Q
  = [(11184811 # 33554432); -1; (1 # 2)]%Q
  /\ float32_mul (32769 # 1073741824) 32767 = 1%Q
  /\ to_int16 [(32769 # 1073741824)]%Q = [1%Z].
Proof. vm_compute. repeat split. Qed.

Lemma Qtrunc_bound (y : Q) (b : Z) :
  (Qabs y <= inject_Z b)%Q -> (- b <= Qtrunc y <= b)%Z.
Proof.
  intros H. apply Qabs_Qle_condition in H. destruct H as [Hlo Hhi].
  destruct y as [n d]. unfold Qle in Hlo, Hhi.
  cbn [Qnum Qden inject_Z Qopp] in Hlo, Hhi. rewrite Z.mul_1_r in Hlo, Hhi.
  unfold Qtrunc. cbn [Qnum Qden].
  split.
  - apply Z.quot_le_lower_bound; lia.
  - apply Z.quot_le_upper_bound; lia.
Qed.

(** The [float32] product of a sample within [[-1, 1]] with 32767 stays
    within [[-32767, 32767]]: 32767 is a binary32 value. *)
Lemma Qtrunc_scaled_bound (x : Q) :
  (Qabs x <= 1)%Q -> (-32767 <= Qtrunc (float32_mul x 32767) <= 32767)%Z.
Proof.
  intros H. apply (Qtrunc_bound _ 32767). unfold float32_mul.
  apply round32_bounded; [lia|].
  rewrite Qabs_Qmult. change (Qabs 32767) with (inject_Z 32767).
  rewrite <- (Qmult_1_l (inject_Z 32767)) at 2.
  apply Qmult_le_compat_r; [exact H | discriminate].
Qed.

Lemma wrap_int16_small (z : Z) :
  (-32768 <= z <= 32767)%Z -> wrap_int16 z = z.
Proof.
  intros H. unfold wrap_int16. rewrite Z.mod_small by lia. lia.
Qed.

Lemma generate_returns_normalized
    (load : string -> option (list Q)) (fuel : nat)
    (data : option (list level_record)) (name : string) (target : Z)
    (buf : list Q) :
  generate_level_music load fuel data name target = Returns (Some buf) ->
  exists filled m, max_abs filled = Some m /\ buf = normalize filled m.
Proof.
  unfold generate_level_music, generate_for_level.
  destruct (get_level_info data name) as [info|]; [|discriminate].
  destruct (audio_count info =? 0)%nat; [discriminate|].
  intros H. apply render_returns_normalized in H.
  destruct H as (filled & pos & m & _ & Hm & ->). eauto.
Qed.

(** C10.  Every buffer that [generate_level_music] returns has all its
    samples in [[-1, 1]]: the quotients by the peak are rounded to
    binary32, and rounding does not cross 1 or -1.  So the [float32]
    product of each sample with 32767, with its fraction dropped, lies in
    the signed 16-bit range, and the conversion of [save_music] wraps
    nothing. *)
Theorem generated_buffer_fits_int16
    (load : string -> option (list Q)) (fuel : nat)
    (data : option (list level_record)) (name : string) (target : Z)
    (buf : list Q) :
  generate_level_music load fuel data name target = Returns (Some buf) ->
  Forall (fun x => (-1 <= x <= 1)%Q) buf
  /\ Forall (fun x => (-32768 <= Qtrunc (float32_mul x 32767) <= 32767)%Z) buf
  /\ to_int16 buf = map (fun x => Qtrunc (float32_mul x 32767)) buf.
Proof.
  intros H. apply generate_returns_normalized in H.
  destruct H as (filled & m & Hm & ->).
  pose proof (normalize_bounded filled m Hm) as Hb.
  rewrite List.Forall_forall in Hb.
  split; [|split].
  - apply List.Forall_forall. intros x Hx.
    apply (Qabs_Qle_condition x 1), Hb, Hx.
  - apply List.Forall_forall. intros x Hx.
    pose proof (Qtrunc_scaled_bound x (Hb x Hx)). lia.
  - unfold to_int16. apply map_ext_in. intros x Hx.
    apply wrap_int16_small.
    pose proof (Qtrunc_scaled_bound x (Hb x Hx)). lia.
Qed.

Lemma generated_buffer_fits_int16_witness :
  Forall (fun x => (-1 <= x <= 1)%Q) [1; (-11184811 # 33554432); 1]%Q
  /\ Forall (fun x => (-32768 <= Qtrunc (float32_mul x 32767) <= 32767)%Z)
            [1; (-11184811 # 33554432); 1]%Q
  /\ to_int16 [1; (-11184811 # 33554432); 1]%Q
     = map (fun x => Qtrunc (float32_mul x 32767))
           [1; (-11184811 # 33554432); 1]%Q.
Proof.
  apply (generated_buffer_fits_int16
           (fun name => if String.eqb name "1RHYTH.WAV"
                        then Some [(3 # 2); (-1 # 2)]%Q else None)
           2
           (Some [ {| level_name := "ONESONG.ELV"; audio_count := 1;
                      level_title := None;
                      audio_files :=
                        [ {| filename := "1RHYTH.WAV";
                             sequence_position := Some 0%nat;
                             file_type := Some "numbered_rhythm" |} ] |} ])
           "onesong.elv" 3).
  vm_compute. reflexivity.
Defined.

End Composition.

(** ** Order of the stored references *)

Section StoredOrder.
Import Generator.

Variable load_audio_file : string -> option (list Q).

Lemma insert_by_key_perm (x : audio_entry) (l : list audio_entry) :
  Permutation (insert_by_key x l) (x :: l).
Proof.
  induction l as [|y l IH]; cbn [insert_by_key]; [reflexivity|].
  destruct (sort_key x <=? sort_key y)%nat; [reflexivity|].
  rewrite IH. apply perm_swap.
Qed.

Lemma sorted_by_key_perm (l : list audio_entry) : Permutation (sorted_by_key l) l.
Proof.
  induction l as [|x l IH]; cbn [sorted_by_key]; [reflexivity|].
  rewrite insert_by_key_perm. apply perm_skip, IH.
Qed.

Lemma insert_by_key_sorted (x : audio_entry) (l : list audio_entry) :
  StronglySorted key_le l -> StronglySorted key_le (insert_by_key x l).
Proof.
  induction 1 as [|y l Hl IH Hy]; cbn [insert_by_key].
  - repeat constructor.
  - destruct (Nat.leb_spec (sort_key x) (sort_key y)) as [Hxy | Hyx].
    + constructor; [constructor; assumption|].
      constructor; [exact Hxy|].
      eapply List.Forall_impl; [|exact Hy]. unfold key_le. intros z Hz. lia.
    + constructor; [exact IH|].
      eapply Permutation_Forall; [symmetry; apply insert_by_key_perm|].
      constructor; [unfold key_le; lia | exact Hy].
Qed.

Lemma sorted_by_key_sorted (l : list audio_entry) :
  StronglySorted key_le (sorted_by_key l).
Proof.
  induction l as [|x l IH]; cbn [sorted_by_key]; [constructor|].
  apply insert_by_key_sorted, IH.
Qed.

Lemma strictly_sorted_of_distinct_keys (l : list audio_entry) :
  StronglySorted key_le l -> List.NoDup (map sort_key l) -> StronglySorted key_lt l.
Proof.
  induction 1 as [|x l Hl IH Hx]; intros Hnd; [constructor|].
  cbn [map] in Hnd. inversion Hnd as [|k ks Hnotin Hnd']; subst.
  constructor; [apply IH, Hnd'|].
  rewrite List.Forall_forall in *. intros y Hy.
  specialize (Hx y Hy). unfold key_le in Hx. unfold key_lt.
  assert (sort_key x <> sort_key y).
  { intros E. apply Hnotin. rewrite E. apply in_map, Hy. }
  lia.
Qed.

(** Two strictly sorted arrangements of the same entries are the same
    list. *)
Lemma strictly_sorted_unique (l1 : list audio_entry) :
  forall l2,
    StronglySorted key_lt l1 -> StronglySorted key_lt l2 ->
    Permutation l1 l2 -> l1 = l2.
Proof.
  induction l1 as [|a l1 IH]; intros l2 H1 H2 Hp.
  - apply Permutation_nil in Hp. congruence.
  - destruct l2 as [|b l2].
    + symmetry in Hp. apply Permutation_nil in Hp. discriminate.
    + inversion H1 as [|? ? H1' Ha]; subst.
      inversion H2 as [|? ? H2' Hb]; subst.
      assert (Hab : a = b).
      { assert (Hina : In a (b :: l2))
          by (eapply Permutation_in; [exact Hp | left; reflexivity]).
        assert (Hinb : In b (a :: l1))
          by (eapply Permutation_in; [symmetry; exact Hp | left; reflexivity]).
        destruct Hina as [-> | Hina]; [reflexivity|].
        destruct Hinb as [-> | Hinb]; [reflexivity|].
        rewrite List.Forall_forall in Ha, Hb.
        specialize (Ha b Hinb). specialize (Hb a Hina).
        unfold key_lt in *. lia. }
      subst b. f_equal. apply IH; auto.
      eapply Permutation_cons_inv; exact Hp.
Qed.

Lemma sorted_by_key_permutation (l1 l2 : list audio_entry) :
  Permutation l1 l2 -> List.NoDup (map sort_key l1) ->
  sorted_by_key l1 = sorted_by_key l2.
Proof.
  intros Hp Hnd.
  assert (Hp12 : Permutation (sorted_by_key l1) (sorted_by_key l2))
    by (rewrite !sorted_by_key_perm; exact Hp).
  apply strictly_sorted_unique; [| |exact Hp12].
  - apply strictly_sorted_of_distinct_keys; [apply sorted_by_key_sorted|].
    eapply Permutation_NoDup; [|exact Hnd].
    apply Permutation_map. symmetry. apply sorted_by_key_perm.
  - apply strictly_sorted_of_distinct_keys; [apply sorted_by_key_sorted|].
    eapply Permutation_NoDup; [|exact Hnd].
    apply Permutation_map. rewrite sorted_by_key_perm. exact Hp.
Qed.

Lemma get_level_info_at (before after : list level_record) (r : level_record)
    (name : string) :
  get_level_info (Some (before ++ r :: after)) name
  = match List.find (fun file_info =>
                       String.eqb (Text.upper (level_name file_info)) (Text.upper name))
                    before with
    | Some hit => Some hit
    | None =>
        if String.eqb (Text.upper (level_name r)) (Text.upper name) then Some r
        else get_level_info (Some after) name
    end.
Proof.
  unfold get_level_info. induction before as [|x before IH]; cbn [app List.find].
  - reflexivity.
  - destruct (String.eqb (Text.upper (level_name x)) (Text.upper name));
      [reflexivity | exact IH].
Qed.

(** C9.  Two level records that differ only in the order of their stored
    references, the sort keys being pairwise distinct, are sorted into the
    same list, and so give the same outcome (for every fuel: the same
    buffer, the same failure, or no return in both), also when they stand
    at the same place of the extraction data. *)
Theorem generate_invariant_under_permutation
    (fuel : nat) (r1 r2 : level_record) (target : Z) :
  level_name r1 = level_name r2 ->
  audio_count r1 = audio_count r2 ->
  Permutation (audio_files r1) (audio_files r2) ->
  List.NoDup (map sort_key (audio_files r1)) ->
  sorted_by_key (audio_files r1) = sorted_by_key (audio_files r2)
  /\ generate_for_level load_audio_file fuel r1 target
     = generate_for_level load_audio_file fuel r2 target
  /\ forall before after name,
       generate_level_music load_audio_file fuel
                            (Some (before ++ r1 :: after)) name target
       = generate_level_music load_audio_file fuel
                              (Some (before ++ r2 :: after)) name target.
Proof.
  intros Hname Hcount Hp Hnd.
  pose proof (sorted_by_key_permutation _ _ Hp Hnd) as Hs.
  assert (Hg : generate_for_level load_audio_file fuel r1 target
               = generate_for_level load_audio_file fuel r2 target).
  { unfold generate_for_level. rewrite Hcount, Hs. reflexivity. }
  split; [exact Hs|]. split; [exact Hg|].
  intros before after name. unfold generate_level_music.
  rewrite !get_level_info_at, Hname.
  destruct (List.find _ before); [reflexivity|].
  destruct (String.eqb _ _); [exact Hg | reflexivity].
Qed.

End StoredOrder.

Lemma generate_invariant_under_permutation_witness :
  Generator.generate_for_level
    (fun name => if String.eqb name "1RHYTH.WAV" then Some [(1 # 2); (1 # 4)]%Q
                 else if String.eqb name "ARHYTH.WAV" then Some [(-1 # 8)]%Q
                 else None)
    3
    {| Generator.level_name := "ONESONG.ELV"; Generator.audio_count := 2;
       Generator.level_title := None;
       Generator.audio_files :=
         [ {| Generator.filename := "ARHYTH.WAV";
              Generator.sequence_position := Some 1%nat;
              Generator.file_type := Some "letter_rhythm" |};
           {| Generator.filename := "1RHYTH.WAV";
              Generator.sequence_position := Some 0%nat;
              Generator.file_type := Some "numbered_rhythm" |} ] |}
    4
  = Generator.generate_for_level
      (fun name => if String.eqb name "1RHYTH.WAV" then Some [(1 # 2); (1 # 4)]%Q
                   else if String.eqb name "ARHYTH.WAV" then Some [(-1 # 8)]%Q
                   else None)
      3
      {| Generator.level_name := "ONESONG.ELV"; Generator.audio_count := 2;
         Generator.level_title := None;
         Generator.audio_files :=
           [ {| Generator.filename := "1RHYTH.WAV";
                Generator.sequence_position := Some 0%nat;
                Generator.file_type := Some "numbered_rhythm" |};
             {| Generator.filename := "ARHYTH.WAV";
                Generator.sequence_position := Some 1%nat;
                Generator.file_type := Some "letter_rhythm" |} ] |}
      4.
Proof.
  apply generate_invariant_under_permutation.
  - reflexivity.
  - reflexivity.
  - apply perm_swap.
  - cbn. repeat constructor; cbn; intuition discriminate.
Defined.

(** ** Matches of the catalog *)

Section Matching.
Import Text Re.

Lemma match_here_plus_cons (ic : bool) (a : atom) (rest : regex) (c : ascii)
    (s : string) :
  match_here ic (Plus a :: rest) (String c s)
  = if atom_match ic a c then
      match match_here ic (Plus a :: rest) s with
      | Some n => Some (S n)
      | None => option_map S (match_here ic rest s)
      end
    else None.
Proof. reflexivity. Qed.

Lemma match_here_plus_nil (ic : bool) (a : atom) (rest : regex) :
  match_here ic (Plus a :: rest) EmptyString = None.
Proof. reflexivity. Qed.

Lemma match_here_one_cons (ic : bool) (a : atom) (rest : regex) (c : ascii)
    (s : string) :
  match_here ic (One a :: rest) (String c s)
  = if atom_match ic a c then option_map S (match_here ic rest s) else None.
Proof. reflexivity. Qed.

Lemma isdigit_not_v (c : ascii) : isdigit c = true -> is_v c = false.
Proof.
  destruct c as [[] [] [] [] [] [] [] []]; vm_compute; congruence.
Qed.

Lemma v_free_not_v (a : atom) (c : ascii) :
  v_free a = true -> atom_match true a c = true -> is_v c = false.
Proof.
  destruct a as [x | | lo hi]; cbn [v_free atom_match].
  - intros Hx Hc. apply Ascii.eqb_eq in Hc.
    unfold is_v in *. rewrite Hc. apply negb_true_iff, Hx.
  - intros _. apply isdigit_not_v.
  - discriminate.
Qed.

(** A match of a pattern that ends in [v] and is otherwise free of it
    stops right after the first [v] of the text. *)
Lemma match_ends_in_v (re : regex) :
  ends_in_v re = true ->
  forall s n, match_here true re s = Some n -> n = S (index_v s).
Proof.
  induction re as [|p rest IH]; [discriminate|].
  destruct rest as [|q rest'].
  - destruct p as [[x | | lo hi] | a |]; cbn [ends_in_v]; try discriminate.
    intros Hx [|c s] n; [discriminate|].
    rewrite match_here_one_cons. cbn [atom_match match_here option_map].
    destruct (Ascii.eqb (ascii_lower c) (ascii_lower x)) eqn:Hc; [|discriminate].
    intros [= <-]. cbn [index_v].
    apply Ascii.eqb_eq in Hc. unfold is_v in *. rewrite Hc, Hx. reflexivity.
  - change (ends_in_v (p :: q :: rest'))
      with (match p with One a | Plus a => v_free a | EndAnchor => false end
            && ends_in_v (q :: rest')).
    intros H. apply andb_true_iff in H. destruct H as [Hp Hrest].
    specialize (IH Hrest).
    destruct p as [a | a |]; [| |discriminate].
    + intros [|c s] n; [discriminate|].
      rewrite match_here_one_cons.
      destruct (atom_match true a c) eqn:Hc; [|discriminate].
      destruct (match_here true (q :: rest') s) as [n'|] eqn:Hn'; [|discriminate].
      intros [= <-]. cbn [index_v].
      rewrite (v_free_not_v a c Hp Hc). f_equal. apply IH, Hn'.
    + intros s. induction s as [|c s IHs]; intros n; [discriminate|].
      rewrite match_here_plus_cons.
      destruct (atom_match true a c) eqn:Hc; [|discriminate].
      cbn [index_v]. rewrite (v_free_not_v a c Hp Hc).
      destruct (match_here true (Plus a :: q :: rest') s) as [n'|] eqn:Hn'.
      * intros [= <-]. f_equal. apply IHs. reflexivity.
      * destruct (match_here true (q :: rest') s) as [n'|] eqn:Hn''; [|discriminate].
        intros [= <-]. f_equal. apply IH, Hn''.
Qed.

(** A match of a catalog pattern takes its first character and then runs
    to the first [v] after it: its length depends on the text alone. *)
Lemma catalog_match_length (re : regex) (s : string) (n : nat) :
  catalog_shape re = true ->
  match_here true re s = Some n ->
  exists c s', s = String c s' /\ n = S (S (index_v s')).
Proof.
  destruct re as [|[a | a |] rest]; cbn [catalog_shape]; try discriminate.
  - intros Hrest. destruct s as [|c s']; [discriminate|].
    rewrite match_here_one_cons.
    destruct (atom_match true a c); [|discriminate].
    destruct (match_here true rest s') as [n'|] eqn:Hn'; [|discriminate].
    intros [= <-]. exists c, s'. split; [reflexivity|].
    f_equal. eapply match_ends_in_v; eassumption.
  - intros H. apply andb_true_iff in H. destruct H as [Ha Hrest].
    destruct s as [|c s']; [discriminate|].
    intros Hn. exists c, s'. split; [reflexivity|].
    assert (Hall : ends_in_v (Plus a :: rest) = true).
    { destruct rest as [|q rest']; [discriminate|].
      change (v_free a && ends_in_v (q :: rest') = true).
      rewrite Ha, Hrest. reflexivity. }
    pose proof (match_ends_in_v _ Hall _ _ Hn) as Hlen.
    rewrite match_here_plus_cons in Hn.
    destruct (atom_match true a c) eqn:Hc; [|discriminate].
    cbn [index_v] in Hlen. rewrite (v_free_not_v a c Ha Hc) in Hlen.
    exact Hlen.
Qed.

Lemma audio_patterns_shape :
  forallb catalog_shape Extractor.audio_patterns = true.
Proof. reflexivity. Qed.

(** What [finditer] records: a position of the text and the text that the
    pattern matches there. *)
Lemma finditer_from_In (ic : bool) (re : regex) (s : string) :
  forall pos skip p m,
    In (p, m) (finditer_from ic re s pos skip) ->
    exists k n,
      p = pos + k
      /\ match_here ic re (str_drop k s) = Some n
      /\ m = str_take n (str_drop k s).
Proof.
  induction s as [|c s IH]; intros pos skip p m; cbn [finditer_from]; [easy|].
  assert (Hrec : forall skip',
             In (p, m) (finditer_from ic re s (S pos) skip') ->
             exists k n,
               p = pos + k
               /\ match_here ic re (str_drop k (String c s)) = Some n
               /\ m = str_take n (str_drop k (String c s))).
  { intros skip' H. apply IH in H. destruct H as (k & n & -> & Hm & ->).
    exists (S k), n. cbn [str_drop]. repeat split; auto; lia. }
  destruct skip as [|skip]; [|apply Hrec].
  destruct (match_here ic re (String c s)) as [n|] eqn:Hn; [|apply Hrec].
  intros [H | H]; [|eapply Hrec; exact H].
  injection H as <- <-. exists 0, n. cbn [str_drop].
  repeat split; auto.
Qed.

(** Every recorded match is the upper-cased text of a catalog pattern's
    match at the recorded position of the decoded text. *)
Lemma all_matches_In (text : string) (name : string) (p : nat) :
  In (name, p) (Extractor.all_matches text) ->
  exists re n,
    In re Extractor.audio_patterns
    /\ match_here true re (str_drop p text) = Some n
    /\ name = upper (str_take n (str_drop p text)).
Proof.
  unfold Extractor.all_matches, Extractor.matches_of. intros H.
  apply in_flat_map in H. destruct H as (re & Hre & H).
  apply in_map_iff in H. destruct H as ([q m] & Heq & H).
  cbn [fst snd] in Heq. injection Heq as <- <-.
  apply finditer_from_In in H. destruct H as (k & n & -> & Hn & ->).
  exists re, n. repeat split; auto.
Qed.

(** Two recorded matches at the same position carry the same name. *)
Lemma all_matches_same_position (text : string) (n1 n2 : string) (p : nat) :
  In (n1, p) (Extractor.all_matches text) ->
  In (n2, p) (Extractor.all_matches text) ->
  n1 = n2.
Proof.
  intros H1 H2.
  apply all_matches_In in H1, H2.
  destruct H1 as (re1 & k1 & Hre1 & Hm1 & ->).
  destruct H2 as (re2 & k2 & Hre2 & Hm2 & ->).
  pose proof audio_patterns_shape as Hshape.
  rewrite forallb_forall in Hshape.
  apply catalog_match_length in Hm1; [|apply Hshape, Hre1].
  apply catalog_match_length in Hm2; [|apply Hshape, Hre2].
  destruct Hm1 as (c1 & s1 & E1 & ->). destruct Hm2 as (c2 & s2 & E2 & ->).
  rewrite E1 in E2. injection E2 as <- <-. reflexivity.
Qed.

End Matching.

(** ** The extracted sequence *)

Section Sequence.
Import Text Re Extractor.

Lemma insert_by_offset_perm (x : string * nat) (l : list (string * nat)) :
  Permutation (insert_by_offset x l) (x :: l).
Proof.
  induction l as [|y l IH]; cbn [insert_by_offset]; [reflexivity|].
  destruct (snd x <=? snd y)%nat; [reflexivity|].
  rewrite IH. apply perm_swap.
Qed.

Lemma sort_by_offset_perm (l : list (string * nat)) :
  Permutation (sort_by_offset l) l.
Proof.
  induction l as [|x l IH]; cbn [sort_by_offset]; [reflexivity|].
  rewrite insert_by_offset_perm. apply perm_skip, IH.
Qed.

Lemma insert_by_offset_sorted (x : string * nat) (l : list (string * nat)) :
  StronglySorted offset_le l -> StronglySorted offset_le (insert_by_offset x l).
Proof.
  induction 1 as [|y l Hl IH Hy]; cbn [insert_by_offset].
  - repeat constructor.
  - destruct (Nat.leb_spec (snd x) (snd y)) as [Hxy | Hyx].
    + constructor; [constructor; assumption|].
      constructor; [exact Hxy|].
      eapply List.Forall_impl; [|exact Hy]. unfold offset_le. intros z Hz. lia.
    + constructor; [exact IH|].
      eapply Permutation_Forall; [symmetry; apply insert_by_offset_perm|].
      constructor; [unfold offset_le; lia | exact Hy].
Qed.

Lemma sort_by_offset_sorted (l : list (string * nat)) :
  StronglySorted offset_le (sort_by_offset l).
Proof.
  induction l as [|x l IH]; cbn [sort_by_offset]; [constructor|].
  apply insert_by_offset_sorted, IH.
Qed.

Lemma keep_first_cons (seen : gset string) (name : string) (p : nat)
    (ms : list (string * nat)) :
  keep_first seen ((name, p) :: ms)
  = if negb (bool_decide (name ∈ seen)) && (4 <? String.length name)%nat
    then (name, p) :: keep_first ({[name]} ∪ seen) ms
    else keep_first seen ms.
Proof. reflexivity. Qed.

Lemma keep_first_In (ms : list (string * nat)) :
  forall (seen : gset string) (name : string) (p : nat),
    In (name, p) (keep_first seen ms) ->
    In (name, p) ms /\ (name ∉ seen) /\ (4 < String.length name)%nat.
Proof.
  induction ms as [|[g r] ms IH]; intros seen name p; [easy|].
  rewrite keep_first_cons.
  destruct (negb (bool_decide (g ∈ seen)) && (4 <? String.length g)%nat) eqn:E.
  - apply andb_true_iff in E. destruct E as [Hg Hlen].
    apply negb_true_iff, bool_decide_eq_false in Hg. apply Nat.ltb_lt in Hlen.
    intros [H | H].
    + injection H as <- <-. split; [left; reflexivity | split; assumption].
    + apply IH in H. destruct H as (Hin & Hseen & Hl).
      apply not_elem_of_union in Hseen.
      split; [right; exact Hin | split; [apply Hseen | exact Hl]].
  - intros H. apply IH in H. destruct H as (Hin & Hseen & Hl).
    split; [right; exact Hin | split; assumption].
Qed.

Lemma keep_first_NoDup (ms : list (string * nat)) :
  forall seen : gset string, List.NoDup (map fst (keep_first seen ms)).
Proof.
  induction ms as [|[g r] ms IH]; intros seen; [constructor|].
  rewrite keep_first_cons.
  destruct (negb (bool_decide (g ∈ seen)) && (4 <? String.length g)%nat);
    [|apply IH].
  cbn [map fst]. constructor; [|apply IH].
  intros H. apply in_map_iff in H. destruct H as ([g' p] & Hg & H).
  cbn [fst] in Hg. subst g'. apply keep_first_In in H.
  destruct H as (_ & Hseen & _). set_solver.
Qed.

Lemma keep_first_Forall (P : string * nat -> Prop) (ms : list (string * nat)) :
  forall seen : gset string, Forall P ms -> Forall P (keep_first seen ms).
Proof.
  induction ms as [|[g r] ms IH]; intros seen H; [constructor|].
  rewrite keep_first_cons. inversion H; subst.
  destruct (negb (bool_decide (g ∈ seen)) && (4 <? String.length g)%nat).
  - constructor; [assumption | apply IH; assumption].
  - apply IH; assumption.
Qed.

Lemma keep_first_sorted (ms : list (string * nat)) :
  forall seen : gset string,
    StronglySorted offset_le ms -> StronglySorted offset_le (keep_first seen ms).
Proof.
  induction ms as [|[g r] ms IH]; intros seen H; [constructor|].
  rewrite keep_first_cons. inversion H; subst.
  destruct (negb (bool_decide (g ∈ seen)) && (4 <? String.length g)%nat).
  - constructor; [apply IH; assumption | apply keep_first_Forall; assumption].
  - apply IH; assumption.
Qed.

(** A kept entry stands at the lowest offset of its name. *)
Lemma keep_first_lowest (ms : list (string * nat)) :
  forall (seen : gset string) (name : string) (p q : nat),
    StronglySorted offset_le ms ->
    In (name, p) (keep_first seen ms) -> In (name, q) ms -> p <= q.
Proof.
  induction ms as [|[g r] ms IH]; intros seen name p q Hs; [easy|].
  rewrite keep_first_cons. inversion Hs as [|? ? Hs' Hall]; subst.
  rewrite List.Forall_forall in Hall.
  destruct (negb (bool_decide (g ∈ seen)) && (4 <? String.length g)%nat) eqn:E.
  - intros [H | H] Hq.
    + injection H as <- <-.
      destruct Hq as [Hq | Hq]; [injection Hq as <-; lia|].
      apply (Hall _ Hq).
    + pose proof (keep_first_In _ _ _ _ H) as (_ & Hseen & _).
      destruct Hq as [Hq | Hq]; [injection Hq as <- <-; set_solver|].
      eapply IH; eassumption.
  - intros H Hq.
    pose proof (keep_first_In _ _ _ _ H) as (_ & Hseen & Hlen).
    destruct Hq as [Hq | Hq]; [|eapply IH; eassumption].
    injection Hq as <- <-. exfalso.
    apply andb_false_iff in E. destruct E as [E | E].
    + apply negb_false_iff, bool_decide_eq_true in E. contradiction.
    + apply Nat.ltb_ge in E. lia.
Qed.

(** A matched name that passes the filter is kept. *)
Lemma keep_first_complete (ms : list (string * nat)) :
  forall (seen : gset string) (name : string) (q : nat),
    In (name, q) ms -> name ∉ seen -> (4 < String.length name)%nat ->
    In name (map fst (keep_first seen ms)).
Proof.
  induction ms as [|[g r] ms IH]; intros seen name q Hq Hseen Hlen; [easy|].
  rewrite keep_first_cons.
  destruct (negb (bool_decide (g ∈ seen)) && (4 <? String.length g)%nat) eqn:E.
  - cbn [map fst]. destruct (String.eqb_spec g name) as [-> | Hne].
    + left. reflexivity.
    + right. destruct Hq as [Hq | Hq]; [congruence|].
      eapply IH; [exact Hq | | exact Hlen].
      apply not_elem_of_union. split; [|exact Hseen].
      apply not_elem_of_singleton. congruence.
  - destruct Hq as [Hq | Hq]; [|eapply IH; eassumption].
    injection Hq as -> ->. exfalso.
    apply andb_false_iff in E. destruct E as [E | E].
    + apply negb_false_iff, bool_decide_eq_true in E. contradiction.
    + apply Nat.ltb_ge in E. lia.
Qed.

Lemma strictly_increasing_offsets (l : list (string * nat)) :
  StronglySorted offset_le l ->
  List.NoDup (map fst l) ->
  (forall a b, In a l -> In b l -> snd a = snd b -> fst a = fst b) ->
  StronglySorted lt (map snd l).
Proof.
  induction 1 as [|x l Hl IH Hx]; intros Hnd Hsame; [constructor|].
  cbn [map] in *. inversion Hnd as [|? ? Hnotin Hnd']; subst.
  constructor.
  - apply IH; [exact Hnd'|]. intros a b Ha Hb. apply Hsame; right; assumption.
  - rewrite List.Forall_forall in *. intros o Ho.
    apply in_map_iff in Ho. destruct Ho as (y & <- & Hy).
    specialize (Hx y Hy). unfold offset_le in Hx.
    assert (snd x <> snd y).
    { intros E. apply Hnotin. rewrite (Hsame x y); auto.
      - apply in_map, Hy.
      - left; reflexivity.
      - right; exact Hy. }
    lia.
Qed.

Lemma build_audio_files_fields (available : gset string)
    (audio_sequence : list (string * nat)) :
  forall start,
    map filename (build_audio_files available start audio_sequence)
    = map fst audio_sequence
    /\ map binary_offset (build_audio_files available start audio_sequence)
       = map snd audio_sequence
    /\ map sequence_position (build_audio_files available start audio_sequence)
       = List.seq start (length audio_sequence)
    /\ length (build_audio_files available start audio_sequence)
       = length audio_sequence.
Proof.
  induction audio_sequence as [|[name p] rest IH]; intros start.
  - repeat split.
  - cbn [build_audio_files].
    destruct (_check_audio_file_exists_set available name) as [found alternative].
    destruct (IH (S start)) as (H1 & H2 & H3 & H4).
    cbn [map length List.seq filename binary_offset sequence_position fst snd].
    rewrite H1, H2, H3, H4. repeat split.
Qed.

Lemma In_build_audio_files (available : gset string)
    (audio_sequence : list (string * nat)) (r : ELVAudioInfo) :
  forall start,
    In r (build_audio_files available start audio_sequence) ->
    In (filename r, binary_offset r) audio_sequence.
Proof.
  induction audio_sequence as [|[name p] rest IH]; intros start; [easy|].
  cbn [build_audio_files].
  destruct (_check_audio_file_exists_set available name) as [found alternative].
  intros [<- | H]; [left; reflexivity | right; eapply IH; exact H].
Qed.

(** C3.  For every blob, the references built from the extracted
    sequence have positions 0, 1, ..., n-1 in list order, strictly
    increasing offsets, and pairwise different names; each stands at the
    lowest recorded offset of its name; every recorded name longer than
    four characters is among them; and they are the [audio_files] of the
    parsed level. *)
Theorem extracted_sequence_invariants (available : gset string) (data : list byte) :
  let recorded := all_matches (decode_ascii_ignore data) in
  let refs := build_audio_files available 0 (_extract_audio_sequence_from_data data) in
  map sequence_position refs = List.seq 0 (length refs)
  /\ StronglySorted lt (map binary_offset refs)
  /\ List.NoDup (map filename refs)
  /\ (forall r,
        In r refs ->
        In (filename r, binary_offset r) recorded
        /\ (4 < String.length (filename r))%nat
        /\ forall q, In (filename r, q) recorded -> binary_offset r <= q)
  /\ (forall name q,
        In (name, q) recorded -> (4 < String.length name)%nat ->
        In name (map filename refs))
  /\ (forall now path,
        bad_header data = false ->
        audio_files (parse_elv_file available now path (Contents data)) = refs).
Proof.
  cbv zeta. unfold _extract_audio_sequence_from_data.
  set (recorded := all_matches (decode_ascii_ignore data)).
  set (sorted := sort_by_offset recorded).
  set (kept := keep_first ∅ sorted).
  destruct (build_audio_files_fields available kept 0) as (Hn & Ho & Hp & Hlen).
  assert (Hsorted : StronglySorted offset_le sorted) by apply sort_by_offset_sorted.
  assert (Hperm : Permutation sorted recorded) by apply sort_by_offset_perm.
  assert (Hkept : forall name p, In (name, p) kept -> In (name, p) recorded).
  { intros name p H. apply keep_first_In in H. destruct H as (H & _).
    eapply Permutation_in; eassumption. }
  split; [|split; [|split; [|split; [|split]]]].
  - rewrite Hp, Hlen. reflexivity.
  - rewrite Ho. apply strictly_increasing_offsets.
    + apply keep_first_sorted, Hsorted.
    + apply keep_first_NoDup.
    + intros [n1 p1] [n2 p2] H1 H2. cbn [fst snd]. intros <-.
      eapply all_matches_same_position; apply Hkept; eassumption.
  - rewrite Hn. apply keep_first_NoDup.
  - intros r Hr. apply In_build_audio_files in Hr.
    pose proof (keep_first_In _ _ _ _ Hr) as (_ & _ & Hl).
    split; [apply Hkept, Hr|]. split; [exact Hl|].
    intros q Hq. eapply keep_first_lowest; [exact Hsorted | exact Hr |].
    eapply Permutation_in; [symmetry; exact Hperm | exact Hq].
  - intros name q Hq Hl. rewrite Hn.
    eapply keep_first_complete; [|set_solver | exact Hl].
    eapply Permutation_in; [symmetry; exact Hperm | exact Hq].
  - intros now path Hh. cbn. unfold parse_contents. rewrite Hh.
    destruct (extract_level_title data); reflexivity.
Qed.

Lemma extracted_sequence_invariants_witness :
  audio_files
    (parse_elv_file {[ "970RHYTH.WAV" ]} "2024-01-01T00:00:00" "ELVRL/ONESONG.ELV"
       (Contents (list_byte_of_string "ELVD" ++ [x03; x00; x00; x00; xff]
                  ++ list_byte_of_string "nosound.wav 6970RHYTH.WAV NOSOUND.WAV")))
  = build_audio_files {[ "970RHYTH.WAV" ]} 0
      (_extract_audio_sequence_from_data
         (list_byte_of_string "ELVD" ++ [x03; x00; x00; x00; xff]
          ++ list_byte_of_string "nosound.wav 6970RHYTH.WAV NOSOUND.WAV")).
Proof.
  apply (proj2 (proj2 (proj2 (proj2 (proj2
           (extracted_sequence_invariants
              {[ "970RHYTH.WAV" ]}
              (list_byte_of_string "ELVD" ++ [x03; x00; x00; x00; xff]
               ++ list_byte_of_string "nosound.wav 6970RHYTH.WAV NOSOUND.WAV")))))))
  .
  reflexivity.
Defined.

End Sequence.

(** * Further properties *)

(** ** Recorded names and offsets *)

Section Recorded.
Import Text Re Extractor.

Lemma match_here_le_length (ic : bool) (re : regex) :
  forall s n, match_here ic re s = Some n -> n <= String.length s.
Proof.
  induction re as [|p rest IH]; intros s n.
  - cbn [match_here]. intros [= <-]. lia.
  - destruct p as [a | a |].
    + destruct s as [|c s]; [discriminate|].
      rewrite match_here_one_cons.
      destruct (atom_match ic a c); [|discriminate].
      destruct (match_here ic rest s) as [n'|] eqn:Hn'; [|discriminate].
      intros [= <-]. cbn [String.length]. apply IH in Hn'. lia.
    + revert n. induction s as [|c s IHs]; intros n; [discriminate|].
      rewrite match_here_plus_cons.
      destruct (atom_match ic a c); [|discriminate].
      destruct (match_here ic (Plus a :: rest) s) as [n'|] eqn:Hn'.
      * intros [= <-]. cbn [String.length]. specialize (IHs n' eq_refl). lia.
      * destruct (match_here ic rest s) as [n'|] eqn:Hn''; [|discriminate].
        intros [= <-]. cbn [String.length]. apply IH in Hn''. lia.
    + cbn [match_here]. destruct (at_end s); [apply IH | discriminate].
Qed.

Lemma match_here_consuming (ic : bool) (re : regex) :
  forall s n, match_here ic re s = Some n -> consuming re <= n.
Proof.
  induction re as [|p rest IH]; intros s n.
  - cbn [match_here consuming]. intros [= <-]. lia.
  - destruct p as [a | a |]; cbn [consuming].
    + destruct s as [|c s]; [discriminate|].
      rewrite match_here_one_cons.
      destruct (atom_match ic a c); [|discriminate].
      destruct (match_here ic rest s) as [n'|] eqn:Hn'; [|discriminate].
      intros [= <-]. apply IH in Hn'. lia.
    + revert n. induction s as [|c s IHs]; intros n; [discriminate|].
      rewrite match_here_plus_cons.
      destruct (atom_match ic a c); [|discriminate].
      destruct (match_here ic (Plus a :: rest) s) as [n'|] eqn:Hn'.
      * intros [= <-]. specialize (IHs n' eq_refl). lia.
      * destruct (match_here ic rest s) as [n'|] eqn:Hn''; [|discriminate].
        intros [= <-]. apply IH in Hn''. lia.
    + cbn [match_here]. destruct (at_end s); [apply IH | discriminate].
Qed.

Lemma length_upper (s : string) : String.length (upper s) = String.length s.
Proof.
  unfold upper. induction s as [|c s IH]; cbn [str_map String.length]; congruence.
Qed.

Lemma length_str_drop (n : nat) (s : string) :
  String.length (str_drop n s) = String.length s - n.
Proof.
  revert s. induction n as [|n IH]; intros [|c s]; cbn [str_drop String.length];
    try reflexivity.
  apply IH.
Qed.

Lemma audio_patterns_consuming :
  forallb (fun re => (10 <=? consuming re)%nat) audio_patterns = true.
Proof. reflexivity. Qed.

(** A recorded name is the upper-cased text of [n] characters at the
    recorded position, with [n] at least 10. *)
Lemma all_matches_In_length (text : string) (name : string) (p : nat) :
  In (name, p) (all_matches text) ->
  10 <= String.length name
  /\ p + String.length name <= String.length text
  /\ name = upper (str_take (String.length name) (str_drop p text)).
Proof.
  intros H. apply all_matches_In in H. destruct H as (re & n & Hre & Hn & ->).
  pose proof audio_patterns_consuming as Hc. rewrite forallb_forall in Hc.
  specialize (Hc re Hre). apply Nat.leb_le in Hc.
  pose proof (match_here_consuming _ _ _ _ Hn) as Hmin.
  pose proof (match_here_le_length _ _ _ _ Hn) as Hmax.
  rewrite length_str_drop in Hmax.
  rewrite length_upper, length_str_take, length_str_drop.
  replace (Nat.min n (String.length text - p)) with n by lia.
  repeat split; try lia.
Qed.

(** X1.  The test [len(filename) > 4] of the extraction loop never rejects a
    recorded match: every recorded name has at least 10 characters, and
    every recorded name is in the extracted sequence. *)
Theorem length_filter_keeps_every_match (data : list byte) (name : string) (q : nat) :
  In (name, q) (all_matches (decode_ascii_ignore data)) ->
  10 <= String.length name
  /\ In name (map fst (_extract_audio_sequence_from_data data)).
Proof.
  intros H. pose proof (all_matches_In_length _ _ _ H) as (Hlen & _).
  split; [exact Hlen|].
  unfold _extract_audio_sequence_from_data.
  eapply keep_first_complete; [|set_solver | lia].
  eapply Permutation_in; [symmetry; apply sort_by_offset_perm | exact H].
Qed.

Lemma length_filter_keeps_every_match_witness :
  10 <= String.length "NOSOUND.WAV"
  /\ In "NOSOUND.WAV"
        (map fst (_extract_audio_sequence_from_data
                    (list_byte_of_string "ELVD....a nosound.wav b"))).
Proof.
  apply (length_filter_keeps_every_match
           (list_byte_of_string "ELVD....a nosound.wav b") "NOSOUND.WAV" 10).
  vm_compute. left. reflexivity.
Defined.

Lemma str_drop_of_bytes (n : nat) (l : list byte) :
  str_drop n (string_of_list_byte l) = string_of_list_byte (skipn n l).
Proof.
  unfold string_of_list_byte.
  revert l. induction n as [|n IH]; intros [|b l]; cbn; try reflexivity.
  apply IH.
Qed.

Lemma str_take_of_bytes (n : nat) (l : list byte) :
  str_take n (string_of_list_byte l) = string_of_list_byte (firstn n l).
Proof.
  unfold string_of_list_byte.
  revert l. induction n as [|n IH]; intros [|b l]; cbn; try reflexivity.
  f_equal. apply IH.
Qed.

Lemma length_of_bytes (l : list byte) :
  String.length (string_of_list_byte l) = length l.
Proof.
  unfold string_of_list_byte. induction l as [|b l IH]; cbn; congruence.
Qed.

(** X2.  On a blob without a byte of 128 or more, an entry of the extracted
    sequence stands at a byte offset of the blob: the bytes from that
    offset, as many as the name is long, lie inside the blob and read as
    the name once upper-cased. *)
Theorem ascii_blob_offsets_are_byte_offsets
    (data : list byte) (name : string) (p : nat) :
  forallb is_ascii_byte data = true ->
  In (name, p) (_extract_audio_sequence_from_data data) ->
  p + String.length name <= length data
  /\ name = upper (string_of_list_byte
                     (firstn (String.length name) (skipn p data))).
Proof.
  intros Hascii H. unfold _extract_audio_sequence_from_data in H.
  apply keep_first_In in H. destruct H as (H & _ & _).
  eapply Permutation_in in H; [|apply sort_by_offset_perm].
  apply all_matches_In_length in H. destruct H as (_ & Hin & Hname).
  rewrite decode_ascii_ignore_of_ascii in * by exact Hascii.
  rewrite length_of_bytes in Hin.
  rewrite str_drop_of_bytes, str_take_of_bytes in Hname.
  split; assumption.
Qed.

Lemma ascii_blob_offsets_are_byte_offsets_witness :
  10 + String.length "NOSOUND.WAV"
  <= length (list_byte_of_string "ELVD....a nosound.wav b")
  /\ "NOSOUND.WAV"
     = upper (string_of_list_byte
                (firstn (String.length "NOSOUND.WAV")
                        (skipn 10 (list_byte_of_string "ELVD....a nosound.wav b")))).
Proof.
  apply (ascii_blob_offsets_are_byte_offsets
           (list_byte_of_string "ELVD....a nosound.wav b") "NOSOUND.WAV" 10).
  - reflexivity.
  - vm_compute. left. reflexivity.
Defined.

End Recorded.

(** ** References, inventory and categories *)

Section References.
Import Text Re Extractor.

Lemma ascii_upper_idempotent (c : ascii) : ascii_upper (ascii_upper c) = ascii_upper c.
Proof. destruct c as [[] [] [] [] [] [] [] []]; reflexivity. Qed.

Lemma upper_idempotent (s : string) : upper (upper s) = upper s.
Proof.
  unfold upper. induction s as [|c s IH]; cbn [str_map]; [reflexivity|].
  rewrite ascii_upper_idempotent, IH. reflexivity.
Qed.

Lemma check_set_cases (available : gset string) (name : string) :
  _check_audio_file_exists_set available name
  = if bool_decide (upper name ∈ available) then (true, Some (upper name))
    else if fallback_applies name
              && bool_decide (upper (str_drop 1 name) ∈ available)
         then (true, Some (upper (str_drop 1 name)))
         else (false, None).
Proof.
  unfold _check_audio_file_exists_set.
  destruct (bool_decide (upper name ∈ available)); [reflexivity|].
  destruct (fallback_applies name); [|reflexivity].
  cbv zeta. destruct (bool_decide _); reflexivity.
Qed.

Lemma stripped_name_differs (name : string) :
  fallback_applies name = true -> upper (str_drop 1 name) <> upper name.
Proof.
  intros Hf E. apply (f_equal String.length) in E.
  rewrite !length_upper, length_str_drop in E.
  unfold fallback_applies in Hf. apply andb_true_iff in Hf.
  destruct Hf as [Hlen _]. apply Nat.ltb_lt in Hlen. lia.
Qed.

Lemma build_audio_files_cons (available : gset string) (start : nat)
    (name : string) (p : nat) (rest : list (string * nat)) :
  build_audio_files available start ((name, p) :: rest)
  = {| filename := name;
       file_type := _classify_audio_file name;
       exists_in_rloops := fst (_check_audio_file_exists_set available name);
       sequence_position := start;
       binary_offset := p;
       alternative_found :=
         if bool_decide (snd (_check_audio_file_exists_set available name)
                         = Some (upper name))
         then None
         else snd (_check_audio_file_exists_set available name) |}
    :: build_audio_files available (S start) rest.
Proof.
  cbn [build_audio_files].
  destruct (_check_audio_file_exists_set available name); reflexivity.
Qed.

Lemma resolution_of_entry (available : gset string) (name : string) :
  (fst (_check_audio_file_exists_set available name) = true <->
   upper name ∈ available
   \/ (fallback_applies name = true /\ upper (str_drop 1 name) ∈ available))
  /\ (forall a,
        (if bool_decide (snd (_check_audio_file_exists_set available name)
                         = Some (upper name))
         then None
         else snd (_check_audio_file_exists_set available name)) = Some a <->
        (upper name ∉ available)
        /\ fallback_applies name = true
        /\ a = upper (str_drop 1 name)
        /\ a ∈ available).
Proof.
  rewrite check_set_cases.
  destruct (bool_decide (upper name ∈ available)) eqn:Hd.
  - apply bool_decide_eq_true in Hd. cbn [fst snd].
    rewrite bool_decide_eq_true_2 by reflexivity.
    split.
    + split; [intros _; left; exact Hd | reflexivity].
    + intros a. split; [discriminate|]. intros (Hn & _). contradiction.
  - apply bool_decide_eq_false in Hd.
    destruct (fallback_applies name) eqn:Hf; cbn [andb].
    + destruct (bool_decide (upper (str_drop 1 name) ∈ available)) eqn:Ha.
      * apply bool_decide_eq_true in Ha. cbn [fst snd].
        rewrite bool_decide_eq_false_2
          by (intros [= E]; exact (stripped_name_differs name Hf E)).
        split.
        -- split; [intros _; right; split; [reflexivity | exact Ha] | reflexivity].
        -- intros a. split.
           ++ intros [= <-]. repeat split; assumption.
           ++ intros (_ & _ & -> & _). reflexivity.
      * apply bool_decide_eq_false in Ha. cbn [fst snd].
        rewrite bool_decide_eq_false_2 by discriminate.
        split.
        -- split; [discriminate|]. intros [H | [_ H]]; contradiction.
        -- intros a. split; [discriminate|].
           intros (_ & _ & -> & H). contradiction.
    + cbn [fst snd]. rewrite bool_decide_eq_false_2 by discriminate.
      split.
      * split; [discriminate|]. intros [H | [H _]]; [contradiction | discriminate].
      * intros a. split; [discriminate|]. intros (_ & H & _). discriminate.
Qed.

(** X3.  How a reference of the parsed level is resolved: it counts as
    existing exactly when its upper-cased name, or, for a name longer than
    four characters that starts with a digit, the name without that digit,
    is in the inventory; and [alternative_found] is set exactly when the
    name itself is missing and the shortened name is there, to that
    shortened name.  Its category is the classifier's. *)
Theorem reference_resolution (available : gset string)
    (audio_sequence : list (string * nat)) (r : ELVAudioInfo) :
  forall start,
    In r (build_audio_files available start audio_sequence) ->
    file_type r = _classify_audio_file (filename r)
    /\ (exists_in_rloops r = true <->
        upper (filename r) ∈ available
        \/ (fallback_applies (filename r) = true
            /\ upper (str_drop 1 (filename r)) ∈ available))
    /\ (forall a,
          alternative_found r = Some a <->
          (upper (filename r) ∉ available)
          /\ fallback_applies (filename r) = true
          /\ a = upper (str_drop 1 (filename r))
          /\ a ∈ available).
Proof.
  induction audio_sequence as [|[name p] rest IH]; intros start; [easy|].
  rewrite build_audio_files_cons.
  intros [<- | H]; [|eapply IH; exact H].
  cbn [file_type filename exists_in_rloops alternative_found].
  split; [reflexivity|]. apply resolution_of_entry.
Qed.

Lemma reference_resolution_witness :
  file_type
    {| filename := "6970RHYTH.WAV"; file_type := "numbered_rhythm";
       exists_in_rloops := true; sequence_position := 0; binary_offset := 12;
       alternative_found := Some "970RHYTH.WAV" |}
  = _classify_audio_file "6970RHYTH.WAV".
Proof.
  apply (reference_resolution {[ "970RHYTH.WAV" ]} [("6970RHYTH.WAV", 12%nat)]
           {| filename := "6970RHYTH.WAV"; file_type := "numbered_rhythm";
              exists_in_rloops := true; sequence_position := 0;
              binary_offset := 12;
              alternative_found := Some "970RHYTH.WAV" |}
           0).
  left. vm_compute. reflexivity.
Defined.

Lemma to_N_lt_256 (b : byte) : (Byte.to_N b < 256)%N.
Proof. pose proof (Byte.to_N_bounded b). lia. Qed.

(** X4.  What a parse leaves in the record: the parse succeeds exactly for a
    content of at least 8 bytes that starts with [ELVD]; then there is no
    error message, the size is the content's, the version is the
    little-endian value of bytes 4 and 5 and the title is the extracted
    one.  In every case the count is the number of references and the
    version is below 65536. *)
Theorem parse_elv_file_record (available : gset string) (now path : string)
    (fs : file_read) :
  let r := parse_elv_file available now path fs in
  (parse_success r = true <->
   exists file_data,
     fs = Contents file_data /\ 8 <= length file_data
     /\ firstn 4 file_data = ELVD)
  /\ audio_count r = length (audio_files r)
  /\ (elvd_version r < 65536)%N
  /\ (forall file_data,
        fs = Contents file_data -> bad_header file_data = false ->
        error_message r = None
        /\ file_size r = length file_data
        /\ elvd_version r
           = (Byte.to_N (nth 4 file_data x00)
              + 256 * Byte.to_N (nth 5 file_data x00))%N
        /\ level_title r = extract_level_title file_data).
Proof.
  cbv zeta.
  assert (Hbad : forall d, bad_header d = false <->
                           8 <= length d /\ firstn 4 d = ELVD).
  { intros d. pose proof (bad_header_spec d) as Hs.
    destruct (bad_header d).
    - split; [discriminate|]. intros [H1 H2].
      destruct (proj1 Hs eq_refl); [lia | contradiction].
    - split; [|reflexivity]. intros _.
      split.
      + destruct (Nat.le_gt_cases 8 (length d)) as [H | H]; [exact H|].
        assert (false = true) by (apply Hs; left; exact H). discriminate.
      + destruct (bytes_eqb (firstn 4 d) ELVD) eqn:E.
        * apply bytes_eqb_eq, E.
        * assert (false = true); [|discriminate].
          apply Hs. right. intros H. apply bytes_eqb_eq in H. congruence. }
  split; [|split; [|split]].
  - destruct fs as [|size msg|d]; cbn.
    + split; [discriminate|]. intros (? & ? & _). discriminate.
    + destruct size; cbn; (split; [discriminate|]);
        intros (? & ? & _); discriminate.
    + unfold parse_contents. destruct (bad_header d) eqn:Hb.
      * cbn. split; [discriminate|]. intros (d' & [= <-] & H).
        apply Hbad in H. congruence.
      * destruct (extract_level_title d); cbn;
          (split; [intros _; exists d; split; [reflexivity | apply Hbad, Hb]
                  | reflexivity]).
  - destruct fs as [|size msg|d]; cbn; [reflexivity | destruct size; reflexivity |].
    unfold parse_contents. destruct (bad_header d); [reflexivity|].
    destruct (extract_level_title d); reflexivity.
  - destruct fs as [|size msg|d]; cbn; [reflexivity | destruct size; reflexivity |].
    unfold parse_contents. destruct (bad_header d); [reflexivity|].
    assert (unpack_version d < 65536)%N.
    { unfold unpack_version.
      pose proof (to_N_lt_256 (nth 4 d x00)).
      pose proof (to_N_lt_256 (nth 5 d x00)). lia. }
    destruct (extract_level_title d); cbn; assumption.
  - intros d -> Hb. cbn. unfold parse_contents. rewrite Hb.
    destruct (extract_level_title d); cbn; repeat split.
Qed.

Lemma elem_of_cache (names : list string) :
  forall (acc : gset string) (x : string),
    x ∈ fold_left (fun available filename =>
                     if endswith (upper filename) ".WAV"
                     then {[upper filename]} ∪ available
                     else available)
                  names acc
    <-> x ∈ acc
        \/ exists f, In f names /\ endswith (upper f) ".WAV" = true /\ x = upper f.
Proof.
  induction names as [|g names IH]; intros acc x; cbn [fold_left].
  - split; [auto|]. intros [H | (f & [] & _)]. exact H.
  - rewrite IH. destruct (endswith (upper g) ".WAV") eqn:Hg.
    + rewrite elem_of_union, elem_of_singleton. split.
      * intros [[-> | H] | (f & Hf & He & ->)].
        -- right. exists g. repeat split; auto. left; reflexivity.
        -- left. exact H.
        -- right. exists f. repeat split; auto. right; exact Hf.
      * intros [H | (f & [<- | Hf] & He & ->)].
        -- left. right. exact H.
        -- left. left. reflexivity.
        -- right. exists f. repeat split; auto.
    + split.
      * intros [H | (f & Hf & He & ->)]; [left; exact H|].
        right. exists f. repeat split; auto. right; exact Hf.
      * intros [H | (f & [<- | Hf] & He & ->)]; [left; exact H | congruence |].
        right. exists f. repeat split; auto.
Qed.

(** X5.  The inventory built from a directory listing and the availability
    check over it: a listed file whose upper-cased name ends in [.WAV] is
    found under any spelling of its name that differs only in letter
    case; every name of the inventory is upper-case and ends in [.WAV];
    and without the directory nothing is found. *)
Theorem inventory_lookup_ignores_case (names : list string) :
  (forall f name,
     In f names -> endswith (upper f) ".WAV" = true -> upper name = upper f ->
     _check_audio_file_exists_set (_cache_available_audio_files (Some names)) name
     = (true, Some (upper f)))
  /\ (forall k,
        k ∈ _cache_available_audio_files (Some names) ->
        upper k = k /\ endswith k ".WAV" = true)
  /\ (forall name,
        _check_audio_file_exists_set (_cache_available_audio_files None) name
        = (false, None)).
Proof.
  split; [|split].
  - intros f name Hf He Hn. rewrite check_set_cases.
    rewrite bool_decide_eq_true_2; [rewrite Hn; reflexivity|].
    unfold _cache_available_audio_files. apply elem_of_cache.
    right. exists f. repeat split; auto.
  - intros k Hk. unfold _cache_available_audio_files in Hk.
    apply elem_of_cache in Hk. destruct Hk as [Hk | (f & _ & He & ->)].
    + exfalso. revert Hk. apply not_elem_of_empty.
    + split; [apply upper_idempotent | exact He].
  - intros name. rewrite check_set_cases. cbn [_cache_available_audio_files].
    rewrite bool_decide_eq_false_2 by apply not_elem_of_empty.
    rewrite bool_decide_eq_false_2 by apply not_elem_of_empty.
    rewrite andb_false_r. reflexivity.
Qed.

Lemma inventory_lookup_ignores_case_witness :
  _check_audio_file_exists_set
    (_cache_available_audio_files (Some ["readme.txt"; "1rhyth.wav"]))
    "1Rhyth.Wav"
  = (true, Some (upper "1rhyth.wav")).
Proof.
  apply (proj1 (inventory_lookup_ignores_case ["readme.txt"; "1rhyth.wav"])
           "1rhyth.wav" "1Rhyth.Wav").
  - right. left. reflexivity.
  - reflexivity.
  - reflexivity.
Defined.

End References.

(** ** The classifier *)

Section Classifier.
Import Text Re Extractor.

Lemma startswith_char (s : string) (c : ascii) :
  startswith s (String c EmptyString) = true <-> exists rest, s = String c rest.
Proof.
  unfold startswith. destruct s as [|b s]; cbn [String.prefix].
  - split; [discriminate | intros [rest H]; discriminate].
  - destruct (ascii_dec c b) as [-> | Hne].
    + split; [eauto | intros _; destruct s; reflexivity].
    + split; [discriminate | intros [rest [= E _]]; congruence].
Qed.

Lemma startswith_char_false (s : string) (c : ascii) :
  startswith s (String c EmptyString) = false <-> ~ exists rest, s = String c rest.
Proof.
  rewrite <- startswith_char.
  destruct (startswith s (String c EmptyString)); split; intros; congruence.
Qed.

Lemma classify_upper (name : string) :
  _classify_audio_file (upper name) = _classify_audio_file name.
Proof. unfold _classify_audio_file. rewrite upper_idempotent. reflexivity. Qed.

Lemma classify_rules (name : string) :
  (_classify_audio_file name = "silence" <-> upper name = "NOSOUND.WAV")
  /\ (_classify_audio_file name = "system" <->
      exists rest, upper name = String "!" rest)
  /\ (_classify_audio_file name = "special" <->
      exists rest, upper name = String "X" rest)
  /\ In (_classify_audio_file name)
        ["silence"; "system"; "special"; "letter_rhythm"; "numbered_rhythm";
         "unknown"].
Proof.
  unfold _classify_audio_file. set (u := upper name).
  destruct (String.eqb_spec u "NOSOUND.WAV") as [Hs | Hs].
  - split; [tauto|]. rewrite Hs.
    split; [split; [discriminate | intros [rest H]; discriminate]|].
    split; [split; [discriminate | intros [rest H]; discriminate]|].
    cbn; tauto.
  - destruct (startswith u "!") eqn:Hb.
    + apply startswith_char in Hb.
      split; [split; [discriminate | intros H; contradiction]|].
      split; [tauto|].
      split; [split; [discriminate|]|].
      * destruct Hb as [r1 H1]. intros [r2 H2]. rewrite H1 in H2. discriminate.
      * cbn; tauto.
    + apply startswith_char_false in Hb.
      destruct (startswith u "X") eqn:Hx.
      * apply startswith_char in Hx.
        split; [split; [discriminate | intros H; contradiction]|].
        split; [split; [discriminate | intros H; contradiction]|].
        split; [tauto|].
        cbn; tauto.
      * apply startswith_char_false in Hx.
        destruct (re_match false _ u);
          [|destruct (re_match false _ u)];
          (split; [split; [discriminate | intros H; contradiction]|]);
          (split; [split; [discriminate | intros H; contradiction]|]);
          (split; [split; [discriminate | intros H; contradiction]|]);
          cbn; tauto.
Qed.

(** X6.  The first three rules of the classifier decide by the upper-cased
    name alone: silence is exactly [NOSOUND.WAV], system is exactly a name
    that starts with [!], special is exactly a name that starts with [X]
    or [x]; the category does not depend on the letter case of the name
    and is one of the six categories. *)
Theorem classify_first_rules (name : string) :
  (_classify_audio_file name = "silence" <-> upper name = "NOSOUND.WAV")
  /\ (_classify_audio_file name = "system" <->
      exists rest, upper name = String "!" rest)
  /\ (_classify_audio_file name = "special" <->
      exists rest, upper name = String "X" rest)
  /\ _classify_audio_file (upper name) = _classify_audio_file name
  /\ In (_classify_audio_file name)
        ["silence"; "system"; "special"; "letter_rhythm"; "numbered_rhythm";
         "unknown"].
Proof.
  destruct (classify_rules name) as (H1 & H2 & H3 & H4).
  repeat split; try apply H1; try apply H2; try apply H3; try exact H4.
  apply classify_upper.
Qed.

Lemma digit_is_no_rule_start (c : ascii) :
  isdigit c = true ->
  Ascii.eqb c "N" = false /\ c <> "!"%char /\ c <> "X"%char
  /\ in_range "A" "Z" c = false.
Proof.
  destruct c as [[] [] [] [] [] [] [] []]; vm_compute; intros H;
    try discriminate H; repeat split; discriminate.
Qed.

Lemma digits_then_suffix (suffix : string) (k : nat) (d : string) :
  match_here false (Plus Digit :: lits "RHYTH.WAV" ++ [EndAnchor]) suffix = None ->
  match_here false (lits "RHYTH.WAV" ++ [EndAnchor]) suffix = Some k ->
  d <> EmptyString -> str_forallb isdigit d = true ->
  match_here false (Plus Digit :: lits "RHYTH.WAV" ++ [EndAnchor]) (d +:+ suffix)
  = Some (String.length d + k).
Proof.
  intros Hplus Hlit. induction d as [|c d IH]; [congruence|].
  intros _ Hd. cbn [str_forallb] in Hd. apply andb_true_iff in Hd.
  destruct Hd as [Hc Hd].
  change (String c d +:+ suffix) with (String c (d +:+ suffix)).
  rewrite match_here_plus_cons. cbn [atom_match]. rewrite Hc.
  destruct d as [|c' d'].
  - change (EmptyString +:+ suffix) with suffix. rewrite Hplus, Hlit. reflexivity.
  - rewrite IH by (try discriminate; exact Hd). reflexivity.
Qed.

(** A name whose upper-cased text starts with a digit passes the first
    four rules, and is a numbered rhythm when the last pattern matches. *)
Lemma numbered_rhythm_rule (name : string) (c : ascii) (rest : string) (k : nat) :
  upper name = String c rest -> isdigit c = true ->
  match_here false (Plus Digit :: lits "RHYTH.WAV" ++ [EndAnchor]) (upper name)
  = Some k ->
  _classify_audio_file name = "numbered_rhythm".
Proof.
  intros Hu Hc Hk.
  destruct (digit_is_no_rule_start c Hc) as (HN & Hbang & HX & HAZ).
  unfold _classify_audio_file, re_match. rewrite Hk, Hu.
  cbn [String.eqb]. rewrite HN.
  replace (startswith (String c rest) "!") with false
    by (symmetry; apply startswith_char_false; intros [r [= E _]]; congruence).
  replace (startswith (String c rest) "X") with false
    by (symmetry; apply startswith_char_false; intros [r [= E _]]; congruence).
  rewrite match_here_one_cons. cbn [atom_match]. rewrite HAZ. reflexivity.
Qed.

Lemma digits_first (digits suffix : string) :
  digits <> EmptyString -> str_forallb isdigit digits = true ->
  exists c rest, digits +:+ suffix = String c rest /\ isdigit c = true.
Proof.
  destruct digits as [|c d]; [congruence|]. intros _ Hd.
  cbn [str_forallb] in Hd. apply andb_true_iff in Hd. destruct Hd as [Hc _].
  exists c, (d +:+ suffix). split; [reflexivity | exact Hc].
Qed.

(** X7.  A name made of one or more digits followed by [RHYTH.WAV], in any
    letter case, is a numbered rhythm; so is such a name with a newline at
    its end, since [$] also matches in front of a final newline. *)
Theorem classify_numbered_rhythm (name digits : string) :
  digits <> EmptyString -> str_forallb isdigit digits = true ->
  upper name = digits +:+ "RHYTH.WAV"
  \/ upper name = digits +:+ String "R" (String "H" (String "Y" (String "T"
                    (String "H" (String "." (String "W" (String "A"
                    (String "V" (String "010" EmptyString))))))))) ->
  _classify_audio_file name = "numbered_rhythm".
Proof.
  intros Hne Hd Hname.
  assert (Hmatch : match_here false (Plus Digit :: lits "RHYTH.WAV" ++ [EndAnchor])
                              (upper name)
                   = Some (String.length digits + 9)).
  { destruct Hname as [-> | ->];
      apply digits_then_suffix; auto; vm_compute; reflexivity. }
  assert (Hfirst : exists c rest, upper name = String c rest /\ isdigit c = true).
  { destruct Hname as [-> | ->]; apply digits_first; assumption. }
  destruct Hfirst as (c & rest & Hu & Hc).
  exact (numbered_rhythm_rule name c rest _ Hu Hc Hmatch).
Qed.

Lemma classify_numbered_rhythm_witness :
  _classify_audio_file "6970rhyth.wav" = "numbered_rhythm".
Proof.
  apply (classify_numbered_rhythm "6970rhyth.wav" "6970").
  - discriminate.
  - reflexivity.
  - left. reflexivity.
Defined.

Lemma upper_of_lower (c : ascii) : ascii_upper c = ascii_upper (ascii_lower c).
Proof. destruct c as [[] [] [] [] [] [] [] []]; reflexivity. Qed.

Lemma same_letter_upper (c x : ascii) :
  Ascii.eqb (ascii_lower c) (ascii_lower x) = true -> ascii_upper c = ascii_upper x.
Proof.
  intros H. apply Ascii.eqb_eq in H.
  rewrite (upper_of_lower c), H, <- upper_of_lower. reflexivity.
Qed.

Lemma digit_upper (c : ascii) : isdigit c = true -> ascii_upper c = c.
Proof.
  destruct c as [[] [] [] [] [] [] [] []]; vm_compute; intros H;
    try discriminate H; reflexivity.
Qed.

Lemma upper_cons (c : ascii) (s : string) :
  upper (String c s) = String (ascii_upper c) (upper s).
Proof. reflexivity. Qed.

(** The text that a literal run matches under [re.IGNORECASE] reads as
    the run once both are upper-cased. *)
Lemma literal_match_upper (lit : string) :
  forall s n,
    match_here true (lits lit) s = Some n -> upper (str_take n s) = upper lit.
Proof.
  induction lit as [|x lit IH]; intros s n; cbn [lits].
  - cbn [match_here]. intros [= <-]. reflexivity.
  - destruct s as [|c s]; [discriminate|].
    rewrite match_here_one_cons. cbn [atom_match].
    destruct (Ascii.eqb (ascii_lower c) (ascii_lower x)) eqn:E; [|discriminate].
    destruct (match_here true (lits lit) s) as [n'|] eqn:Hn; [|discriminate].
    intros [= <-]. cbn [str_take]. rewrite !upper_cons.
    rewrite (same_letter_upper c x E), (IH s n' Hn). reflexivity.
Qed.

(** The text that [\d+] and a literal run match: digits, then the run. *)
Lemma digits_match_upper (lit : string) :
  forall s n,
    match_here true (Plus Digit :: lits lit) s = Some n ->
    exists d,
      d <> EmptyString /\ str_forallb isdigit d = true
      /\ upper (str_take n s) = d +:+ upper lit.
Proof.
  induction s as [|c s IH]; intros n; [discriminate|].
  rewrite match_here_plus_cons. cbn [atom_match].
  destruct (isdigit c) eqn:Hc; [|discriminate].
  destruct (match_here true (Plus Digit :: lits lit) s) as [n'|] eqn:Hplus.
  - intros [= <-]. destruct (IH n' eq_refl) as (d & Hne & Hd & Hu).
    exists (String c d). split; [discriminate|].
    split; [cbn [str_forallb]; rewrite Hc, Hd; reflexivity|].
    cbn [str_take]. rewrite upper_cons, Hu, (digit_upper c Hc). reflexivity.
  - destruct (match_here true (lits lit) s) as [n'|] eqn:Hlit; [|discriminate].
    intros [= <-]. exists (String c EmptyString). split; [discriminate|].
    split; [cbn [str_forallb]; rewrite Hc; reflexivity|].
    cbn [str_take].
    rewrite upper_cons, (literal_match_upper lit s n' Hlit), (digit_upper c Hc).
    reflexivity.
Qed.

Lemma letter_then_rhythm (c : ascii) :
  atom_match true (Range "a" "z") c = true
  \/ atom_match true (Range "A" "Z") c = true ->
  In (_classify_audio_file (String (ascii_upper c) "RHYTH.WAV"))
     ["silence"; "system"; "special"; "letter_rhythm"; "numbered_rhythm"].
Proof.
  destruct c as [[] [] [] [] [] [] [] []]; vm_compute; intros [H | H];
    try discriminate H; tauto.
Qed.

Lemma first_character_rule (re : regex) (x : ascii) (s : string) (n : nat) :
  match_here true (One (Lit x) :: re) s = Some n ->
  exists rest, upper (str_take n s) = String (ascii_upper x) rest.
Proof.
  destruct s as [|c s]; [discriminate|].
  rewrite match_here_one_cons. cbn [atom_match].
  destruct (Ascii.eqb (ascii_lower c) (ascii_lower x)) eqn:E; [|discriminate].
  destruct (match_here true re s) as [n'|]; [|discriminate].
  intros [= <-]. cbn [str_take]. rewrite upper_cons, (same_letter_upper c x E).
  eauto.
Qed.

Lemma letter_pattern_rule (lo hi : ascii) (lit : string) (s : string) (n : nat) :
  match_here true (One (Range lo hi) :: lits lit) s = Some n ->
  exists c,
    atom_match true (Range lo hi) c = true
    /\ upper (str_take n s) = String (ascii_upper c) (upper lit).
Proof.
  destruct s as [|c s]; [discriminate|].
  rewrite match_here_one_cons.
  destruct (atom_match true (Range lo hi) c) eqn:E; [|discriminate].
  destruct (match_here true (lits lit) s) as [n'|] eqn:Hn; [|discriminate].
  intros [= <-]. exists c. split; [exact E|].
  cbn [str_take]. rewrite upper_cons, (literal_match_upper lit s n' Hn).
  reflexivity.
Qed.

Lemma match_classified (re : regex) (s : string) (n : nat) :
  In re audio_patterns -> match_here true re s = Some n ->
  In (_classify_audio_file (upper (str_take n s)))
     ["silence"; "system"; "special"; "letter_rhythm"; "numbered_rhythm"].
Proof.
  intros Hre Hn.
  assert (Hdigits : forall lit,
             upper lit = "RHYTH.WAV" ->
             match_here true (Plus Digit :: lits lit) s = Some n ->
             _classify_audio_file (str_take n s) = "numbered_rhythm").
  { intros lit Hlit H. apply digits_match_upper in H.
    destruct H as (d & Hne & Hd & Hu). rewrite Hlit in Hu.
    destruct (digits_first d "RHYTH.WAV" Hne Hd) as (c & rest & Hfirst & Hc).
    apply (numbered_rhythm_rule _ c rest (String.length d + 9));
      [rewrite Hu; exact Hfirst | exact Hc|].
    rewrite Hu. apply digits_then_suffix; auto; vm_compute; reflexivity. }
  assert (Hletter : forall lo hi lit,
             upper lit = "RHYTH.WAV" ->
             (forall c, atom_match true (Range lo hi) c = true ->
                        atom_match true (Range "a" "z") c = true
                        \/ atom_match true (Range "A" "Z") c = true) ->
             match_here true (One (Range lo hi) :: lits lit) s = Some n ->
             In (_classify_audio_file (upper (str_take n s)))
                ["silence"; "system"; "special"; "letter_rhythm";
                 "numbered_rhythm"]).
  { intros lo hi lit Hlit Hc H. apply letter_pattern_rule in H.
    destruct H as (c & E & ->). rewrite Hlit. apply letter_then_rhythm, Hc, E. }
  assert (Hbang : forall re',
             match_here true (One (Lit "!") :: re') s = Some n ->
             _classify_audio_file (str_take n s) = "system").
  { intros re' H. apply first_character_rule in H.
    apply (proj1 (proj2 (classify_rules _))). exact H. }
  assert (Hx : forall x re',
             ascii_upper x = "X"%char ->
             match_here true (One (Lit x) :: re') s = Some n ->
             _classify_audio_file (str_take n s) = "special").
  { intros x re' Hx H. apply first_character_rule in H. rewrite Hx in H.
    apply (proj1 (proj2 (proj2 (classify_rules _)))). exact H. }
  assert (Hsilence : forall lit,
             upper lit = "NOSOUND.WAV" ->
             match_here true (lits lit) s = Some n ->
             _classify_audio_file (str_take n s) = "silence").
  { intros lit Hlit H. apply literal_match_upper in H. rewrite Hlit in H.
    apply (proj1 (classify_rules _)). exact H. }
  rewrite classify_upper.
  unfold audio_patterns in Hre. cbn [In] in Hre.
  destruct Hre as [<- | [<- | [<- | [<- | [<- | [<- | [<- | [<- | [<- | [<- | []]]]]]]]]]].
  - rewrite (Hdigits "rhyth.wav" eq_refl Hn). cbn; tauto.
  - rewrite <- classify_upper.
    apply (Hletter "a"%char "z"%char "rhyth.wav" eq_refl); [|exact Hn]. tauto.
  - rewrite (Hbang _ Hn). cbn; tauto.
  - rewrite (Hx "x"%char _ eq_refl Hn). cbn; tauto.
  - rewrite (Hsilence "nosound.wav" eq_refl Hn). cbn; tauto.
  - rewrite (Hdigits "RHYTH.WAV" eq_refl Hn). cbn; tauto.
  - rewrite <- classify_upper.
    apply (Hletter "A"%char "Z"%char "RHYTH.WAV" eq_refl); [|exact Hn]. tauto.
  - rewrite (Hbang _ Hn). cbn; tauto.
  - rewrite (Hx "X"%char _ eq_refl Hn). cbn; tauto.
  - rewrite (Hsilence "NOSOUND.WAV" eq_refl Hn). cbn; tauto.
Qed.

Lemma recorded_category (data : list byte) (name : string) (p : nat) :
  In (name, p) (_extract_audio_sequence_from_data data) ->
  In (_classify_audio_file name)
     ["silence"; "system"; "special"; "letter_rhythm"; "numbered_rhythm"].
Proof.
  intros H. unfold _extract_audio_sequence_from_data in H.
  apply keep_first_In in H. destruct H as (H & _ & _).
  eapply Permutation_in in H; [|apply sort_by_offset_perm].
  apply all_matches_In in H. destruct H as (re & n & Hre & Hn & ->).
  exact (match_classified re _ n Hre Hn).
Qed.

(** X8.  No name of the extracted sequence falls through the classifier:
    every pattern of the catalog leads to one of the five named
    categories, and [unknown] is never given to a recorded name. *)
Theorem recorded_names_are_classified (data : list byte) (name : string) (p : nat) :
  In (name, p) (_extract_audio_sequence_from_data data) ->
  In (_classify_audio_file name)
     ["silence"; "system"; "special"; "letter_rhythm"; "numbered_rhythm"]
  /\ _classify_audio_file name <> "unknown".
Proof.
  intros H. pose proof (recorded_category data name p H) as Hc.
  split; [exact Hc|].
  intros E. rewrite E in Hc. cbn [In] in Hc.
  repeat (destruct Hc as [Hc | Hc]; [discriminate Hc|]). exact Hc.
Qed.

Lemma recorded_names_are_classified_witness :
  In (_classify_audio_file "XRHYTH.WAV")
     ["silence"; "system"; "special"; "letter_rhythm"; "numbered_rhythm"]
  /\ _classify_audio_file "XRHYTH.WAV" <> "unknown".
Proof.
  apply (recorded_names_are_classified
           (list_byte_of_string "ELVD....a xrhyth.wav b") "XRHYTH.WAV" 10).
  vm_compute. left. reflexivity.
Defined.

End Classifier.

(** ** What a render returns *)

Section Rendered.
Import Generator.

Variable load_audio_file : string -> option (list Q).

Lemma length_passes (k : nat) (clips : list clip) :
  length (passes k clips) = k * length (one_pass clips).
Proof.
  unfold passes. induction k as [|k IH]; cbn [repeat concat]; [reflexivity|].
  rewrite length_app, IH. lia.
Qed.

Lemma length_normalize (buf : list Q) (m : Q) :
  length (normalize buf m) = length buf.
Proof.
  unfold normalize, normalize_by. destruct (Qltb 1 m); [apply length_map | reflexivity].
Qed.

Lemma nth_passes (clips : list clip) (d : Q) (k : nat) :
  forall i,
    i < k * length (one_pass clips) ->
    nth i (passes k clips) d
    = nth (i mod length (one_pass clips)) (one_pass clips) d.
Proof.
  unfold passes. induction k as [|k IH]; intros i Hi; [lia|].
  cbn [repeat concat].
  destruct (Nat.lt_ge_cases i (length (one_pass clips))) as [Hlt | Hge].
  - rewrite app_nth1 by exact Hlt. rewrite Nat.mod_small by exact Hlt. reflexivity.
  - rewrite app_nth2 by lia. rewrite IH by lia.
    replace i with (i - length (one_pass clips) + 1 * length (one_pass clips))
      at 2 by lia.
    rewrite Nat.Div0.mod_add. reflexivity.
Qed.

Lemma Forall_passes (P : Q -> Prop) (k : nat) (clips : list clip) :
  Forall P (one_pass clips) -> Forall P (passes k clips).
Proof.
  intros H. unfold passes. induction k as [|k IH]; cbn [repeat concat].
  - constructor.
  - apply Forall_app. split; assumption.
Qed.

Lemma Forall_firstn (P : Q -> Prop) (n : nat) (l : list Q) :
  Forall P l -> Forall P (firstn n l).
Proof.
  intros H. rewrite List.Forall_forall in *. intros x Hx. apply H.
  rewrite <- (firstn_skipn n l). apply in_or_app. left. exact Hx.
Qed.

Lemma one_pass_nonempty (clips : list clip) :
  (0 < length (one_pass clips))%nat -> clips <> [].
Proof. intros H ->. cbn in H. lia. Qed.

(** X9.  A render over clips with at least one sample, for a positive number
    of samples and with fuel for it, returns a buffer of exactly that many
    samples. *)
Theorem render_returns_exact_length (clips : list clip) (target fuel : nat) :
  (0 < length (one_pass clips))%nat -> (0 < target)%nat -> target <= fuel ->
  exists buf,
    render fuel clips (Z.of_nat target) = Returns (Some buf)
    /\ length buf = target.
Proof.
  intros Hpos Htarget Hfuel.
  rewrite render_filled; [|apply one_pass_nonempty, Hpos | exact Hpos | nia].
  assert (Hlen : length (firstn target (passes fuel clips)) = target).
  { rewrite length_take, length_passes. nia. }
  destruct (max_abs_is_Some (firstn target (passes fuel clips))) as [m Hm].
  { intros E. rewrite E in Hlen. cbn in Hlen. lia. }
  rewrite Hm. eexists. split; [reflexivity|].
  rewrite length_normalize. exact Hlen.
Qed.

Lemma render_returns_exact_length_witness :
  exists buf,
    render 4 [make_clip "1RHYTH.WAV" [(3 # 2); (-1 # 2)]%Q (Some 0%nat)]
           (Z.of_nat 3)
    = Returns (Some buf)
    /\ length buf = 3.
Proof.
  apply (render_returns_exact_length
           [make_clip "1RHYTH.WAV" [(3 # 2); (-1 # 2)]%Q (Some 0%nat)] 3 4).
  - cbn. lia.
  - lia.
  - lia.
Defined.

(** X10.  With samples within [[-1, 1]] the returned buffer is the cyclic
    repetition of the clips in their order: sample [i] of the buffer is
    sample [i mod L] of the clips laid end to end, [L] being their total
    length. *)
Theorem render_content_is_cyclic (clips : list clip) (target fuel : nat) :
  (0 < length (one_pass clips))%nat -> (0 < target)%nat -> target <= fuel ->
  Forall (fun x => (Qabs x <= 1)%Q) (one_pass clips) ->
  exists buf,
    render fuel clips (Z.of_nat target) = Returns (Some buf)
    /\ length buf = target
    /\ forall i,
         i < target ->
         nth i buf 0%Q
         = nth (i mod length (one_pass clips)) (one_pass clips) 0%Q.
Proof.
  intros Hpos Htarget Hfuel Hquiet.
  rewrite render_filled; [|apply one_pass_nonempty, Hpos | exact Hpos | nia].
  assert (Hlen : length (firstn target (passes fuel clips)) = target).
  { rewrite length_take, length_passes. nia. }
  destruct (max_abs_is_Some (firstn target (passes fuel clips))) as [m Hm].
  { intros E. rewrite E in Hlen. cbn in Hlen. lia. }
  rewrite Hm. rewrite normalize_quiet.
  - eexists. split; [reflexivity|]. split; [exact Hlen|].
    intros i Hi. rewrite nth_firstn.
    destruct (Nat.ltb_spec i target); [|lia].
    apply nth_passes. nia.
  - eapply max_abs_le_1; [|exact Hm].
    apply Forall_firstn, Forall_passes, Hquiet.
Qed.

Lemma render_content_is_cyclic_witness :
  exists buf,
    render 5 [ make_clip "1RHYTH.WAV" [(1 # 2); (-1 # 2)]%Q (Some 0%nat);
               make_clip "2RHYTH.WAV" [(1 # 4)]%Q (Some 1%nat) ]
           (Z.of_nat 5)
    = Returns (Some buf)
    /\ length buf = 5
    /\ forall i,
         i < 5 ->
         nth i buf 0%Q
         = nth (i mod length (one_pass
                                [ make_clip "1RHYTH.WAV" [(1 # 2); (-1 # 2)]%Q
                                            (Some 0%nat);
                                  make_clip "2RHYTH.WAV" [(1 # 4)]%Q (Some 1%nat) ]))
               (one_pass [ make_clip "1RHYTH.WAV" [(1 # 2); (-1 # 2)]%Q (Some 0%nat);
                           make_clip "2RHYTH.WAV" [(1 # 4)]%Q (Some 1%nat) ])
               0%Q.
Proof.
  apply (render_content_is_cyclic
           [ make_clip "1RHYTH.WAV" [(1 # 2); (-1 # 2)]%Q (Some 0%nat);
             make_clip "2RHYTH.WAV" [(1 # 4)]%Q (Some 1%nat) ] 5 5).
  - cbn. lia.
  - lia.
  - lia.
  - cbn. repeat constructor; vm_compute; discriminate.
Defined.

(** X11.  For a non-empty clip list, a target of zero samples or fewer makes
    the render raise: a negative size is refused when the buffer is made,
    and an empty buffer has no peak. *)
Theorem render_raises_without_samples (fuel : nat) (clips : list clip) (target : Z) :
  clips <> [] -> (target <= 0)%Z ->
  exists exn, render fuel clips target = Raises exn.
Proof.
  intros Hne Ht. unfold render. destruct clips as [|c clips]; [congruence|].
  destruct (Z.ltb_spec target 0) as [Hneg | Hzero]; [eauto|].
  replace target with 0%Z by lia.
  change (Z.to_nat 0) with 0%nat. destruct fuel; cbn; eauto.
Qed.

Lemma render_raises_without_samples_witness :
  exists exn,
    render 10 [make_clip "1RHYTH.WAV" [(1 # 2)]%Q (Some 0%nat)] 0 = Raises exn.
Proof.
  apply (render_raises_without_samples
           10 [make_clip "1RHYTH.WAV" [(1 # 2)]%Q (Some 0%nat)] 0).
  - discriminate.
  - lia.
Defined.

Lemma load_clips_none (entries : list audio_entry) :
  Forall (fun e => file_type e = Some "silence"
                   \/ load_audio_file (filename e) = None) entries ->
  load_clips load_audio_file entries = [].
Proof.
  induction 1 as [|e entries He _ IH]; cbn [load_clips]; [reflexivity|].
  destruct (bool_decide (file_type e = Some "silence")) eqn:Hs; [exact IH|].
  apply bool_decide_eq_false in Hs.
  destruct He as [He | He]; [contradiction|].
  rewrite He. exact IH.
Qed.

(** X12.  A level that is not in the extraction data, or counts no audio file,
    or whose entries are all silence or fail to load, gives no buffer:
    the call returns [None], whatever the fuel and the target, and neither
    raises nor runs on. *)
Theorem generate_without_clips_returns_none (fuel : nat)
    (data : option (list level_record)) (name : string) (target : Z) :
  match get_level_info data name with
  | None => True
  | Some level_info =>
      audio_count level_info = 0
      \/ Forall (fun e => file_type e = Some "silence"
                          \/ load_audio_file (filename e) = None)
                (audio_files level_info)
  end ->
  generate_level_music load_audio_file fuel data name target = Returns None.
Proof.
  unfold generate_level_music, generate_for_level.
  destruct (get_level_info data name) as [info|]; [|reflexivity].
  intros [Hc | Hall].
  - rewrite Hc. reflexivity.
  - destruct (audio_count info =? 0)%nat; [reflexivity|].
    rewrite load_clips_none; [reflexivity|].
    eapply Permutation_Forall; [symmetry; apply sorted_by_key_perm | exact Hall].
Qed.

(** X13.  Normalising once is enough: the peak of a normalised buffer is at
    most 1, so a second pass leaves it as it is. *)
Theorem normalize_twice (buf : list Q) (m : Q) :
  max_abs buf = Some m ->
  exists m',
    max_abs (normalize buf m) = Some m'
    /\ (m' <= 1)%Q
    /\ normalize (normalize buf m) m' = normalize buf m.
Proof.
  intros Hm.
  destruct (max_abs_is_Some (normalize buf m)) as [m' Hm'].
  { intros E. apply (f_equal (@length Q)) in E. rewrite length_normalize in E.
    destruct buf; [discriminate | discriminate]. }
  exists m'. split; [exact Hm'|].
  assert (Hle : (m' <= 1)%Q).
  { eapply max_abs_le_1; [|exact Hm']. apply normalize_bounded, Hm. }
  split; [exact Hle | apply normalize_quiet, Hle].
Qed.

Lemma normalize_twice_witness :
  exists m',
    max_abs (normalize [(1 # 2); (-3 # 2)]%Q (3 # 2)%Q) = Some m'
    /\ (m' <= 1)%Q
    /\ normalize (normalize [(1 # 2); (-3 # 2)]%Q (3 # 2)%Q) m'
       = normalize [(1 # 2); (-3 # 2)]%Q (3 # 2)%Q.
Proof.
  apply (normalize_twice [(1 # 2); (-3 # 2)]%Q (3 # 2)%Q). reflexivity.
Defined.

End Rendered.

Lemma generate_without_clips_returns_none_witness :
  Generator.generate_level_music
    (fun _ => None) 3
    (Some [ {| Generator.level_name := "ONESONG.ELV"; Generator.audio_count := 2;
               Generator.level_title := None;
               Generator.audio_files :=
                 [ {| Generator.filename := "NOSOUND.WAV";
                      Generator.sequence_position := Some 0%nat;
                      Generator.file_type := Some "silence" |};
                   {| Generator.filename := "1RHYTH.WAV";
                      Generator.sequence_position := Some 1%nat;
                      Generator.file_type := Some "numbered_rhythm" |} ] |} ])
    "onesong.elv" 1323000
  = Returns None.
Proof.
  apply generate_without_clips_returns_none.
  cbn. right.
  constructor; [left; reflexivity|].
  constructor; [right; reflexivity|].
  constructor.
Defined.

(** ** The two spellings of the catalog *)

Section Spellings.
Import Text Re Extractor.

Lemma match_here_same_pieces (re re' : regex) :
  Forall2 same_piece re re' ->
  forall s, match_here true re s = match_here true re' s.
Proof.
  induction 1 as [|p p' rest rest' Hp _ IH]; [reflexivity|].
  destruct p as [a | a |], p' as [a' | a' |]; cbn [same_piece] in Hp;
    try contradiction.
  - intros [|c s]; [reflexivity|].
    rewrite !match_here_one_cons, Hp, IH. reflexivity.
  - intros s. induction s as [|c s IHs]; [reflexivity|].
    rewrite !match_here_plus_cons, Hp, IHs, IH. reflexivity.
  - intros s. cbn [match_here]. rewrite IH. reflexivity.
Qed.

Lemma finditer_from_same (re re' : regex) :
  (forall s, match_here true re s = match_here true re' s) ->
  forall s pos skip,
    finditer_from true re s pos skip = finditer_from true re' s pos skip.
Proof.
  intros H s. induction s as [|c s IH]; intros pos skip; [reflexivity|].
  cbn [finditer_from]. destruct skip as [|k]; [|apply IH].
  rewrite H. destruct (match_here true re' (String c s)); rewrite ?IH; reflexivity.
Qed.

Lemma range_same_letters (c : ascii) :
  atom_match true (Range "A" "Z") c = atom_match true (Range "a" "z") c.
Proof. destruct c as [[] [] [] [] [] [] [] []]; reflexivity. Qed.

Lemma upper_spelling_same :
  Forall2 (Forall2 same_piece) (skipn 5 audio_patterns) (firstn 5 audio_patterns).
Proof.
  cbn [skipn firstn audio_patterns lits].
  repeat lazymatch goal with
         | |- Forall2 _ [] [] => constructor
         | |- Forall2 _ (_ :: _) (_ :: _) => constructor
         | |- same_piece (One (Range _ _)) _ => exact range_same_letters
         | |- same_piece _ _ => intros c; reflexivity
         end.
Qed.

Lemma matches_of_spellings (text : string) :
  map (matches_of text) (skipn 5 audio_patterns)
  = map (matches_of text) (firstn 5 audio_patterns).
Proof.
  pose proof upper_spelling_same as H.
  induction H as [|re re' l l' Hre _ IH]; [reflexivity|].
  cbn [map]. rewrite IH. f_equal.
  unfold matches_of, finditer.
  rewrite (finditer_from_same re re'); [reflexivity|].
  apply match_here_same_pieces, Hre.
Qed.

Lemma all_matches_doubled (text : string) :
  all_matches text
  = all_matches_of (firstn 5 audio_patterns) text
    ++ all_matches_of (firstn 5 audio_patterns) text.
Proof.
  unfold all_matches, all_matches_of.
  rewrite <- (firstn_skipn 5 audio_patterns) at 1.
  rewrite !flat_map_concat_map, map_app, concat_app.
  rewrite matches_of_spellings. reflexivity.
Qed.

Lemma sorted_offsets_unique (l1 : list (string * nat)) :
  forall l2,
    StronglySorted lt (map snd l1) -> StronglySorted lt (map snd l2) ->
    (forall x, In x l1 <-> In x l2) -> l1 = l2.
Proof.
  induction l1 as [|a l1 IH]; intros l2 H1 H2 Hsame.
  - destruct l2 as [|b l2]; [reflexivity|].
    exfalso. apply (Hsame b). left. reflexivity.
  - destruct l2 as [|b l2].
    + exfalso. apply (Hsame a). left. reflexivity.
    + cbn [map] in H1, H2.
      inversion H1 as [|? ? H1' Ha]; subst.
      inversion H2 as [|? ? H2' Hb]; subst.
      rewrite List.Forall_forall in Ha, Hb.
      assert (Hab : a = b).
      { assert (Hina : In a (b :: l2)) by (apply Hsame; left; reflexivity).
        assert (Hinb : In b (a :: l1)) by (apply Hsame; left; reflexivity).
        destruct Hina as [-> | Hina]; [reflexivity|].
        destruct Hinb as [-> | Hinb]; [reflexivity|].
        pose proof (Ha _ (in_map snd _ _ Hinb)).
        pose proof (Hb _ (in_map snd _ _ Hina)). lia. }
      subst b. f_equal. apply IH; auto.
      intros x. split; intros Hx.
      * assert (Hx' : In x (a :: l2)) by (apply Hsame; right; exact Hx).
        destruct Hx' as [<- | Hx']; [|exact Hx'].
        pose proof (Ha _ (in_map snd _ _ Hx)). lia.
      * assert (Hx' : In x (a :: l1)) by (apply Hsame; right; exact Hx).
        destruct Hx' as [<- | Hx']; [|exact Hx'].
        pose proof (Hb _ (in_map snd _ _ Hx)). lia.
Qed.

Lemma kept_In_iff (recorded : list (string * nat)) (name : string) (p : nat) :
  In (name, p) (keep_first ∅ (sort_by_offset recorded)) <->
  In (name, p) recorded
  /\ (4 < String.length name)%nat
  /\ forall q, In (name, q) recorded -> p <= q.
Proof.
  assert (Hperm : Permutation (sort_by_offset recorded) recorded)
    by apply sort_by_offset_perm.
  split.
  - intros H. pose proof (keep_first_In _ _ _ _ H) as (Hin & _ & Hlen).
    split; [eapply Permutation_in; eassumption|]. split; [exact Hlen|].
    intros q Hq. eapply keep_first_lowest;
      [apply sort_by_offset_sorted | exact H |].
    eapply Permutation_in; [symmetry; exact Hperm | exact Hq].
  - intros (Hin & Hlen & Hlow).
    assert (Hname : In name (map fst (keep_first ∅ (sort_by_offset recorded)))).
    { eapply keep_first_complete; [|apply not_elem_of_empty | exact Hlen].
      eapply Permutation_in; [symmetry; exact Hperm | exact Hin]. }
    apply in_map_iff in Hname. destruct Hname as ([name' p'] & Hn & Hk).
    cbn [fst] in Hn. subst name'.
    pose proof (keep_first_In _ _ _ _ Hk) as (Hin' & _ & _).
    eapply Permutation_in in Hin'; [|exact Hperm].
    assert (p' <= p).
    { eapply keep_first_lowest; [apply sort_by_offset_sorted | exact Hk |].
      eapply Permutation_in; [symmetry; exact Hperm | exact Hin]. }
    pose proof (Hlow p' Hin'). replace p with p' by lia. exact Hk.
Qed.

(** The extracted sequence depends only on which matches are recorded,
    not on how often or in which order. *)
Lemma extraction_of_same_matches (m1 m2 : list (string * nat)) :
  (forall x, In x m1 <-> In x m2) ->
  (forall a b, In a m1 -> In b m1 -> snd a = snd b -> fst a = fst b) ->
  keep_first ∅ (sort_by_offset m1) = keep_first ∅ (sort_by_offset m2).
Proof.
  intros Hsame Hpos.
  assert (Hstrict : forall m,
             (forall x, In x m <-> In x m1) ->
             StronglySorted lt (map snd (keep_first ∅ (sort_by_offset m)))).
  { intros m Hm. apply strictly_increasing_offsets.
    - apply keep_first_sorted, sort_by_offset_sorted.
    - apply keep_first_NoDup.
    - intros [n1 p1] [n2 p2] Ha Hb. apply Hpos.
      + apply kept_In_iff in Ha. apply Hm, Ha.
      + apply kept_In_iff in Hb. apply Hm, Hb. }
  apply sorted_offsets_unique.
  - apply Hstrict. reflexivity.
  - apply Hstrict. intros x. symmetry. apply Hsame.
  - intros [name p]. rewrite !kept_In_iff.
    split; intros (Hin & Hlen & Hlow); (split; [apply Hsame, Hin|]);
      (split; [exact Hlen|]); intros q Hq; apply Hlow, Hsame, Hq.
Qed.

(** X14.  Under [re.IGNORECASE] the five upper-case patterns of the catalog
    record exactly what the five lower-case ones record, so every match is
    recorded twice, and the extracted sequence is the one the first five
    patterns give alone. *)
Theorem upper_case_patterns_are_redundant (data : list byte) :
  all_matches (decode_ascii_ignore data)
  = all_matches_of (firstn 5 audio_patterns) (decode_ascii_ignore data)
    ++ all_matches_of (firstn 5 audio_patterns) (decode_ascii_ignore data)
  /\ _extract_audio_sequence_from_data data
     = extract_with (firstn 5 audio_patterns) data.
Proof.
  split; [apply all_matches_doubled|].
  unfold _extract_audio_sequence_from_data, extract_with.
  apply extraction_of_same_matches.
  - intros x. rewrite all_matches_doubled, in_app_iff. tauto.
  - intros [n1 p1] [n2 p2] Ha Hb. cbn [fst snd]. intros <-.
    eapply all_matches_same_position; eassumption.
Qed.

End Spellings.

(** ** The decoder *)

Section Decoder.
Import Generator.
Open Scope Q_scope.

(* The rate stays a name in the proofs below. *)
Local Opaque target_sample_rate.

Ltac scaled_range :=
  cbv beta in *; unfold Qdiv;
  try change (/ 2) with (1 # 2);
  try change (/ 128) with (1 # 128);
  try change (/ 32768) with (1 # 32768);
  repeat match goal with
         | v : Z |- _ =>
             let y := fresh "y" in
             set (y := inject_Z v) in *; clearbody y; clear v
         end;
  try unfold inject_Z in *; lra.

Lemma pair_induction {A : Type} (P : list A -> Prop) :
  P [] -> (forall x, P [x]) -> (forall a b l, P l -> P (a :: b :: l)) ->
  forall l, P l.
Proof.
  intros H0 H1 H2 l.
  assert (H : P l /\ forall a, P (a :: l)).
  { induction l as [|x l [IHl IHc]]; split; auto. }
  apply H.
Qed.

Lemma int16_of_bytes_spec (data : list byte) :
  match int16_of_bytes data with
  | Some values =>
      length data = (2 * length values)%nat
      /\ Forall (fun v => (-32768 <= v < 32768)%Z) values
  | None => (length data mod 2 = 1)%nat
  end.
Proof.
  induction data as [| x | lo hi rest IH] using pair_induction.
  - cbn. split; [reflexivity | constructor].
  - reflexivity.
  - cbn [int16_of_bytes]. destruct (int16_of_bytes rest) as [values|].
    + destruct IH as [Hlen Hall]. cbn [option_map length]. split; [lia|].
      constructor; [|exact Hall].
      unfold signed16.
      pose proof (to_N_lt_256 lo). pose proof (to_N_lt_256 hi).
      destruct (Z.ltb_spec (Z.of_N (Byte.to_N lo) + 256 * Z.of_N (Byte.to_N hi))
                           32768); lia.
    + cbn [option_map length].
      replace (S (S (length rest))) with (length rest + 1 * 2)%nat by lia.
      rewrite Nat.Div0.mod_add. exact IH.
Qed.

Lemma mean_pairs_spec (lo hi : Q) (values : list Z) :
  Forall (fun v => lo <= inject_Z v < hi) values ->
  match mean_pairs values with
  | Some means =>
      length values = (2 * length means)%nat
      /\ Forall (fun m => lo <= m < hi) means
  | None => (length values mod 2 = 1)%nat
  end.
Proof.
  induction values as [| x | a b rest IH] using pair_induction; intros Hall.
  - cbn. split; [reflexivity | constructor].
  - reflexivity.
  - inversion Hall as [|? ? Ha Hall']; subst.
    inversion Hall' as [|? ? Hb Hrest]; subst.
    specialize (IH Hrest). cbn [mean_pairs].
    destruct (mean_pairs rest) as [means|].
    + destruct IH as [Hlen Hm]. cbn [option_map length]. split; [lia|].
      constructor; [|exact Hm]. clear - Ha Hb. scaled_range.
    + cbn [option_map length].
      replace (S (S (length rest))) with (length rest + 1 * 2)%nat by lia.
      rewrite Nat.Div0.mod_add. exact IH.
Qed.

Lemma inject_Z_range (lo hi v : Z) :
  (lo <= v < hi)%Z -> inject_Z lo <= inject_Z v < inject_Z hi.
Proof.
  intros [H1 H2]. split; [rewrite <- Zle_Qle | rewrite <- Zlt_Qlt]; assumption.
Qed.

Lemma uint8_of_bytes_range (data : list byte) :
  Forall (fun v => (0 <= v < 256)%Z) (uint8_of_bytes data).
Proof.
  unfold uint8_of_bytes. apply List.Forall_forall. intros v Hv.
  apply in_map_iff in Hv. destruct Hv as (b & <- & _).
  pose proof (to_N_lt_256 b). lia.
Qed.

Lemma Forall_inject (lo hi : Z) (values : list Z) :
  Forall (fun v => (lo <= v < hi)%Z) values ->
  Forall (fun v => inject_Z lo <= inject_Z v < inject_Z hi) values.
Proof.
  intros H. eapply List.Forall_impl; [|exact H].
  intros v. apply inject_Z_range.
Qed.

Lemma Forall_map_range {A : Type} (f : A -> Q) (P : A -> Prop) (R : Q -> Prop)
    (l : list A) :
  (forall x, P x -> R (f x)) -> Forall P l -> Forall R (map f l).
Proof.
  intros Hf H. apply List.Forall_forall. intros y Hy.
  apply in_map_iff in Hy. destruct Hy as (x & <- & Hx).
  rewrite List.Forall_forall in H. apply Hf, H, Hx.
Qed.

(** What the four formats give: as many samples as the frames hold, all
    in [[-1, 1)]; and no samples exactly when the format is none of the
    four or the bytes are not whole frames. *)
Lemma decode_frames_spec (w : wav_file) :
  match decode_frames w with
  | Some samples =>
      (sampwidth w = 1 \/ sampwidth w = 2)%nat
      /\ (channels w = 1 \/ channels w = 2)%nat
      /\ length (frames w) = (length samples * (sampwidth w * channels w))%nat
      /\ Forall (fun x => -1 <= x < 1) samples
  | None =>
      ~ ((sampwidth w = 1 \/ sampwidth w = 2)%nat
         /\ (channels w = 1 \/ channels w = 2)%nat
         /\ (length (frames w) mod (sampwidth w * channels w) = 0)%nat)
  end.
Proof.
  unfold decode_frames.
  destruct (Nat.eqb_spec (sampwidth w) 1) as [Hw1 | Hw1];
    destruct (Nat.eqb_spec (channels w) 2) as [Hc2 | Hc2]; cbn [andb].
  - (* 8-bit stereo *)
    pose proof (mean_pairs_spec 0 256 (uint8_of_bytes (frames w))
                  (Forall_inject 0 256 _ (uint8_of_bytes_range _))) as H.
    destruct (mean_pairs (uint8_of_bytes (frames w))) as [means|];
      cbn [option_map].
    + destruct H as [Hlen Hm].
      unfold uint8_of_bytes in Hlen. rewrite length_map in Hlen.
      rewrite length_map, Hw1, Hc2.
      repeat split; auto; [lia|].
      eapply Forall_map_range; [|exact Hm]. intros x Hx. clear - Hx. scaled_range.
    + unfold uint8_of_bytes in H. rewrite length_map in H.
      rewrite Hw1, Hc2. intros (_ & _ & Hmod).
      change (1 * 2)%nat with 2%nat in Hmod. lia.
  - (* width 1, not stereo *)
    destruct (Nat.eqb_spec (sampwidth w) 2) as [Hw2 | Hw2]; [lia|]. cbn [andb].
    destruct (Nat.eqb_spec (channels w) 1) as [Hc1 | Hc1]; cbn [andb].
    + rewrite length_map. unfold uint8_of_bytes. rewrite length_map, Hw1, Hc1.
      repeat split; auto; [lia|].
      eapply Forall_map_range;
        [|exact (Forall_inject 0 256 _ (uint8_of_bytes_range (frames w)))].
      intros x Hx. clear - Hx. scaled_range.
    + intros (_ & [H | H] & _); lia.
  - (* stereo, width not 1 *)
    destruct (Nat.eqb_spec (sampwidth w) 2) as [Hw2 | Hw2]; cbn [andb].
    + pose proof (int16_of_bytes_spec (frames w)) as H16.
      destruct (int16_of_bytes (frames w)) as [values|].
      * destruct H16 as [Hlen16 Hr16].
        pose proof (mean_pairs_spec (-32768) 32768 values
                      (Forall_inject (-32768) 32768 _ Hr16)) as H.
        destruct (mean_pairs values) as [means|]; cbn [option_map].
        -- destruct H as [Hlen Hm]. rewrite length_map, Hw2, Hc2.
           repeat split; auto; [lia|].
           eapply Forall_map_range; [|exact Hm]. intros x Hx. clear - Hx. scaled_range.
        -- rewrite Hw2, Hc2. intros (_ & _ & Hmod).
           change (2 * 2)%nat with 4%nat in Hmod.
           rewrite Hlen16 in Hmod.
           pose proof (Nat.Div0.div_mod (length values) 2).
           pose proof (Nat.Div0.div_mod (2 * length values) 4). lia.
      * rewrite Hw2, Hc2. intros (_ & _ & Hmod).
        change (2 * 2)%nat with 4%nat in Hmod.
        pose proof (Nat.Div0.div_mod (length (frames w)) 2).
        pose proof (Nat.Div0.div_mod (length (frames w)) 4). lia.
    + destruct (Nat.eqb_spec (channels w) 1); [lia|]. cbn [andb].
      intros ([H | H] & _); lia.
  - (* neither width 1 nor stereo *)
    destruct (Nat.eqb_spec (sampwidth w) 2) as [Hw2 | Hw2]; cbn [andb].
    + destruct (Nat.eqb_spec (channels w) 1) as [Hc1 | Hc1]; cbn [andb].
      * pose proof (int16_of_bytes_spec (frames w)) as H16.
        destruct (int16_of_bytes (frames w)) as [values|]; cbn [option_map].
        -- destruct H16 as [Hlen16 Hr16]. rewrite length_map, Hw2, Hc1.
           repeat split; auto; [lia|].
           eapply Forall_map_range;
             [|exact (Forall_inject (-32768) 32768 _ Hr16)].
           intros x Hx. clear - Hx. scaled_range.
        -- rewrite Hw2, Hc1. intros (_ & _ & Hmod).
           change (2 * 1)%nat with 2%nat in Hmod. lia.
      * intros (_ & [H | H] & _); lia.
    + intros ([H | H] & _); lia.
Qed.

Lemma length_np_repeat (k : nat) (a : list Q) :
  length (np_repeat k a) = (length a * k)%nat.
Proof.
  unfold np_repeat. induction a as [|x a IH]; cbn [flat_map length]; [reflexivity|].
  rewrite length_app, repeat_length, IH. lia.
Qed.

Lemma In_np_repeat (k : nat) (a : list Q) (x : Q) :
  In x (np_repeat k a) -> In x a.
Proof.
  unfold np_repeat. intros H. apply in_flat_map in H.
  destruct H as (y & Hy & Hx). apply repeat_spec in Hx. subst. exact Hy.
Qed.

Lemma In_every_kth (k : nat) (a : list Q) (x : Q) :
  forall skip, In x (every_kth k skip a) -> In x a.
Proof.
  induction a as [|y a IH]; intros skip H; [exact H|].
  cbn [every_kth] in H. destruct skip as [|j].
  - destruct H as [-> | H]; [left; reflexivity | right; eapply IH, H].
  - right. eapply IH, H.
Qed.

(** [len(a[::k])] is [len(a)] over [k], rounded up. *)
Lemma length_every_kth (k : nat) (a : list Q) :
  (0 < k)%nat ->
  forall skip,
    length (every_kth k skip a) = ((length a - skip + (k - 1)) / k)%nat.
Proof.
  intros Hk. induction a as [|y a IH]; intros skip.
  - cbn [every_kth length]. rewrite Nat.div_small by lia. reflexivity.
  - cbn [every_kth]. destruct skip as [|j].
    + cbn [length]. rewrite IH.
      replace (S (length a) - 0 + (k - 1))%nat with (length a + 1 * k)%nat by lia.
      rewrite Nat.div_add by lia.
      destruct (Nat.le_gt_cases (k - 1) (length a)) as [Hle | Hgt].
      * replace (length a - (k - 1) + (k - 1))%nat with (length a) by lia. lia.
      * replace (length a - (k - 1) + (k - 1))%nat with (k - 1)%nat by lia.
        rewrite !Nat.div_small by lia. reflexivity.
    + rewrite IH. reflexivity.
Qed.

Lemma resample_In (rate : nat) (a s : list Q) (x : Q) :
  resample rate a = Some s -> In x s -> In x a.
Proof.
  unfold resample, stride.
  destruct (rate =? target_sample_rate)%nat; [intros [= <-]; auto|].
  destruct (rate <? target_sample_rate)%nat.
  - destruct (rate =? 0)%nat; [discriminate|]. intros [= <-]. apply In_np_repeat.
  - intros [= <-]. apply In_every_kth.
Qed.

Lemma loaded_range (rloops : string -> sample_file) (name : string)
    (samples : list Q) :
  load_audio_file_from rloops name = Some samples ->
  Forall (fun x => -1 <= x < 1) samples.
Proof.
  unfold load_audio_file_from. destruct (rloops name) as [| |w]; try discriminate.
  pose proof (decode_frames_spec w) as Hd.
  destruct (decode_frames w) as [a|]; [|discriminate].
  destruct Hd as (_ & _ & _ & Hr). intros Hs.
  rewrite List.Forall_forall in *. intros x Hx.
  eapply Hr, resample_In; eassumption.
Qed.

(** X15.  A sample file loads exactly when it is a wave file of one of the four
    formats (8 or 16 bits, one or two channels) whose data are whole
    frames and whose frame rate is not zero; anything else gives [None]. *)
Theorem load_audio_file_succeeds_iff (rloops : string -> sample_file)
    (name : string) :
  (exists samples, load_audio_file_from rloops name = Some samples) <->
  (exists w,
      rloops name = Wave w
      /\ (sampwidth w = 1 \/ sampwidth w = 2)%nat
      /\ (channels w = 1 \/ channels w = 2)%nat
      /\ (length (frames w) mod (sampwidth w * channels w) = 0)%nat
      /\ framerate w <> 0%nat).
Proof.
  unfold load_audio_file_from. split.
  - intros [samples H]. destruct (rloops name) as [| |w]; try discriminate.
    exists w. pose proof (decode_frames_spec w) as Hd.
    destruct (decode_frames w) as [a|]; [|discriminate].
    destruct Hd as (Hw & Hc & Hlen & _).
    split; [reflexivity|]. split; [exact Hw|]. split; [exact Hc|]. split.
    + rewrite Hlen. apply Nat.Div0.mod_mul.
    + intros H0. unfold resample in H. rewrite H0 in H.
      pose proof rate_positive as Hpos.
      destruct (Nat.eqb_spec 0 target_sample_rate) as [E | _]; [lia|].
      destruct (Nat.ltb_spec 0 target_sample_rate) as [_ | E]; [|lia].
      change (0 =? 0)%nat with true in H. discriminate.
  - intros (w & Hw & Hsw & Hch & Hmod & Hrate). rewrite Hw.
    pose proof (decode_frames_spec w) as Hd.
    destruct (decode_frames w) as [a|].
    + unfold resample.
      destruct (framerate w =? target_sample_rate)%nat; [eauto|].
      destruct (framerate w <? target_sample_rate)%nat; [|eauto].
      destruct (Nat.eqb_spec (framerate w) 0); [contradiction | eauto].
    + exfalso. apply Hd. auto.
Qed.

(** X16.  What a loaded wave file gives.  Every sample lies in [[-1, 1)].  With
    [n] the number of frames of the file, there are [n] samples at the
    target rate, [n] times the whole quotient of the rates at a lower
    rate, and [n] over that quotient, rounded up, at a higher rate. *)
Theorem loaded_samples_range_and_count (rloops : string -> sample_file)
    (name : string) (w : wav_file) (samples : list Q) :
  rloops name = Wave w ->
  load_audio_file_from rloops name = Some samples ->
  Forall (fun x => -1 <= x < 1) samples
  /\ exists n,
       length (frames w) = (n * (sampwidth w * channels w))%nat
       /\ (framerate w = target_sample_rate -> length samples = n)
       /\ ((framerate w < target_sample_rate)%nat ->
           length samples = (n * (target_sample_rate / framerate w))%nat)
       /\ ((target_sample_rate < framerate w)%nat ->
           length samples
           = ((n + (framerate w / target_sample_rate - 1))
              / (framerate w / target_sample_rate))%nat).
Proof.
  intros Hw Hload. split; [exact (loaded_range rloops name samples Hload)|].
  unfold load_audio_file_from in Hload. rewrite Hw in Hload.
  pose proof (decode_frames_spec w) as Hd.
  destruct (decode_frames w) as [a|]; [|discriminate].
  destruct Hd as (_ & _ & Hlen & _).
  exists (length a). split; [exact Hlen|].
  unfold resample, stride in Hload.
  destruct (Nat.eqb_spec (framerate w) target_sample_rate) as [E | E].
  - injection Hload as <-. repeat split; intros; try lia.
  - destruct (Nat.ltb_spec (framerate w) target_sample_rate) as [L | L].
    + destruct (framerate w =? 0)%nat; [discriminate|].
      injection Hload as <-. repeat split; intros; try lia.
      apply length_np_repeat.
    + injection Hload as <-. repeat split; intros; try lia.
      rewrite length_every_kth.
      * f_equal. lia.
      * apply Nat.div_str_pos. pose proof rate_positive. lia.
Qed.

Lemma loaded_samples_range_and_count_witness :
  Forall (fun x => -1 <= x < 1) [0 # 128; 0 # 128; 127 # 128; 127 # 128]
  /\ exists n,
       length [x80; xff] = (n * (1 * 1))%nat
       /\ (Z.to_nat 22050 = target_sample_rate ->
           length [0 # 128; 0 # 128; 127 # 128; 127 # 128] = n)
       /\ ((Z.to_nat 22050 < target_sample_rate)%nat ->
           length [0 # 128; 0 # 128; 127 # 128; 127 # 128]
           = (n * (target_sample_rate / Z.to_nat 22050))%nat)
       /\ ((target_sample_rate < Z.to_nat 22050)%nat ->
           length [0 # 128; 0 # 128; 127 # 128; 127 # 128]
           = ((n + (Z.to_nat 22050 / target_sample_rate - 1))
              / (Z.to_nat 22050 / target_sample_rate))%nat).
Proof.
  apply (loaded_samples_range_and_count
           (fun name => if String.eqb name "1RHYTH.WAV"
                        then Wave {| channels := 1; sampwidth := 1;
                                     framerate := Z.to_nat 22050;
                                     frames := [x80; xff] |}
                        else NoSuchFile)
           "1RHYTH.WAV"
           {| channels := 1; sampwidth := 1; framerate := Z.to_nat 22050;
              frames := [x80; xff] |}
           [0 # 128; 0 # 128; 127 # 128; 127 # 128]).
  - reflexivity.
  - vm_compute. reflexivity.
Defined.

Lemma slice_assign_Forall (P : Q -> Prop) (buf : list Q) (start stop : nat)
    (src : list Q) :
  Forall P buf -> Forall P src -> Forall P (slice_assign buf start stop src).
Proof.
  intros Hb Hs. unfold slice_assign.
  apply Forall_app. split; [apply Forall_firstn, Hb|].
  apply Forall_app. split; [exact Hs | apply Forall_drop, Hb].
Qed.

Lemma fill_pass_Forall (P : Q -> Prop) (clips : list clip) (target : nat) :
  Forall (fun c => Forall P (audio_data c)) clips ->
  forall buf pos, Forall P buf -> Forall P (fst (fill_pass clips target buf pos)).
Proof.
  induction 1 as [|c clips Hc _ IH]; intros buf pos Hb; cbn [fill_pass];
    [exact Hb|].
  destruct (target <=? pos)%nat; [exact Hb|]. cbv zeta.
  destruct (_ <? _)%nat.
  - cbn [fst]. apply slice_assign_Forall; [exact Hb | apply Forall_firstn, Hc].
  - apply IH. apply slice_assign_Forall; [exact Hb | apply Forall_firstn, Hc].
Qed.

Lemma fill_while_Forall (P : Q -> Prop) (clips : list clip) (target : nat) :
  Forall (fun c => Forall P (audio_data c)) clips ->
  forall fuel buf pos filled pos',
    Forall P buf ->
    fill_while fuel clips target buf pos = Some (filled, pos') ->
    Forall P filled.
Proof.
  intros Hc. induction fuel as [|fuel IH]; intros buf pos filled pos' Hb;
    cbn [fill_while].
  - destruct (target <=? pos)%nat; [intros [= <- _]; exact Hb | discriminate].
  - destruct (target <=? pos)%nat; [intros [= <- _]; exact Hb|].
    pose proof (fill_pass_Forall P clips target Hc buf pos Hb) as Hp.
    destruct (fill_pass clips target buf pos) as [buf' pos''].
    cbn [fst] in Hp. apply IH, Hp.
Qed.

Lemma load_clips_decoded (rloops : string -> sample_file)
    (entries : list audio_entry) :
  Forall (fun c => Forall (fun x => -1 <= x < 1) (audio_data c))
         (load_clips (load_audio_file_from rloops) entries).
Proof.
  induction entries as [|e entries IH]; cbn [load_clips]; [constructor|].
  destruct (bool_decide (file_type e = Some "silence")); [exact IH|].
  destruct (load_audio_file_from rloops (filename e)) as [data|] eqn:E;
    [|exact IH].
  constructor; [|exact IH]. cbn [make_clip audio_data].
  eapply loaded_range, E.
Qed.

(** X17.  With the clips taken from the sample files by [load_audio_file], the
    normalisation step never divides: the buffer returned is the buffer as
    the fill loop left it, and every sample of it lies in [[-1, 1)]. *)
Theorem generated_from_loaded_files_is_unscaled
    (rloops : string -> sample_file) (fuel : nat)
    (data : option (list level_record)) (name : string) (target : Z)
    (buf : list Q) :
  generate_level_music (load_audio_file_from rloops) fuel data name target
  = Returns (Some buf) ->
  Forall (fun x => -1 <= x < 1) buf
  /\ exists level_info pos,
       get_level_info data name = Some level_info
       /\ fill_while fuel
            (load_clips (load_audio_file_from rloops)
                        (sorted_by_key (audio_files level_info)))
            (Z.to_nat target) (repeat 0 (Z.to_nat target)) 0
          = Some (buf, pos).
Proof.
  unfold generate_level_music, generate_for_level.
  destruct (get_level_info data name) as [info|]; [|discriminate].
  destruct (audio_count info =? 0)%nat; [discriminate|].
  intros H. apply render_returns_normalized in H.
  destruct H as (filled & pos & m & Hfill & Hm & ->).
  assert (Hr : Forall (fun x => -1 <= x < 1) filled).
  { eapply fill_while_Forall; [apply load_clips_decoded | | exact Hfill].
    apply List.Forall_forall. intros x Hx. apply repeat_spec in Hx. subst x.
    split; [vm_compute; discriminate | reflexivity]. }
  assert (Hle : m <= 1).
  { eapply max_abs_le_1; [|exact Hm].
    eapply List.Forall_impl; [|exact Hr].
    intros x [H1 H2]. apply Qabs_Qle_condition.
    split; [exact H1 | apply Qlt_le_weak, H2]. }
  rewrite normalize_quiet by exact Hle.
  split; [exact Hr|]. exists info, pos. split; [reflexivity | exact Hfill].
Qed.

Lemma generated_from_loaded_files_is_unscaled_witness :
  Forall (fun x => -1 <= x < 1) [0 # 128; 127 # 128; -128 # 128; 0 # 128]
  /\ exists level_info pos,
       get_level_info
         (Some [ {| level_name := "ONESONG.ELV"; audio_count := 2;
                    level_title := None;
                    audio_files :=
                      [ {| filename := "NOSOUND.WAV";
                           sequence_position := Some 0%nat;
                           file_type := Some "silence" |};
                        {| filename := "1RHYTH.WAV";
                           sequence_position := Some 1%nat;
                           file_type := Some "numbered_rhythm" |} ] |} ])
         "onesong.elv"
       = Some level_info
       /\ fill_while 2
            (load_clips
               (load_audio_file_from
                  (fun name => if String.eqb name "1RHYTH.WAV"
                               then Wave {| channels := 1; sampwidth := 1;
                                            framerate := Z.to_nat 44100;
                                            frames := [x80; xff; x00] |}
                               else NoSuchFile))
               (sorted_by_key (audio_files level_info)))
            (Z.to_nat 4) (repeat 0 (Z.to_nat 4)) 0
          = Some ([0 # 128; 127 # 128; -128 # 128; 0 # 128], pos).
Proof.
  apply (generated_from_loaded_files_is_unscaled
           (fun name => if String.eqb name "1RHYTH.WAV"
                        then Wave {| channels := 1; sampwidth := 1;
                                     framerate := Z.to_nat 44100;
                                     frames := [x80; xff; x00] |}
                        else NoSuchFile)
           2
           (Some [ {| level_name := "ONESONG.ELV"; audio_count := 2;
                      level_title := None;
                      audio_files :=
                        [ {| filename := "NOSOUND.WAV";
                             sequence_position := Some 0%nat;
                             file_type := Some "silence" |};
                          {| filename := "1RHYTH.WAV";
                             sequence_position := Some 1%nat;
                             file_type := Some "numbered_rhythm" |} ] |} ])
           "onesong.elv" 4
           [0 # 128; 127 # 128; -128 # 128; 0 # 128]).
  vm_compute. reflexivity.
Defined.

End Decoder.

(** ** The statistics of a report *)

Section Statistics.
Import Text Extractor Report.

Variable float_add : Q -> Q -> Q.
Variable audio_file_info : gmap string metadata.

Lemma report_loop_invariant (P : statistics -> Prop)
    (audio_sequence_raw : list (string * nat)) :
  (forall seq_pos item st,
      In item audio_sequence_raw -> P st ->
      P (report_step float_add audio_file_info seq_pos item st)) ->
  forall seq_pos st,
    P st -> P (report_loop float_add audio_file_info seq_pos audio_sequence_raw st).
Proof.
  induction audio_sequence_raw as [|item rest IH]; intros Hstep seq_pos st Hst;
    cbn [report_loop]; [exact Hst|].
  apply IH.
  - intros pos' item' st' Hin. apply Hstep. right. exact Hin.
  - apply Hstep; [left; reflexivity | exact Hst].
Qed.

Lemma report_loop_length (audio_sequence_raw : list (string * nat)) :
  forall seq_pos st,
    length (audio_sequence
              (report_loop float_add audio_file_info seq_pos audio_sequence_raw st))
    = length (audio_sequence st) + length audio_sequence_raw.
Proof.
  induction audio_sequence_raw as [|[name p] rest IH]; intros seq_pos st;
    cbn [report_loop length]; [lia|].
  rewrite IH. unfold report_step.
  destruct (_check_audio_file_exists audio_file_info name) as [[found alt] md].
  cbn [audio_sequence]. rewrite length_app. cbn [length]. lia.
Qed.

Lemma report_step_agrees (seq_pos : nat) (item : string * nat) (st : statistics) :
  counters_agree st ->
  counters_agree (report_step float_add audio_file_info seq_pos item st).
Proof.
  intros (Ha & Ht & Hz). destruct item as [name p]. unfold report_step.
  destruct (_check_audio_file_exists audio_file_info name) as [[found alt] md].
  unfold counters_agree.
  cbn [available_count type_counts audio_sequence].
  split; [|split].
  - rewrite List.filter_app, length_app. cbn [List.filter exists_in_rloops].
    destruct found; cbn [length]; lia.
  - intros t. unfold count_of.
    rewrite List.filter_app, length_app. cbn [List.filter file_type].
    destruct (String.eqb_spec (_classify_audio_file name) t) as [-> | Hne].
    + rewrite lookup_insert_eq. cbn [default length]. rewrite Ht.
      unfold count_of, id. lia.
    + rewrite lookup_insert_ne by exact Hne. cbn [length]. rewrite Ht.
      unfold count_of. lia.
  - intros t.
    destruct (String.eqb_spec (_classify_audio_file name) t) as [-> | Hne].
    + rewrite lookup_insert_eq. intros [= E]. lia.
    + rewrite lookup_insert_ne by exact Hne. apply Hz.
Qed.

Lemma count_of_positive (t : string) (l : list AudioSequenceInfo) :
  (0 < count_of t l)%nat -> exists a, In a l /\ file_type a = t.
Proof.
  unfold count_of.
  destruct (List.filter (fun a => String.eqb (file_type a) t) l) as [|a rest] eqn:E;
    cbn [length]; [lia|]. intros _.
  assert (Hin : In a (List.filter (fun a => String.eqb (file_type a) t) l))
    by (rewrite E; left; reflexivity).
  apply List.filter_In in Hin. destruct Hin as [Hin Heq].
  apply String.eqb_eq in Heq. eauto.
Qed.

(** X18.  The figures of a report agree with its sequence.  The sequence has
    one entry per extracted name; the available count is the number of
    entries marked as existing and the missing count the number of the
    others; the breakdown gives, for every category, the number of entries
    of that category, holds no zero, and has no key besides the five
    categories of recorded names. *)
Theorem report_figures_agree (file_data : list byte) :
  let st := sequence_statistics float_add audio_file_info file_data in
  length (audio_sequence st) = total_audio_files file_data
  /\ available_count st
     = length (List.filter exists_in_rloops (audio_sequence st))
  /\ missing_audio_files float_add audio_file_info file_data
     = Z.of_nat (length (List.filter (fun a => negb (exists_in_rloops a))
                                     (audio_sequence st)))
  /\ (forall t, default O (type_counts st !! t) = count_of t (audio_sequence st))
  /\ (forall t, type_counts st !! t <> Some O)
  /\ (forall t k,
         type_counts st !! t = Some k ->
         In t ["silence"; "system"; "special"; "letter_rhythm";
               "numbered_rhythm"]).
Proof.
  intros st.
  assert (Hlen : length (audio_sequence st) = total_audio_files file_data).
  { unfold st, sequence_statistics. rewrite report_loop_length. reflexivity. }
  assert (Hagree : counters_agree st).
  { unfold st, sequence_statistics. apply report_loop_invariant.
    - intros pos item st' _. apply report_step_agrees.
    - unfold counters_agree. cbn [available_count type_counts audio_sequence].
      split; [reflexivity|].
      split; intros t; rewrite lookup_empty; [reflexivity | discriminate]. }
  assert (Hcat : List.Forall
                   (fun a => In (file_type a)
                                ["silence"; "system"; "special"; "letter_rhythm";
                                 "numbered_rhythm"])
                   (audio_sequence st)).
  { unfold st, sequence_statistics. apply report_loop_invariant.
    - intros pos [name p] st' Hin Hst'. unfold report_step.
      destruct (_check_audio_file_exists audio_file_info name) as [[found alt] md].
      cbn [audio_sequence]. apply Forall_app. split; [exact Hst'|].
      constructor; [|constructor]. cbn [file_type].
      exact (recorded_category file_data name p Hin).
    - constructor. }
  destruct Hagree as (Ha & Ht & Hz).
  split; [exact Hlen|]. split; [exact Ha|]. split; [|split; [exact Ht|split; [exact Hz|]]].
  - unfold missing_audio_files. fold st. rewrite <- Hlen, Ha.
    clear. induction (audio_sequence st) as [|a l IH]; [reflexivity|].
    cbn [List.filter length]. destruct (exists_in_rloops a); cbn [negb length]; lia.
  - intros t k Hk.
    destruct (count_of_positive t (audio_sequence st)) as (a & Hin & <-).
    + rewrite <- Ht, Hk. cbn [default]. specialize (Hz t). rewrite Hk in Hz.
      destruct k; [congruence | unfold id; lia].
    + rewrite List.Forall_forall in Hcat. apply Hcat, Hin.
Qed.

End Statistics.

(** ** Level lookup and the entries that count *)

Section Lookup.
Import Text Generator.

Variable load_audio_file : string -> option (list Q).

Lemma find_first_match {A : Type} (f : A -> bool) (l : list A) :
  match List.find f l with
  | Some r =>
      exists before after,
        l = before ++ r :: after /\ f r = true
        /\ Forall (fun r' => f r' = false) before
  | None => Forall (fun r' => f r' = false) l
  end.
Proof.
  induction l as [|x l IH]; cbn [List.find]; [constructor|].
  destruct (f x) eqn:E.
  - exists [], l. repeat split; [exact E | constructor].
  - destruct (List.find f l) as [r|].
    + destruct IH as (before & after & -> & Hr & Hb).
      exists (x :: before), after. repeat split; [exact Hr|].
      constructor; assumption.
    + constructor; assumption.
Qed.

(** X19.  The lookup of a level ignores the letter case of the name asked for
    and of the names stored, and returns the first record that matches:
    no record in front of it has that name.  It returns nothing exactly
    when no record has the name, or the data have no [files]. *)
Theorem get_level_info_first_match (files : list level_record) (name : string) :
  match get_level_info (Some files) name with
  | Some r =>
      exists before after,
        files = before ++ r :: after
        /\ upper (level_name r) = upper name
        /\ Forall (fun r' => upper (level_name r') <> upper name) before
  | None => Forall (fun r' => upper (level_name r') <> upper name) files
  end
  /\ get_level_info (Some files) (upper name) = get_level_info (Some files) name
  /\ get_level_info None name = None.
Proof.
  split; [|split; [|reflexivity]].
  - unfold get_level_info.
    pose proof (find_first_match
                  (fun file_info =>
                     String.eqb (upper (level_name file_info)) (upper name))
                  files) as H.
    destruct (List.find _ files) as [r|].
    + destruct H as (before & after & -> & Hr & Hb).
      exists before, after. split; [reflexivity|].
      split; [apply String.eqb_eq, Hr|].
      eapply List.Forall_impl; [|exact Hb].
      intros r' Hr'. apply String.eqb_neq, Hr'.
    + eapply List.Forall_impl; [|exact H].
      intros r' Hr'. apply String.eqb_neq, Hr'.
  - unfold get_level_info. rewrite upper_idempotent. reflexivity.
Qed.

Lemma insert_by_key_head (x : audio_entry) (l : list audio_entry) :
  Forall (key_le x) l -> insert_by_key x l = x :: l.
Proof.
  destruct 1 as [|y l Hy _]; cbn [insert_by_key]; [reflexivity|].
  unfold key_le in Hy. apply Nat.leb_le in Hy. rewrite Hy. reflexivity.
Qed.

Lemma filter_insert_by_key (f : audio_entry -> bool) (x : audio_entry)
    (l : list audio_entry) :
  StronglySorted key_le l ->
  List.filter f (insert_by_key x l)
  = if f x then insert_by_key x (List.filter f l) else List.filter f l.
Proof.
  induction 1 as [|y l Hl IH Hy]; cbn [insert_by_key List.filter].
  - destruct (f x); reflexivity.
  - destruct (Nat.leb_spec (sort_key x) (sort_key y)) as [Hxy | Hyx].
    + cbn [List.filter]. destruct (f x); [|reflexivity].
      symmetry. apply insert_by_key_head.
      assert (Hall : Forall (key_le x) (y :: l)).
      { constructor; [exact Hxy|].
        eapply List.Forall_impl; [|exact Hy]. unfold key_le. intros z Hz. lia. }
      rewrite List.Forall_forall in *. intros z Hz.
      change (In z (List.filter f (y :: l))) in Hz.
      apply List.filter_In in Hz. apply Hall, Hz.
    + cbn [List.filter]. rewrite IH.
      destruct (f x); destruct (f y); cbn [insert_by_key]; try reflexivity.
      destruct (Nat.leb_spec (sort_key x) (sort_key y)); [lia | reflexivity].
Qed.

Lemma sorted_by_key_filter (f : audio_entry -> bool) (l : list audio_entry) :
  sorted_by_key (List.filter f l) = List.filter f (sorted_by_key l).
Proof.
  induction l as [|x l IH]; cbn [sorted_by_key List.filter]; [reflexivity|].
  rewrite filter_insert_by_key by apply sorted_by_key_sorted.
  destruct (f x); cbn [sorted_by_key]; rewrite IH; reflexivity.
Qed.

Lemma load_clips_filter (l : list audio_entry) :
  load_clips load_audio_file
    (List.filter (fun e => negb (bool_decide (file_type e = Some "silence"))
                           && bool_decide (is_Some (load_audio_file (filename e))))
                 l)
  = load_clips load_audio_file l.
Proof.
  induction l as [|e l IH]; cbn [List.filter load_clips]; [reflexivity|].
  destruct (bool_decide (file_type e = Some "silence")) eqn:Hs; cbn [negb andb];
    [exact IH|].
  destruct (load_audio_file (filename e)) as [data|] eqn:Hload.
  - rewrite bool_decide_eq_true_2 by eauto.
    cbn [load_clips]. rewrite Hs, Hload, IH. reflexivity.
  - rewrite bool_decide_eq_false_2 by (intros [? ?]; discriminate). exact IH.
Qed.

(** X20.  Only the entries that are not silence and whose file loads count:
    a level record without the others gives the same outcome, for every
    fuel and target.  Silence entries and entries that fail to load leave
    no trace in the sequence, wherever they stand. *)
Theorem only_loaded_sound_entries_count (fuel : nat) (level_info : level_record)
    (target : Z) :
  generate_for_level load_audio_file fuel level_info target
  = generate_for_level load_audio_file fuel
      {| level_name := level_name level_info;
         audio_count := audio_count level_info;
         level_title := level_title level_info;
         audio_files :=
           List.filter
             (fun e => negb (bool_decide (file_type e = Some "silence"))
                       && bool_decide (is_Some (load_audio_file (filename e))))
             (audio_files level_info) |}
      target.
Proof.
  unfold generate_for_level. cbn [audio_count audio_files].
  rewrite sorted_by_key_filter, load_clips_filter. reflexivity.
Qed.

End Lookup.

(** ** Names of the scan and names in general *)

Section AsciiNames.
Import Text Re Extractor Unicode.

Lemma of_string_cons (c : ascii) (s : string) :
  of_string (String c s) = N_of_ascii c :: of_string s.
Proof. reflexivity. Qed.

Lemma upper_char_ascii (c : ascii) :
  (N_of_ascii c <? 128)%N = true ->
  upper_char (N_of_ascii c) = [N_of_ascii (ascii_upper c)]
  /\ (N_of_ascii (ascii_upper c) <? 128)%N = true
  /\ Unicode.isdigit (N_of_ascii c) = Text.isdigit c.
Proof.
  destruct c as [[] [] [] [] [] [] [] []]; vm_compute; intros H;
    try discriminate H; repeat split.
Qed.

Lemma of_string_upper (s : string) :
  is_ascii s = true -> Unicode.upper (of_string s) = of_string (Text.upper s).
Proof.
  unfold is_ascii. induction s as [|c s IH]; [reflexivity|].
  cbn [str_forallb]. intros H. apply andb_true_iff in H. destruct H as [Hc Hs].
  change (Text.upper (String c s)) with (String (ascii_upper c) (Text.upper s)).
  rewrite !of_string_cons. unfold Unicode.upper in *. cbn [flat_map].
  rewrite (proj1 (upper_char_ascii c Hc)), IH by exact Hs. reflexivity.
Qed.

Lemma of_string_length (s : string) : length (of_string s) = String.length s.
Proof. induction s as [|c s IH]; [reflexivity|]. rewrite of_string_cons. cbn. congruence. Qed.

Lemma of_string_drop (s : string) :
  skipn 1 (of_string s) = of_string (str_drop 1 s).
Proof. destruct s; reflexivity. Qed.

Lemma of_string_inj (s t : string) : of_string s = of_string t -> s = t.
Proof.
  revert t. induction s as [|c s IH]; intros [|d t]; try discriminate;
    [reflexivity|].
  rewrite !of_string_cons. intros [= Hc Hs].
  f_equal; [|apply IH, Hs].
  rewrite <- (ascii_N_embedding c), <- (ascii_N_embedding d), Hc. reflexivity.
Qed.

Lemma is_ascii_drop (s : string) :
  is_ascii s = true -> is_ascii (str_drop 1 s) = true.
Proof.
  unfold is_ascii. destruct s as [|c s]; [easy|]. cbn [str_forallb str_drop].
  intros H. apply andb_true_iff in H. apply H.
Qed.

Lemma is_ascii_upper (s : string) :
  is_ascii s = true -> is_ascii (Text.upper s) = true.
Proof.
  unfold is_ascii. induction s as [|c s IH]; [easy|].
  change (Text.upper (String c s)) with (String (ascii_upper c) (Text.upper s)).
  cbn [str_forallb]. intros H. apply andb_true_iff in H. destruct H as [Hc Hs].
  rewrite (proj1 (proj2 (upper_char_ascii c Hc))), IH by exact Hs. reflexivity.
Qed.

Lemma fallback_on_ascii (s : string) :
  is_ascii s = true ->
  Inventory.fallback_applies (of_string s) = Extractor.fallback_applies s.
Proof.
  unfold Inventory.fallback_applies, Extractor.fallback_applies.
  rewrite of_string_length. destruct s as [|c s]; [reflexivity|].
  unfold is_ascii. cbn [str_forallb]. intros H. apply andb_true_iff in H.
  destruct H as [Hc _]. rewrite of_string_cons.
  rewrite (proj2 (proj2 (upper_char_ascii c Hc))). reflexivity.
Qed.

Lemma elem_of_names (available : gset string) (s : string) :
  of_string s ∈ (set_map of_string available : gset str) <-> s ∈ available.
Proof.
  rewrite elem_of_map. split.
  - intros (t & Ht & Hin). apply of_string_inj in Ht. subst. exact Hin.
  - intros Hin. eauto.
Qed.

(** On an ASCII name the check over every [str] answers as the check on
    8-bit texts does: the same flag, and the same alias. *)
Lemma check_set_on_ascii_names (available : gset string) (name : string) :
  is_ascii name = true ->
  Inventory._check_audio_file_exists_set (set_map of_string available)
                                         (of_string name)
  = (fst (Extractor._check_audio_file_exists_set available name),
     option_map of_string
                (snd (Extractor._check_audio_file_exists_set available name))).
Proof.
  intros Ha.
  unfold Inventory._check_audio_file_exists_set,
    Extractor._check_audio_file_exists_set.
  rewrite of_string_upper by exact Ha.
  rewrite (bool_decide_ext _ _ (elem_of_names available (Text.upper name))).
  destruct (bool_decide (Text.upper name ∈ available)); [reflexivity|].
  rewrite fallback_on_ascii by exact Ha.
  destruct (Extractor.fallback_applies name); [|reflexivity]. cbv zeta.
  rewrite of_string_drop, of_string_upper by (apply is_ascii_drop, Ha).
  rewrite (bool_decide_ext _ _ (elem_of_names available
                                   (Text.upper (str_drop 1 name)))).
  destruct (bool_decide (Text.upper (str_drop 1 name) ∈ available));
    reflexivity.
Qed.

Lemma check_on_ascii_names (inv : gmap string metadata) (name : string) :
  is_ascii name = true ->
  Inventory._check_audio_file_exists (kmap of_string inv) (of_string name)
  = (fst (fst (Extractor._check_audio_file_exists inv name)),
     option_map of_string
                (snd (fst (Extractor._check_audio_file_exists inv name))),
     snd (Extractor._check_audio_file_exists inv name)).
Proof.
  intros Ha.
  assert (Hinj : Inj (=) (=) of_string) by (intros s t; apply of_string_inj).
  unfold Inventory._check_audio_file_exists, Extractor._check_audio_file_exists.
  rewrite of_string_upper by exact Ha.
  rewrite (lookup_kmap of_string).
  destruct (inv !! Text.upper name) as [md|]; [reflexivity|].
  rewrite fallback_on_ascii by exact Ha.
  destruct (Extractor.fallback_applies name); [|reflexivity]. cbv zeta.
  rewrite of_string_drop, of_string_upper by (apply is_ascii_drop, Ha).
  rewrite (lookup_kmap of_string).
  destruct (inv !! Text.upper (str_drop 1 name)); reflexivity.
Qed.

Lemma str_forallb_drop (f : ascii -> bool) (n : nat) (s : string) :
  str_forallb f s = true -> str_forallb f (str_drop n s) = true.
Proof.
  revert s. induction n as [|n IH]; intros [|c s]; simpl; try easy.
  intros H. apply andb_true_iff in H. apply IH, H.
Qed.

Lemma decoded_text_is_ascii (data : list byte) :
  is_ascii (decode_ascii_ignore data) = true.
Proof.
  unfold is_ascii, decode_ascii_ignore, string_of_list_byte.
  induction data as [|b data IH]; [reflexivity|]. cbn [List.filter].
  destruct (is_ascii_byte b) eqn:Hb; [|exact IH].
  cbn [map string_of_list_ascii str_forallb]. rewrite IH, andb_true_r.
  revert Hb. destruct b; vm_compute; intros H; try discriminate H; reflexivity.
Qed.

(** Every name of the extracted sequence is an ASCII text, so the parse
    loop and the report loop hand the availability check names on which
    the two models of it agree. *)
Lemma recorded_names_are_ascii (data : list byte) (name : string) (p : nat) :
  In (name, p) (_extract_audio_sequence_from_data data) -> is_ascii name = true.
Proof.
  intros H. unfold _extract_audio_sequence_from_data in H.
  apply keep_first_In in H. destruct H as (H & _ & _).
  eapply Permutation_in in H; [|apply sort_by_offset_perm].
  apply all_matches_In in H. destruct H as (re & n & _ & _ & ->).
  apply is_ascii_upper. unfold is_ascii.
  apply str_forallb_take, str_forallb_drop. apply decoded_text_is_ascii.
Qed.

(** So on the names of a level file the checks of the parse loop and of
    the report loop are the checks on every [str]. *)
Lemma scan_names_resolve_alike (available : gset string)
    (inv : gmap string metadata) (data : list byte) (name : string) (p : nat) :
  In (name, p) (_extract_audio_sequence_from_data data) ->
  Inventory._check_audio_file_exists_set (set_map of_string available)
                                         (of_string name)
  = (fst (Extractor._check_audio_file_exists_set available name),
     option_map of_string
                (snd (Extractor._check_audio_file_exists_set available name)))
  /\ Inventory._check_audio_file_exists (kmap of_string inv) (of_string name)
     = (fst (fst (Extractor._check_audio_file_exists inv name)),
        option_map of_string
                   (snd (fst (Extractor._check_audio_file_exists inv name))),
        snd (Extractor._check_audio_file_exists inv name)).
Proof.
  intros H. apply recorded_names_are_ascii in H.
  split; [apply check_set_on_ascii_names | apply check_on_ascii_names]; exact H.
Qed.

End AsciiNames.

